(** * Speaking-test audio clip queue and phase controller

    A shallow embedding of the two stateful pieces of the IELTS practice
    application:

    - the [useAudioClipQueue] hook (sequential clip playback with a bounded
      retry per clip and a session counter used for cooperative
      cancellation), in [Module AudioClipQueue], with its proofs in
      [Module QueueProofs];
    - the [AIPracticeSpeakingTest] page (phase machine, countdown timer
      effect, per-part recordings and submission), in [Module SpeakingTest],
      with its proofs in [Module PageProofs].

    Beside them, what the page shows: the clip indicator
    ([ClipPlayingIndicator] with [formatClipKey]) in [Module ClipIndicator],
    with its proofs in [Module IndicatorProofs], and the time display, the
    cue card, the header label and the practice screen of the page, in
    [Module SpeakingTest].  [Module JsText] holds the few operations on
    JavaScript strings and numbers these use.

    JavaScript runs these on one thread; an [async] function runs
    synchronously up to its next [await].  Each model therefore has a
    deterministic [step] function taking one external event (a call from the
    page, the settling of an awaited promise, a timer firing) and running the
    code up to the next suspension point. *)

From Stdlib Require Import String List ZArith QArith Bool Lia Arith PeanoNat.
From Stdlib Require Ascii DecimalString DecimalN.
Import ListNotations.

Local Open Scope string_scope.
Local Open Scope list_scope.
Local Open Scope nat_scope.

(* ================================================================== *)
(** * JavaScript strings and numbers, as far as the code uses them *)
(* ================================================================== *)

Module JsText.
Import Ascii.
Local Open Scope string_scope.

(** A string is given by its UTF-8 bytes, so that the texts the code writes
    stand here as they stand there.  A number that is an integer is given as
    an integer.  A JavaScript number counts integers exactly up to 2^53 in
    magnitude; a function that prints or parses one answers within that
    range only, and [None] beyond it. *)
Definition exact_integer (n : Z) : bool := (Z.abs n <=? 2 ^ 53)%Z.

(** [n.toString()] and [`${n}`] for an integer [n]: the decimal digits,
    after a minus sign for a negative one. *)
Definition digits_of (n : N) : string :=
  DecimalString.NilEmpty.string_of_uint (N.to_uint n).

Definition toString (n : Z) : string :=
  match n with
  | Z0 => "0"
  | Zpos p => digits_of (Npos p)
  | Zneg p => "-" ++ digits_of (Npos p)
  end.

(** The character class [\d]. *)
Definition is_digit (c : Ascii.ascii) : bool :=
  (48 <=? nat_of_ascii c)%nat && (nat_of_ascii c <=? 57)%nat.

Fixpoint all_digits (s : string) : bool :=
  match s with
  | EmptyString => true
  | String c rest => is_digit c && all_digits rest
  end.

(** [parseInt(digits, 10)] for a non-empty string of decimal digits;
    [None] when the number is too large to be exact. *)
Definition parseInt10 (digits : string) : option Z :=
  match DecimalString.NilEmpty.uint_of_string digits with
  | Some u =>
      let n := Z.of_N (N.of_uint u) in
      if (n <? 2 ^ 53)%Z then Some n else None
  | None => None
  end.

(** [s.padStart(2, '0')]. *)
Definition padStart2 (s : string) : string :=
  match String.length s with
  | 0 => "00"
  | 1 => "0" ++ s
  | _ => s
  end.

(** The line terminators, which [.] in a regular expression does not
    match: line feed, carriage return, U+2028 and U+2029. *)
Definition byte (n : nat) : Ascii.ascii := Ascii.ascii_of_nat n.

Definition LINE_SEPARATOR : string :=
  String (byte 226) (String (byte 128) (String (byte 168) EmptyString)).
Definition PARAGRAPH_SEPARATOR : string :=
  String (byte 226) (String (byte 128) (String (byte 169) EmptyString)).

Fixpoint has_line_terminator (s : string) : bool :=
  match s with
  | EmptyString => false
  | String c rest =>
      Ascii.eqb c (byte 10) || Ascii.eqb c (byte 13)
      || String.prefix LINE_SEPARATOR s || String.prefix PARAGRAPH_SEPARATOR s
      || has_line_terminator rest
  end.

(** [hay.includes(needle)]. *)
Fixpoint includes (needle hay : string) : bool :=
  String.prefix needle hay ||
  match hay with
  | EmptyString => false
  | String _ rest => includes needle rest
  end.

(** A string is truthy when it is not empty. *)
Definition truthy (s : string) : bool :=
  match s with EmptyString => false | String _ _ => true end.

End JsText.

(* ================================================================== *)
(** * The audio clip playback queue *)
(* ================================================================== *)

Module AudioClipQueue.

(** [PcmClip] of the hook: [text] and [sampleRate] are optional fields. *)
Record PcmClip := mkClip {
  key : string;
  text : option string;
  audioBase64 : string;
  sampleRate : option Z
}.

(** Object URLs, by number.  The browser hands out a fresh one whenever a
    URL is created. *)
Definition Url := nat.

(** What the queue does to the outside world and to its own React state,
    recorded in the order it happens. *)
Inductive Effect :=
| SetCurrentClipKey (k : string)                   (* setCurrentClipKey(clip.key) *)
| CreateUrl (u : Url) (payload : string) (rate : Z)  (* pcm16Base64ToWavUrl(..) *)
| AudioPlay (u : Url) (volume : Z)                 (* new Audio(url); volume; play() *)
| AudioEnded (u : Url)                             (* the awaited promise resolved *)
| AudioFailed (u : Url)                            (* the awaited promise rejected *)
| RevokeUrl (u : Url)                              (* URL.revokeObjectURL(url) *)
| MarkFailed (k : string).                         (* setFailedClips(prev => [...prev, key]) *)

(** Every recorded effect carries the session id of the run that performed
    it and the position in the clip list of the clip it concerns.  The two
    tags are bookkeeping of the model; the code has them as the local
    [sessionId] and the position of the [for ... of] iteration. *)
Record Event := mkEvent {
  ev_session : nat;
  ev_index : nat;
  ev_effect : Effect
}.

(** The hook's own state: the ref and the three [useState] cells.  The
    session counter is a JavaScript number that is only ever incremented
    from 0; it is a natural number here. *)
Record Hook := mkHook {
  playSessionRef : nat;
  isSpeaking : bool;
  currentClipKey : option string;
  failedClips : list string
}.

(** A [playClips] call suspended at [await new Promise(...)]: the locals of
    the call that are live across the suspension. *)
Record Frame := mkFrame {
  f_session : nat;            (* const sessionId *)
  f_muted : bool;             (* muted, captured by the callback *)
  f_retry : Z;                (* retryCount *)
  f_index : nat;              (* position of [clip] in [clips] *)
  f_clip : PcmClip;           (* clip *)
  f_rest : list PcmClip;      (* what the for-of iterator has not yielded yet *)
  f_attempts : Z;             (* attempts *)
  f_url : Url                 (* url *)
}.

Record World := mkWorld {
  hook : Hook;
  nextUrl : Url;
  pending : list Frame;
  trace : list Event
}.

Definition init : World :=
  mkWorld (mkHook 0 false None []) 0 [] [].

(** ** State updates *)

Definition with_hook (h : Hook) (w : World) : World :=
  mkWorld h (nextUrl w) (pending w) (trace w).

Definition emit (sid idx : nat) (e : Effect) (w : World) : World :=
  mkWorld (hook w) (nextUrl w) (pending w) (trace w ++ [mkEvent sid idx e]).

Definition setIsSpeaking (b : bool) (w : World) : World :=
  let h := hook w in
  with_hook (mkHook (playSessionRef h) b (currentClipKey h) (failedClips h)) w.

Definition setCurrentClipKey (k : option string) (w : World) : World :=
  let h := hook w in
  with_hook (mkHook (playSessionRef h) (isSpeaking h) k (failedClips h)) w.

Definition setFailedClips (f : list string -> list string) (w : World) : World :=
  let h := hook w in
  with_hook (mkHook (playSessionRef h) (isSpeaking h) (currentClipKey h)
               (f (failedClips h))) w.

Definition bumpSession (w : World) : World :=
  let h := hook w in
  with_hook (mkHook (S (playSessionRef h)) (isSpeaking h) (currentClipKey h)
               (failedClips h)) w.

(** ** The code *)

(** [stop]: lines 17-21. *)
Definition stop (w : World) : World :=
  setCurrentClipKey None (setIsSpeaking false (bumpSession w)).

(** Lines 65-68: the guarded reset after the loop. *)
Definition finish (sid : nat) (w : World) : World :=
  if playSessionRef (hook w) =? sid
  then setCurrentClipKey None (setIsSpeaking false w)
  else w.

(** Lines 59-62: the clip is given up. *)
Definition mark_failed (sid idx : nat) (clip : PcmClip) (w : World) : World :=
  setFailedClips (fun prev => prev ++ [key clip])
    (emit sid idx (MarkFailed (key clip)) w).

(** Modelled from the spec: [pcm16Base64ToWavUrl] of the module
    [@/lib/audio/pcmToWav], which is not among the sources.  The spec has
    it "decode the clip's PCM payload into a playable resource", a transient
    URL that is to be revoked later.  The model hands out the next unused
    URL and records the call. *)
Definition pcm16Base64ToWavUrl (sid idx : nat) (payload : string) (rate : Z)
    (w : World) : Url * World :=
  let u := nextUrl w in
  let w1 := emit sid idx (CreateUrl u payload rate) w in
  (u, mkWorld (hook w1) (S u) (pending w1) (trace w1)).

(** Lines 40-49: one entry into the body of the [while] loop, up to the
    [await].  The URL is decoded afresh on every attempt. *)
Definition start_attempt (sid : nat) (muted : bool) (retry : Z) (idx : nat)
    (clip : PcmClip) (rest : list PcmClip) (attempts : Z) (w : World) : World :=
  let rate := match sampleRate clip with Some r => r | None => 24000%Z end in
  let (url, w1) := pcm16Base64ToWavUrl sid idx (audioBase64 clip) rate w in
  let w2 := emit sid idx (AudioPlay url (if muted then 0%Z else 1%Z)) w1 in
  mkWorld (hook w2) (nextUrl w2)
    (pending w2 ++ [mkFrame sid muted retry idx clip rest attempts url])
    (trace w2).

(** Lines 31-68 from the head of the [for ... of] loop, with [clips] the
    clips not yet yielded and [idx] the position of the first of them.  The
    session test at line 32 is the only one in the loop.  With a negative
    [retryCount] the [while] body is never entered and every clip is given
    up at once. *)
Fixpoint for_loop (sid : nat) (muted : bool) (retry : Z) (idx : nat)
    (clips : list PcmClip) (w : World) : World :=
  match clips with
  | [] => finish sid w
  | clip :: rest =>
      if playSessionRef (hook w) =? sid then
        let w1 := setCurrentClipKey (Some (key clip))
                    (emit sid idx (SetCurrentClipKey (key clip)) w) in
        if (0 <=? retry)%Z
        then start_attempt sid muted retry idx clip rest 0%Z w1
        else for_loop sid muted retry (S idx) rest (mark_failed sid idx clip w1)
      else finish sid w
  end.

(** Lines 23-29, then the loop.  [muted] is the hook's argument at the
    render whose [playClips] is called. *)
Definition playClips (clips : list PcmClip) (retryCount : Z) (muted : bool)
    (w : World) : World :=
  match clips with
  | [] => w
  | _ :: _ =>
      let w1 := bumpSession w in
      let sessionId := playSessionRef (hook w1) in
      let w2 := setFailedClips (fun _ => []) (setIsSpeaking true w1) in
      for_loop sessionId muted retryCount 0 clips w2
  end.

(** The default of the second parameter of [playClips]. *)
Definition DEFAULT_RETRY_COUNT : Z := 1%Z.

(** Lines 50-63, run when the awaited promise of [f] settles: [ok] tells
    whether it resolved ([onended]) or rejected ([onerror], or a rejected
    [play()]).  The [finally] block revokes the URL either way; after a
    failure the [while] condition alone decides about another attempt.
    The two console messages are left out. *)
Definition resume (f : Frame) (ok : bool) (w : World) : World :=
  let sid := f_session f in
  let idx := f_index f in
  if ok then
    let w1 := emit sid idx (RevokeUrl (f_url f))
                (emit sid idx (AudioEnded (f_url f)) w) in
    for_loop sid (f_muted f) (f_retry f) (S idx) (f_rest f) w1
  else
    let attempts := (f_attempts f + 1)%Z in
    let w1 := emit sid idx (RevokeUrl (f_url f))
                (emit sid idx (AudioFailed (f_url f)) w) in
    if (attempts <=? f_retry f)%Z
    then start_attempt sid (f_muted f) (f_retry f) idx (f_clip f) (f_rest f)
           attempts w1
    else for_loop sid (f_muted f) (f_retry f) (S idx) (f_rest f)
           (mark_failed sid idx (f_clip f) w1).

(** ** The event loop *)

Definition awaits (u : Url) (f : Frame) : bool := f_url f =? u.

Definition drop_frame (u : Url) (w : World) : World :=
  mkWorld (hook w) (nextUrl w)
    (filter (fun f => negb (awaits u f)) (pending w)) (trace w).

(** The audio element of URL [u] ends or fails: the call that awaits it
    runs on.  Nothing happens when no call awaits [u]. *)
Definition settle (u : Url) (ok : bool) (w : World) : World :=
  match find (awaits u) (pending w) with
  | Some f => resume f ok (drop_frame u w)
  | None => w
  end.

Inductive Action :=
| PlayClips (clips : list PcmClip) (retryCount : Z) (muted : bool)
| Stop
| Ended (u : Url)
| Failed (u : Url).

Definition step (w : World) (a : Action) : World :=
  match a with
  | PlayClips clips r m => playClips clips r m w
  | Stop => stop w
  | Ended u => settle u true w
  | Failed u => settle u false w
  end.

Definition exec (acts : list Action) (w : World) : World :=
  fold_left step acts w.

(** ** Reading the trace *)

Definition of_run (sid : nat) (e : Event) : bool := ev_session e =? sid.

(** The events of run [sid], oldest first. *)
Definition run_trace (sid : nat) (t : list Event) : list Event :=
  filter (of_run sid) t.

Definition is_visit (e : Event) : bool :=
  match ev_effect e with SetCurrentClipKey _ => true | _ => false end.
Definition is_create (e : Event) : bool :=
  match ev_effect e with CreateUrl _ _ _ => true | _ => false end.
Definition is_play (e : Event) : bool :=
  match ev_effect e with AudioPlay _ _ => true | _ => false end.
Definition is_ended (e : Event) : bool :=
  match ev_effect e with AudioEnded _ => true | _ => false end.
Definition is_error (e : Event) : bool :=
  match ev_effect e with AudioFailed _ => true | _ => false end.
Definition is_mark (e : Event) : bool :=
  match ev_effect e with MarkFailed _ => true | _ => false end.

Definition count (p : Event -> bool) (t : list Event) : nat :=
  List.length (filter p t).

Definition at_index (idx : nat) (p : Event -> bool) (e : Event) : bool :=
  (ev_index e =? idx) && p e.

(** The same readings on the events of one run. *)
Definition visits_in (rt : list Event) : list nat :=
  map ev_index (filter is_visit rt).
Definition plays_at (idx : nat) (rt : list Event) : nat :=
  count (at_index idx is_play) rt.
Definition ended_at (idx : nat) (rt : list Event) : nat :=
  count (at_index idx is_ended) rt.
Definition errors_at (idx : nat) (rt : list Event) : nat :=
  count (at_index idx is_error) rt.
Definition marks_at (idx : nat) (rt : list Event) : nat :=
  count (at_index idx is_mark) rt.

(** The clip positions run [sid] has entered the loop body for (it called
    [setCurrentClipKey] there), in order. *)
Definition visited (sid : nat) (t : list Event) : list nat :=
  visits_in (run_trace sid t).

(** Playback attempts, successes, failures and give-ups of the clip at
    position [idx] of run [sid]. *)
Definition attempts_of (sid idx : nat) (t : list Event) : nat :=
  plays_at idx (run_trace sid t).
Definition successes_of (sid idx : nat) (t : list Event) : nat :=
  ended_at idx (run_trace sid t).
Definition failures_of (sid idx : nat) (t : list Event) : nat :=
  errors_at idx (run_trace sid t).
Definition marks_of (sid idx : nat) (t : list Event) : nat :=
  marks_at idx (run_trace sid t).

(** The keys appended to [failedClips] by the events [rt], in order. *)
Definition marked_keys (rt : list Event) : list string :=
  flat_map (fun e => match ev_effect e with MarkFailed k => [k] | _ => [] end) rt.

Definition appended (sid : nat) (t : list Event) : list string :=
  marked_keys (run_trace sid t).

(** The URLs created and not yet revoked by the events [rt]. *)
Definition live_step (live : list Url) (e : Event) : list Url :=
  match ev_effect e with
  | CreateUrl u _ _ => live ++ [u]
  | RevokeUrl u => remove Nat.eq_dec u live
  | _ => live
  end.

Definition live_urls (rt : list Event) : list Url :=
  fold_left live_step rt [].

(** [rt] is in list order and strictly sequential: wherever an event [e]
    stands in it, the events before [e] concern clips at positions no later
    than that of [e], and if [e] decodes a URL then every URL decoded before
    it has been revoked before it. *)
Definition sequential (rt : list Event) : Prop :=
  forall before e after, rt = before ++ e :: after ->
    (forall e', In e' before -> ev_index e' <= ev_index e) /\
    (is_create e = true -> live_urls before = []).

Definition creates (u : Url) (e : Event) : bool :=
  match ev_effect e with CreateUrl v _ _ => v =? u | _ => false end.
Definition plays (u : Url) (e : Event) : bool :=
  match ev_effect e with AudioPlay v _ => v =? u | _ => false end.
Definition revokes (u : Url) (e : Event) : bool :=
  match ev_effect e with RevokeUrl v => v =? u | _ => false end.
Definition settles (u : Url) (e : Event) : bool :=
  match ev_effect e with AudioEnded v | AudioFailed v => v =? u | _ => false end.

(** The suspended call of run [sid], if there is one. *)
Definition frame_of (sid : nat) (w : World) : option Frame :=
  find (fun f => f_session f =? sid) (pending w).

(** A run is logically active when its session id is the current value of
    the session counter. *)
Definition active (w : World) (f : Frame) : bool :=
  f_session f =? playSessionRef (hook w).

(** How many suspended calls await URL [u]. *)
Definition waiting (u : Url) (l : list Frame) : nat :=
  List.length (filter (awaits u) l).

(** URLs an event mentions. *)
Definition mentions (u : Url) (e : Event) : bool :=
  creates u e || plays u e || revokes u e || settles u e.

Definition clipA : PcmClip := mkClip "a" None "AAAA" None.
Definition clipB : PcmClip := mkClip "b" (Some "hello") "BBBB" (Some 16000%Z).

(** ** Invariant of the event loop *)

Record Inv (w : World) : Prop := mkInv {
  inv_sess : forall f, In f (pending w) ->
      1 <= f_session f <= playSessionRef (hook w);
  inv_url : forall f, In f (pending w) -> f_url f < nextUrl w;
  inv_nd_sess : NoDup (map f_session (pending w));
  inv_nd_url : NoDup (map f_url (pending w));
  inv_ev_sess : forall e, In e (trace w) ->
      1 <= ev_session e <= playSessionRef (hook w);
  inv_ev_url : forall e u, In e (trace w) -> mentions u e = true -> u < nextUrl w;
  inv_dom : forall f e, In f (pending w) -> In e (trace w) ->
      ev_session e = f_session f -> ev_index e <= f_index f;
  inv_acct : forall u,
      count (creates u) (trace w) <= 1 /\
      count (plays u) (trace w) = count (creates u) (trace w) /\
      count (settles u) (trace w) = count (revokes u) (trace w) /\
      count (revokes u) (trace w) + waiting u (pending w)
        = count (creates u) (trace w)
}.

(** No call of run [sid] is suspended: the run is executing, or over. *)
Definition no_frame (sid : nat) (w : World) : Prop :=
  forall f, In f (pending w) -> f_session f <> sid.

(** All recorded events of run [sid] concern clips at positions up to [idx]. *)
Definition events_upto (sid idx : nat) (w : World) : Prop :=
  forall e, In e (trace w) -> ev_session e = sid -> ev_index e <= idx.

(** ** What one run can change *)

Definition others (sid : nat) (l : list Frame) : list Frame :=
  filter (fun g => negb (f_session g =? sid)) l.

(** [w'] comes from [w] by code of run [sid] running: the session counter
    is untouched, the trace grows by events of that run only, and the
    suspended calls of the other runs stay as they are. *)
Definition extends (sid : nat) (w w' : World) : Prop :=
  playSessionRef (hook w') = playSessionRef (hook w) /\
  (exists l, trace w' = trace w ++ l /\ Forall (fun e => ev_session e = sid) l) /\
  others sid (pending w') = others sid (pending w).

(** Lines 27-29 of [playClips]. *)
Definition started (w : World) : World :=
  setFailedClips (fun _ => []) (setIsSpeaking true (bumpSession w)).

(** Run [sid] has been superseded while at the clip at position [i]. *)
Definition superseded_at (sid i : nat) (w : World) : Prop :=
  sid < playSessionRef (hook w) /\
  events_upto sid i w /\
  (forall g, In g (pending w) -> f_session g = sid -> f_index g <= i).

(** ** Progress of one run *)

(** The clip at position [j] is over: it was played until an attempt
    succeeded or the attempts were used up, and given up in the second case
    only. *)
Definition finalized (retry : Z) (rt : list Event) (j : nat) : Prop :=
  plays_at j rt = ended_at j rt + errors_at j rt /\
  ended_at j rt + marks_at j rt = 1 /\
  (Z.of_nat (plays_at j rt) <= Z.max 0 (retry + 1))%Z /\
  (marks_at j rt = 1 -> Z.of_nat (errors_at j rt) = Z.max 0 (retry + 1)).

(** The suspended call [f] is in the middle of its clip: [attempts]
    failures so far and one attempt under way. *)
Definition in_flight (retry : Z) (rt : list Event) (f : Frame) : Prop :=
  (0 <= f_attempts f <= retry)%Z /\
  Z.of_nat (errors_at (f_index f) rt) = f_attempts f /\
  plays_at (f_index f) rt = S (errors_at (f_index f) rt) /\
  ended_at (f_index f) rt = 0 /\
  marks_at (f_index f) rt = 0.

Definition key_at (clips : list PcmClip) (j : nat) : option string :=
  option_map key (nth_error clips j).

(** What holds of the events [rt] of a run over [clips] that has entered
    the loop body [k] times and is suspended in [cur], or not suspended. *)
Record Progress (clips : list PcmClip) (retry : Z) (k : nat)
    (cur : option Frame) (rt : list Event) : Prop := mkProgress {
  pg_visits : visits_in rt = seq 0 k;
  pg_le : k <= List.length clips;
  pg_upto : forall e, In e rt -> ev_index e < k;
  pg_seq : sequential rt;
  pg_keys : map Some (marked_keys rt)
            = map (key_at clips) (map ev_index (filter is_mark rt));
  pg_cur : match cur with
           | None =>
               (forall j, j < k -> finalized retry rt j) /\ live_urls rt = []
           | Some f =>
               k = S (f_index f) /\
               (forall j, j < f_index f -> finalized retry rt j) /\
               in_flight retry rt f /\
               live_urls rt = [f_url f] /\
               f_retry f = retry /\
               nth_error clips (f_index f) = Some (f_clip f) /\
               f_rest f = skipn k clips
           end
}.

(** Run [sid], started by [playClips clips retry], as it stands in [w]. *)
Definition run_state (sid : nat) (clips : list PcmClip) (retry : Z)
    (w : World) : Prop :=
  sid <= playSessionRef (hook w) /\
  exists k,
    Progress clips retry k (frame_of sid w) (run_trace sid (trace w)) /\
    (frame_of sid w = None -> playSessionRef (hook w) = sid ->
     k = List.length clips).

(** An upper bound on the number of attempts run [sid] still has to wait
    for, for a run over [n] clips. *)
Definition work_left (sid n : nat) (retry : Z) (w : World) : nat :=
  match frame_of sid w with
  | None => 0
  | Some f =>
      (n - S (f_index f)) * S (Z.to_nat retry)
      + Z.to_nat (retry - f_attempts f) + 1
  end.

(** Let the audio of run [sid] play out: each attempt the run waits for
    ends or fails as [outcome] tells, [fuel] times at most. *)
Fixpoint play_out (outcome : Url -> bool) (sid : nat) (fuel : nat)
    (w : World) : World :=
  match fuel with
  | 0 => w
  | S fuel' =>
      match frame_of sid w with
      | None => w
      | Some f =>
          play_out outcome sid fuel' (settle (f_url f) (outcome (f_url f)) w)
      end
  end.

(** Actions that neither stop nor supersede a run. *)
Definition keeps_session (a : Action) : bool :=
  match a with
  | PlayClips [] _ _ => true
  | PlayClips (_ :: _) _ _ => false
  | Stop => false
  | Ended _ | Failed _ => true
  end.

(** [failedClips] holds exactly what run [sid] has appended. *)
Definition synced (sid : nat) (w : World) : Prop :=
  failedClips (hook w) = appended sid (trace w).

(** Every suspended call belongs to run [sid]. *)
Definition solo (sid : nat) (w : World) : Prop :=
  forall f, In f (pending w) -> f_session f = sid.

(** ** The status flags and the arguments of a call *)

(** The suspended call of the current run: the one whose session id is the
    value of the session counter. *)
Definition current_attempt (w : World) : option Frame :=
  frame_of (playSessionRef (hook w)) w.

(** [isSpeaking] and [currentClipKey] tell of that call and of no other. *)
Definition flags_mirror (w : World) : Prop :=
  match current_attempt w with
  | Some f => isSpeaking (hook w) = true /\
              currentClipKey (hook w) = Some (key (f_clip f))
  | None => isSpeaking (hook w) = false /\ currentClipKey (hook w) = None
  end.

(** What an event of a run over [clips], started with the hook [muted],
    has to look like: the key set or given up is that of the clip at the
    event's position, a URL is decoded from the payload of that clip at its
    sample rate (24000 when it has none), and audio is played at volume 0
    when muted and 1 otherwise. *)
Definition event_ok (clips : list PcmClip) (muted : bool) (e : Event) : Prop :=
  match ev_effect e with
  | SetCurrentClipKey k | MarkFailed k => key_at clips (ev_index e) = Some k
  | CreateUrl _ payload rate =>
      exists clip, nth_error clips (ev_index e) = Some clip /\
        payload = audioBase64 clip /\
        rate = match sampleRate clip with Some r => r | None => 24000%Z end
  | AudioPlay _ volume => volume = if muted then 0%Z else 1%Z
  | _ => True
  end.

(** The locals of a suspended call of such a run. *)
Definition frame_ok (clips : list PcmClip) (retry : Z) (muted : bool)
    (f : Frame) : Prop :=
  f_muted f = muted /\ f_retry f = retry /\
  nth_error clips (f_index f) = Some (f_clip f) /\
  f_rest f = skipn (S (f_index f)) clips.

(** From [w] to [w'] only such events and such calls have been added. *)
Definition grows_ok (sid : nat) (clips : list PcmClip) (retry : Z)
    (muted : bool) (w w' : World) : Prop :=
  (forall e, In e (trace w') ->
     In e (trace w) \/ (ev_session e = sid /\ event_ok clips muted e)) /\
  (forall g, In g (pending w') ->
     In g (pending w) \/ (f_session g = sid /\ frame_ok clips retry muted g)).

(** All events and suspended calls of run [sid] are such. *)
Definition params_ok (sid : nat) (clips : list PcmClip) (retry : Z)
    (muted : bool) (w : World) : Prop :=
  (forall e, In e (trace w) -> ev_session e = sid -> event_ok clips muted e) /\
  (forall g, In g (pending w) -> f_session g = sid ->
     frame_ok clips retry muted g).

End AudioClipQueue.

(* ================================================================== *)
(** * The clip indicator *)
(* ================================================================== *)

(** The component [ClipPlayingIndicator] of
    [src/components/speaking/ClipPlayingIndicator.tsx], which the page
    feeds with the [currentClipKey] and the [failedClips] of the queue. *)

Module ClipIndicator.
Import Ascii JsText.
Local Open Scope string_scope.

(** [key.match(/^p(\d):(.+)$/)]: the two groups. *)
Definition match_part (key : string) : option (Ascii.ascii * string) :=
  match key with
  | String p (String d (String colon rest)) =>
      if Ascii.eqb p "p"%char && is_digit d && Ascii.eqb colon ":"%char
         && truthy rest && negb (has_line_terminator rest)
      then Some (d, rest)
      else None
  | _ => None
  end.

(** [rest.match(/^q:(\d+)$/)]: the group. *)
Definition match_question (rest : string) : option string :=
  match rest with
  | String q (String colon digits) =>
      if Ascii.eqb q "q"%char && Ascii.eqb colon ":"%char
         && truthy digits && all_digits digits
      then Some digits
      else None
  | _ => None
  end.

(** [formatClipKey], lines 11-39.  The dash in the labels is an en dash.
    [None]: the question number is too large to be exact. *)
Definition formatClipKey (key : string) : option string :=
  if String.prefix "id:" key then Some "Identity Check"
  else
    match match_part key with
    | None => Some key
    | Some (partNum, rest) =>
        let partLabel := "Part " ++ String partNum EmptyString in
        if rest =? "intro" then Some (partLabel ++ " – Introduction")
        else if rest =? "prep_over" then Some (partLabel ++ " – Start Speaking")
        else if rest =? "stop" then Some (partLabel ++ " – Stop")
        else
          match match_question rest with
          | Some digits =>
              match parseInt10 digits with
              | Some n =>
                  let qNum := (n + 1)%Z in
                  Some (partLabel ++ " – Question " ++ toString qNum)
              | None => None
              end
          | None => Some key
          end
    end.





End ClipIndicator.


(* ================================================================== *)
(** * The speaking-test page: phases, countdown, recordings, submission *)
(* ================================================================== *)

Module SpeakingTest.

Inductive TestPhase :=
| connecting
| identity_check
| part1_intro
| part1_questions
| part1_question_recording
| part2_intro
| part2_prep
| part2_speaking
| part3_intro
| part3_questions
| part3_question_recording
| submitting
| done.

Definition phase_eq_dec (a b : TestPhase) : {a = b} + {a <> b}.
Proof. decide equality. Defined.

Definition phase_eqb (a b : TestPhase) : bool :=
  if phase_eq_dec a b then true else false.

(** [PART_TIMINGS[2]] and the fluency threshold, in seconds. *)
Definition PART2_PREP_TIME : Z := 60%Z.
Definition PART2_SPEAK_TIME : Z := 120%Z.
Definition PART2_MIN_SPEAKING_SECONDS : Q := 80%Q.

(** A recorded audio fragment, by its size in bytes. *)
Definition Blob := Z.

(** [PartRecording].  The page builds records with an object spread of a
    map entry that may be absent, so at run time every field can be
    missing: all fields are optional here. *)
Record PartRecording := mkRecording {
  partNumber : option nat;
  chunks : option (list Blob);
  startTime : option Z;
  transcript : option string;
  speakingDuration : option Q;
  audioBase64 : option string;
  duration : option Z
}.

(** [Record<number, PartRecording>]: a JavaScript object with integer keys,
    which it lists in ascending order. *)
Definition Recordings := list (nat * PartRecording).

Fixpoint obj_get (k : nat) (o : Recordings) : option PartRecording :=
  match o with
  | [] => None
  | (k', v) :: rest => if k' =? k then Some v else obj_get k rest
  end.

Fixpoint obj_set (k : nat) (v : PartRecording) (o : Recordings) : Recordings :=
  match o with
  | [] => [(k, v)]
  | (k', v') :: rest =>
      if k =? k' then (k, v) :: rest
      else if k <? k' then (k, v) :: (k', v') :: rest
      else (k', v') :: obj_set k v rest
  end.

(** [{ ...r }] for an entry that may be absent. *)
Definition spread (r : option PartRecording) : PartRecording :=
  match r with
  | Some r => r
  | None => mkRecording None None None None None None None
  end.

(** The record the page creates when a part begins. *)
Definition new_recording (part : nat) (now : Z) : PartRecording :=
  mkRecording (Some part) (Some []) (Some now) (Some "") None None None.

Definition with_chunks (c : list Blob) (r : PartRecording) : PartRecording :=
  mkRecording (partNumber r) (Some c) (startTime r) (transcript r)
    (speakingDuration r) (audioBase64 r) (duration r).

Definition with_transcript (t : string) (r : PartRecording) : PartRecording :=
  mkRecording (partNumber r) (chunks r) (startTime r) (Some t)
    (speakingDuration r) (audioBase64 r) (duration r).

Definition with_speakingDuration (d : Q) (r : PartRecording) : PartRecording :=
  mkRecording (partNumber r) (chunks r) (startTime r) (transcript r)
    (Some d) (audioBase64 r) (duration r).

Definition with_audio (b : string) (d : option Z) (r : PartRecording)
  : PartRecording :=
  mkRecording (partNumber r) (chunks r) (startTime r) (transcript r)
    (speakingDuration r) (Some b) d.

(** What the page tells the examiner channel to say ([gemini.sendText]);
    the texts themselves are left out. *)
Inductive Prompt :=
| AskIdentity
| IntroducePart1
| NextPart1Question
| IntroducePart2
| PrepTimeOver
| CandidateReady
| ThankYouPart2
| IntroducePart3
| NextPart3Question
| TestComplete.

(** The body of the evaluation request.  [testId], [topic] and
    [difficulty] are passed through from the loaded test and left out. *)
Record PartAudio := mkPartAudio {
  pa_partNumber : option nat;
  pa_audioBase64 : string;
  pa_duration : Z
}.

Record EvalRequest := mkRequest {
  req_partAudios : list PartAudio;
  req_transcripts : list (nat * option string);
  req_part2SpeakingDuration : Q;
  req_fluencyFlag : bool
}.

(** Modelled from the spec: the collaborators of the page that are not
    among the sources, each an opaque service in the spec: the streaming AI
    conversation channel ([useGeminiSpeaking], with [connect],
    [disconnect], [sendText], [startListening], [stopListening] and its
    callbacks for transcripts and connection changes), the evaluation
    endpoint ([supabase.functions.invoke]), the toast hook and the router.
    A call to one of them is recorded as an output; what it calls back or
    answers arrives as an event. *)
Inductive Output :=
| SendText (p : Prompt)
| StopListening
| StartListening
| RecorderStopped
| RecorderStarted
| Connect
| Disconnect
| Toast (title description : string) (destructive : bool)
| Navigate
| Invoke (body : EvalRequest)
| TimeUp (p : TestPhase)          (* handleTimeUp ran, with this [phase] *)
| Threw.                          (* a TypeError was thrown *)

(** A running [setInterval] timer: its id and what the [handleTimeUp] its
    callback closes over sees as [phase] and [partRecordings]. *)
Record Interval := mkInterval {
  iv_id : nat;
  iv_phase : TestPhase;
  iv_recordings : Recordings
}.

(** The [setTimeout] callbacks of the page. *)
Inductive Delayed :=
| AfterPart1Intro                      (* startPart1, 2000 ms *)
| AfterPart2Intro                      (* transitionToPart2, 4000 ms *)
| StartCapture                         (* part 2 speaking, 2500 ms *)
| GoPart3 (snapshot : Recordings)      (* time up in part 2, 2500 ms *)
| AfterPart3Intro                      (* transitionToPart3, 3000 ms *)
| ResumeSubmit (snapshot : Recordings). (* handleCompleteTest, 2000 ms *)

(** A [FileReader] reading the audio of a part, with the [startTime] its
    [onloadend] closes over. *)
Record Reader := mkReader {
  rd_part : nat;
  rd_startTime : option Z
}.

(** The page between two events: its React state, its refs, and what the
    browser and React hold for it (timers, pending callbacks, the timer
    effect's cleanup and dependencies). *)
Record State := mkState {
  showStartOverlay : bool;  (* useState: showStartOverlay *)
  phase : TestPhase;  (* useState: phase *)
  currentPart : nat;  (* useState: currentPart *)
  timeLeft : Z;  (* useState: timeLeft *)
  totalTestTime : Z;  (* useState: totalTestTime *)
  isRecording : bool;  (* useState: isRecording *)
  partRecordings : Recordings;  (* useState: partRecordings *)
  mediaRecorder : option bool;  (* mediaRecorderRef: null, or whether the recorder is recording *)
  audioChunks : list Blob;  (* audioChunksRef *)
  part2SpeakingStart : Z;  (* part2SpeakingStartRef *)
  timerRef : option nat;  (* timerRef *)
  intervals : list Interval;  (* the setInterval timers that are running *)
  cleanupArmed : bool;  (* the last run of the timer effect returned its cleanup *)
  effectDeps : Z * TestPhase;  (* [timeLeft, phase] at the last run of the timer effect *)
  nextTimerId : nat;  (* the next id setInterval hands out *)
  timeouts : list Delayed;  (* setTimeout callbacks not yet run *)
  micRequests : list bool;  (* getUserMedia calls not yet settled (true: a failure is shown as a toast) *)
  readers : list Reader;  (* FileReaders that have not finished loading *)
  requests : list (Recordings * EvalRequest);  (* evaluation requests in flight *)
  unmounted : bool;  (* the component is gone: an updater threw while rendering, or the page navigated away *)
  outputs : list Output  (* what the page did to the outside, oldest first *)
}.

(** One setter per field. *)

Definition set_showStartOverlay (v : bool) (s : State) : State :=
  mkState v (phase s) (currentPart s) (timeLeft s) (totalTestTime s)
    (isRecording s) (partRecordings s) (mediaRecorder s) (audioChunks s)
    (part2SpeakingStart s) (timerRef s) (intervals s) (cleanupArmed s)
    (effectDeps s) (nextTimerId s) (timeouts s) (micRequests s) (readers s)
    (requests s) (unmounted s) (outputs s).

Definition set_phase (v : TestPhase) (s : State) : State :=
  mkState (showStartOverlay s) v (currentPart s) (timeLeft s) (totalTestTime
    s) (isRecording s) (partRecordings s) (mediaRecorder s) (audioChunks s)
    (part2SpeakingStart s) (timerRef s) (intervals s) (cleanupArmed s)
    (effectDeps s) (nextTimerId s) (timeouts s) (micRequests s) (readers s)
    (requests s) (unmounted s) (outputs s).

Definition set_currentPart (v : nat) (s : State) : State :=
  mkState (showStartOverlay s) (phase s) v (timeLeft s) (totalTestTime s)
    (isRecording s) (partRecordings s) (mediaRecorder s) (audioChunks s)
    (part2SpeakingStart s) (timerRef s) (intervals s) (cleanupArmed s)
    (effectDeps s) (nextTimerId s) (timeouts s) (micRequests s) (readers s)
    (requests s) (unmounted s) (outputs s).

Definition set_timeLeft (v : Z) (s : State) : State :=
  mkState (showStartOverlay s) (phase s) (currentPart s) v (totalTestTime s)
    (isRecording s) (partRecordings s) (mediaRecorder s) (audioChunks s)
    (part2SpeakingStart s) (timerRef s) (intervals s) (cleanupArmed s)
    (effectDeps s) (nextTimerId s) (timeouts s) (micRequests s) (readers s)
    (requests s) (unmounted s) (outputs s).

Definition set_totalTestTime (v : Z) (s : State) : State :=
  mkState (showStartOverlay s) (phase s) (currentPart s) (timeLeft s) v
    (isRecording s) (partRecordings s) (mediaRecorder s) (audioChunks s)
    (part2SpeakingStart s) (timerRef s) (intervals s) (cleanupArmed s)
    (effectDeps s) (nextTimerId s) (timeouts s) (micRequests s) (readers s)
    (requests s) (unmounted s) (outputs s).

Definition set_isRecording (v : bool) (s : State) : State :=
  mkState (showStartOverlay s) (phase s) (currentPart s) (timeLeft s)
    (totalTestTime s) v (partRecordings s) (mediaRecorder s) (audioChunks s)
    (part2SpeakingStart s) (timerRef s) (intervals s) (cleanupArmed s)
    (effectDeps s) (nextTimerId s) (timeouts s) (micRequests s) (readers s)
    (requests s) (unmounted s) (outputs s).

Definition set_partRecordings (v : Recordings) (s : State) : State :=
  mkState (showStartOverlay s) (phase s) (currentPart s) (timeLeft s)
    (totalTestTime s) (isRecording s) v (mediaRecorder s) (audioChunks s)
    (part2SpeakingStart s) (timerRef s) (intervals s) (cleanupArmed s)
    (effectDeps s) (nextTimerId s) (timeouts s) (micRequests s) (readers s)
    (requests s) (unmounted s) (outputs s).

Definition set_mediaRecorder (v : option bool) (s : State) : State :=
  mkState (showStartOverlay s) (phase s) (currentPart s) (timeLeft s)
    (totalTestTime s) (isRecording s) (partRecordings s) v (audioChunks s)
    (part2SpeakingStart s) (timerRef s) (intervals s) (cleanupArmed s)
    (effectDeps s) (nextTimerId s) (timeouts s) (micRequests s) (readers s)
    (requests s) (unmounted s) (outputs s).

Definition set_audioChunks (v : list Blob) (s : State) : State :=
  mkState (showStartOverlay s) (phase s) (currentPart s) (timeLeft s)
    (totalTestTime s) (isRecording s) (partRecordings s) (mediaRecorder s) v
    (part2SpeakingStart s) (timerRef s) (intervals s) (cleanupArmed s)
    (effectDeps s) (nextTimerId s) (timeouts s) (micRequests s) (readers s)
    (requests s) (unmounted s) (outputs s).

Definition set_part2SpeakingStart (v : Z) (s : State) : State :=
  mkState (showStartOverlay s) (phase s) (currentPart s) (timeLeft s)
    (totalTestTime s) (isRecording s) (partRecordings s) (mediaRecorder s)
    (audioChunks s) v (timerRef s) (intervals s) (cleanupArmed s)
    (effectDeps s) (nextTimerId s) (timeouts s) (micRequests s) (readers s)
    (requests s) (unmounted s) (outputs s).

Definition set_timerRef (v : option nat) (s : State) : State :=
  mkState (showStartOverlay s) (phase s) (currentPart s) (timeLeft s)
    (totalTestTime s) (isRecording s) (partRecordings s) (mediaRecorder s)
    (audioChunks s) (part2SpeakingStart s) v (intervals s) (cleanupArmed s)
    (effectDeps s) (nextTimerId s) (timeouts s) (micRequests s) (readers s)
    (requests s) (unmounted s) (outputs s).

Definition set_intervals (v : list Interval) (s : State) : State :=
  mkState (showStartOverlay s) (phase s) (currentPart s) (timeLeft s)
    (totalTestTime s) (isRecording s) (partRecordings s) (mediaRecorder s)
    (audioChunks s) (part2SpeakingStart s) (timerRef s) v (cleanupArmed s)
    (effectDeps s) (nextTimerId s) (timeouts s) (micRequests s) (readers s)
    (requests s) (unmounted s) (outputs s).

Definition set_cleanupArmed (v : bool) (s : State) : State :=
  mkState (showStartOverlay s) (phase s) (currentPart s) (timeLeft s)
    (totalTestTime s) (isRecording s) (partRecordings s) (mediaRecorder s)
    (audioChunks s) (part2SpeakingStart s) (timerRef s) (intervals s) v
    (effectDeps s) (nextTimerId s) (timeouts s) (micRequests s) (readers s)
    (requests s) (unmounted s) (outputs s).

Definition set_effectDeps (v : Z * TestPhase) (s : State) : State :=
  mkState (showStartOverlay s) (phase s) (currentPart s) (timeLeft s)
    (totalTestTime s) (isRecording s) (partRecordings s) (mediaRecorder s)
    (audioChunks s) (part2SpeakingStart s) (timerRef s) (intervals s)
    (cleanupArmed s) v (nextTimerId s) (timeouts s) (micRequests s) (readers
    s) (requests s) (unmounted s) (outputs s).

Definition set_nextTimerId (v : nat) (s : State) : State :=
  mkState (showStartOverlay s) (phase s) (currentPart s) (timeLeft s)
    (totalTestTime s) (isRecording s) (partRecordings s) (mediaRecorder s)
    (audioChunks s) (part2SpeakingStart s) (timerRef s) (intervals s)
    (cleanupArmed s) (effectDeps s) v (timeouts s) (micRequests s) (readers
    s) (requests s) (unmounted s) (outputs s).

Definition set_timeouts (v : list Delayed) (s : State) : State :=
  mkState (showStartOverlay s) (phase s) (currentPart s) (timeLeft s)
    (totalTestTime s) (isRecording s) (partRecordings s) (mediaRecorder s)
    (audioChunks s) (part2SpeakingStart s) (timerRef s) (intervals s)
    (cleanupArmed s) (effectDeps s) (nextTimerId s) v (micRequests s)
    (readers s) (requests s) (unmounted s) (outputs s).

Definition set_micRequests (v : list bool) (s : State) : State :=
  mkState (showStartOverlay s) (phase s) (currentPart s) (timeLeft s)
    (totalTestTime s) (isRecording s) (partRecordings s) (mediaRecorder s)
    (audioChunks s) (part2SpeakingStart s) (timerRef s) (intervals s)
    (cleanupArmed s) (effectDeps s) (nextTimerId s) (timeouts s) v (readers
    s) (requests s) (unmounted s) (outputs s).

Definition set_readers (v : list Reader) (s : State) : State :=
  mkState (showStartOverlay s) (phase s) (currentPart s) (timeLeft s)
    (totalTestTime s) (isRecording s) (partRecordings s) (mediaRecorder s)
    (audioChunks s) (part2SpeakingStart s) (timerRef s) (intervals s)
    (cleanupArmed s) (effectDeps s) (nextTimerId s) (timeouts s)
    (micRequests s) v (requests s) (unmounted s) (outputs s).

Definition set_requests (v : list (Recordings * EvalRequest)) (s : State) : State :=
  mkState (showStartOverlay s) (phase s) (currentPart s) (timeLeft s)
    (totalTestTime s) (isRecording s) (partRecordings s) (mediaRecorder s)
    (audioChunks s) (part2SpeakingStart s) (timerRef s) (intervals s)
    (cleanupArmed s) (effectDeps s) (nextTimerId s) (timeouts s)
    (micRequests s) (readers s) v (unmounted s) (outputs s).

Definition set_unmounted (v : bool) (s : State) : State :=
  mkState (showStartOverlay s) (phase s) (currentPart s) (timeLeft s)
    (totalTestTime s) (isRecording s) (partRecordings s) (mediaRecorder s)
    (audioChunks s) (part2SpeakingStart s) (timerRef s) (intervals s)
    (cleanupArmed s) (effectDeps s) (nextTimerId s) (timeouts s)
    (micRequests s) (readers s) (requests s) v (outputs s).

Definition set_outputs (v : list Output) (s : State) : State :=
  mkState (showStartOverlay s) (phase s) (currentPart s) (timeLeft s)
    (totalTestTime s) (isRecording s) (partRecordings s) (mediaRecorder s)
    (audioChunks s) (part2SpeakingStart s) (timerRef s) (intervals s)
    (cleanupArmed s) (effectDeps s) (nextTimerId s) (timeouts s)
    (micRequests s) (readers s) (requests s) (unmounted s) v.

Definition init : State :=
  mkState true connecting 1 0%Z 0%Z false [] None [] 0%Z None [] false
    (0%Z, connecting) 1 [] [] [] [] false [].

(** ** Small steps shared by the handlers *)

Definition say (o : Output) (s : State) : State :=
  set_outputs (outputs s ++ [o]) s.

Definition sendText (p : Prompt) (s : State) : State := say (SendText p) s.

Definition toast (title description : string) (destructive : bool) (s : State)
  : State :=
  say (Toast title description destructive) s.

Definition schedule (d : Delayed) (s : State) : State :=
  set_timeouts (timeouts s ++ [d]) s.

(** [navigator.mediaDevices.getUserMedia] is called and awaited. *)
Definition request_mic (shows_toast : bool) (s : State) : State :=
  set_micRequests (micRequests s ++ [shows_toast]) s.

(** The lines every handler that ends a capture starts with: stop the
    recorder and its tracks if it is recording, stop listening, clear
    [isRecording]. *)
Definition stop_capture (s : State) : State :=
  let s1 := match mediaRecorder s with
            | Some true => say RecorderStopped (set_mediaRecorder (Some false) s)
            | _ => s
            end in
  set_isRecording false (say StopListening s1).

(** [setPartRecordings(prev => ...)] appending the buffered fragments to the
    recording of [part], when there is one.  Spreading the [chunks] of a
    record that has none throws; the updater runs while React renders, so
    the component is torn down. *)
Definition save_chunks (part : nat) (s : State) : State :=
  match obj_get part (partRecordings s) with
  | None => s
  | Some current =>
      match chunks current with
      | Some c =>
          set_partRecordings
            (obj_set part (with_chunks (c ++ audioChunks s) current)
               (partRecordings s)) s
      | None => set_unmounted true (say Threw s)
      end
  end.

(** The test whether there is audio to encode, and the [FileReader] started
    on it.  [None]: reading [chunks.length] threw. *)
Definition start_reader (part : nat) (snapshot : Recordings) (s : State)
  : option State :=
  match obj_get part snapshot with
  | None => Some s
  | Some recording =>
      match chunks recording with
      | None => None
      | Some c =>
          if (0 <? List.length c)%nat
          then Some (set_readers
                       (readers s ++ [mkReader part (startTime recording)]) s)
          else Some s
      end
  end.

(** ** The handlers *)

(** [startIdentityCheck]. *)
Definition startIdentityCheck (s : State) : State :=
  sendText AskIdentity (set_phase identity_check s).

(** [startPart1]. *)
Definition startPart1 (now : Z) (s : State) : State :=
  let s := set_currentPart 1 (set_phase part1_intro s) in
  let s := set_partRecordings
             (obj_set 1 (new_recording 1 now) (partRecordings s)) s in
  let s := set_audioChunks [] s in
  schedule AfterPart1Intro (sendText IntroducePart1 s).

(** [transitionToPart2]; [snapshot] is the [partRecordings] of the render
    the callback belongs to. *)
Definition transitionToPart2 (snapshot : Recordings) (now : Z) (s : State)
  : State :=
  let s := stop_capture s in
  match start_reader 1 snapshot s with
  | None => say Threw s
  | Some s =>
      let s := set_currentPart 2 (set_phase part2_intro s) in
      let s := set_partRecordings
                 (obj_set 2 (new_recording 2 now) (partRecordings s)) s in
      let s := set_audioChunks [] s in
      schedule AfterPart2Intro (sendText IntroducePart2 s)
  end.

(** [startPart2Speaking]. *)
Definition startPart2Speaking (now : Z) (s : State) : State :=
  let s := set_timeLeft PART2_SPEAK_TIME (set_phase part2_speaking s) in
  let s := set_part2SpeakingStart now s in
  schedule StartCapture (sendText CandidateReady s).

(** [transitionToPart3].  The updater of lines 219-231 reads
    [audioChunksRef.current] when React runs it, and line 265 of the same
    callback empties that buffer: the updater finds the buffered fragments
    when React runs it at the call ([eager]), and an empty buffer when React
    runs it at the render that follows the callback. *)
Definition transitionToPart3 (eager : bool) (snapshot : Recordings) (now : Z)
    (s : State) : State :=
  let s := stop_capture s in
  let s := if eager then save_chunks 2 s
           else save_chunks 2 (set_audioChunks [] s) in
  match start_reader 2 snapshot s with
  | None => say Threw s
  | Some s =>
      let s := set_currentPart 3 (set_phase part3_intro s) in
      let s := set_partRecordings
                 (obj_set 3 (new_recording 3 now) (partRecordings s)) s in
      let s := set_audioChunks [] s in
      schedule AfterPart3Intro (sendText IntroducePart3 s)
  end.

(** The speaking time measured when the two minutes are up, in seconds:
    [(Date.now() - part2SpeakingStartRef.current) / 1000].  Times are
    integer milliseconds; the quotient is kept exact. *)
Definition measured_duration (now start : Z) : Q :=
  Qmake (now - start) 1000.

(** [handleTimeUp], with the [phase] and [partRecordings] it closes over. *)
Definition handleTimeUp (ph : TestPhase) (snapshot : Recordings) (now : Z)
    (s : State) : State :=
  let s := say (TimeUp ph) s in
  match ph with
  | part1_question_recording =>
      sendText NextPart1Question (set_phase part1_questions (stop_capture s))
  | part2_prep =>
      let s := set_timeLeft PART2_SPEAK_TIME (set_phase part2_speaking s) in
      let s := set_part2SpeakingStart now s in
      schedule StartCapture (sendText PrepTimeOver s)
  | part2_speaking =>
      let s := stop_capture s in
      let d := measured_duration now (part2SpeakingStart s) in
      let s := set_partRecordings
                 (obj_set 2
                    (with_speakingDuration d
                       (spread (obj_get 2 (partRecordings s))))
                    (partRecordings s)) s in
      schedule (GoPart3 snapshot) (sendText ThankYouPart2 s)
  | part3_question_recording =>
      sendText NextPart3Question (set_phase part3_questions (stop_capture s))
  | _ => s
  end.

(** [startRecording] and [stopRecording]. *)
Definition startRecording (s : State) : State := request_mic true s.

Definition stopRecording (s : State) : State :=
  let s := stop_capture s in
  save_chunks (currentPart s) s.

(** [uploadPartAudio]: an async function; a throw in it rejects a promise
    nobody looks at. *)
Definition uploadPartAudio (part : nat) (snapshot : Recordings) (s : State)
  : State :=
  match start_reader part snapshot s with
  | Some s => s
  | None => s
  end.

(** [r.audioBase64 || ''], [r.duration || 0] and the truthiness of a
    string. *)
Definition or_empty (o : option string) : string :=
  match o with Some b => b | None => "" end.

Definition or_zero (o : option Z) : Z :=
  match o with Some d => d | None => 0%Z end.

Definition nonempty (b : string) : bool :=
  match b with EmptyString => false | _ => true end.

(** [part2Recording?.speakingDuration || 0]: a missing duration and a zero
    one both give 0. *)
Definition duration_or_zero (o : option Q) : Q :=
  match o with
  | Some d => if Qeq_bool d 0 then 0%Q else d
  | None => 0%Q
  end.

Definition Qltb (a b : Q) : bool :=
  (Qnum a * QDen b <? Qnum b * QDen a)%Z.

(** The fluency flag: [part2SpeakingDuration < PART2_MIN_SPEAKING_SECONDS]. *)
Definition fluencyFlag (recordings : Recordings) : bool :=
  let part2Recording := obj_get 2 recordings in
  let part2SpeakingDuration :=
    duration_or_zero
      (match part2Recording with
       | Some r => speakingDuration r
       | None => None
       end) in
  Qltb part2SpeakingDuration PART2_MIN_SPEAKING_SECONDS.

(** Lines 587-618 of [handleCompleteTest]: the request body. *)
Definition build_request (recordings : Recordings) : EvalRequest :=
  let partAudios :=
    filter (fun p => nonempty (pa_audioBase64 p))
      (map (fun kv =>
              mkPartAudio (partNumber (snd kv))
                (or_empty (audioBase64 (snd kv)))
                (or_zero (duration (snd kv))))
         recordings) in
  let transcripts := map (fun kv => (fst kv, transcript (snd kv))) recordings in
  let part2SpeakingDuration :=
    duration_or_zero
      (match obj_get 2 recordings with
       | Some r => speakingDuration r
       | None => None
       end) in
  mkRequest partAudios transcripts part2SpeakingDuration
    (fluencyFlag recordings).

(** [handleCompleteTest] up to its first [await]. *)
Definition handleCompleteTest (s : State) : State :=
  let snapshot := partRecordings s in
  let s := stopRecording s in
  let s := uploadPartAudio 3 snapshot s in
  let s := set_phase submitting s in
  schedule (ResumeSubmit snapshot) (sendText TestComplete s).

(** [handleCompleteTest] after the two seconds, up to the awaited request. *)
Definition resume_submit (snapshot : Recordings) (s : State) : State :=
  let s := say Disconnect s in
  let body := build_request snapshot in
  set_requests (requests s ++ [(snapshot, body)]) (say (Invoke body) s).

(** [handleCompleteTest] once the request has settled: lines 620-636.
    [navigate] leaves the page. *)
Definition submit_settled (ok : bool) (s : State) : State :=
  if ok
  then set_unmounted true
         (say Navigate
            (toast "Test Submitted" "Your speaking test is being evaluated"
               false s))
  else set_phase part3_questions
         (toast "Submission Failed" "Please try again" true s).

(** [handleStartTest], and its [catch]. *)
Definition handleStartTest (s : State) : State :=
  say Connect (set_phase connecting (set_showStartOverlay false s)).

Definition connect_failed (s : State) : State :=
  toast "Connection Failed" "Could not connect to AI examiner" true s.

(** [onUserTranscript]. *)
Definition onUserTranscript (text : string) (isFinal : bool) (s : State)
  : State :=
  if isFinal && nonempty text then
    match obj_get (currentPart s) (partRecordings s) with
    | Some current =>
        let old := match transcript current with
                   | Some t => t
                   | None => "undefined"
                   end in
        set_partRecordings
          (obj_set (currentPart s)
             (with_transcript (old ++ " " ++ text) current)
             (partRecordings s)) s
    | None => s
    end
  else s.

(** [reader.onloadend]. *)
Definition reader_loaded (r : Reader) (base64 : string) (now : Z) (s : State)
  : State :=
  let d := match rd_startTime r with
           | Some t => Some ((now - t) / 1000)%Z
           | None => None
           end in
  set_partRecordings
    (obj_set (rd_part r)
       (with_audio base64 d (spread (obj_get (rd_part r) (partRecordings s))))
       (partRecordings s)) s.

(** The rest of a capture start once [getUserMedia] has settled. *)
Definition mic_settled (shows_toast granted listening : bool) (s : State)
  : State :=
  let failed (s : State) :=
    if shows_toast
    then toast "Microphone Error" "Could not access microphone" true s
    else s in
  if granted then
    let s := say RecorderStarted (set_mediaRecorder (Some true) s) in
    let s := set_isRecording true s in
    if listening then say StartListening s else failed s
  else failed s.

(** [recorder.ondataavailable]. *)
Definition data_available (b : Blob) (s : State) : State :=
  if (0 <? b)%Z then set_audioChunks (audioChunks s ++ [b]) s else s.

(** A [setTimeout] callback runs; [eager]: React runs the updaters it
    queues at once, rather than at the render that follows. *)
Definition run_delayed (eager : bool) (d : Delayed) (now : Z) (s : State)
  : State :=
  match d with
  | AfterPart1Intro => request_mic false (set_phase part1_questions s)
  | AfterPart2Intro => set_timeLeft PART2_PREP_TIME (set_phase part2_prep s)
  | StartCapture => request_mic false s
  | GoPart3 snapshot => transitionToPart3 eager snapshot now s
  | AfterPart3Intro => request_mic false (set_phase part3_questions s)
  | ResumeSubmit snapshot => resume_submit snapshot s
  end.

(** ** The countdown effect *)

(** The cleanup of the timer effect, lines 204-206. *)
Definition clear_timer (s : State) : State :=
  match timerRef s with
  | Some id =>
      if (id =? 0)%nat then s
      else set_intervals
             (filter (fun iv => negb (iv_id iv =? id)%nat) (intervals s)) s
  | None => s
  end.

(** The body of the timer effect, lines 191-203: with no time left it
    returns at once, and returns no cleanup. *)
Definition timer_effect (s : State) : State :=
  if (timeLeft s <=? 0)%Z then set_cleanupArmed false s
  else
    let id := nextTimerId s in
    let s := set_intervals
               (intervals s ++ [mkInterval id (phase s) (partRecordings s)]) s in
    let s := set_timerRef (Some id) s in
    let s := set_nextTimerId (S id) s in
    set_cleanupArmed true s.

Definition deps_eqb (a b : Z * TestPhase) : bool :=
  (fst a =? fst b)%Z && phase_eqb (snd a) (snd b).

(** What React does once a handler has run and the component has rendered
    again: when [timeLeft] or [phase] differ from their values at the last
    run of the effect, the cleanup of that run, if it returned one, and
    then the effect; when the component is gone, the cleanup alone. *)
Definition commit (s : State) : State :=
  if unmounted s then
    if cleanupArmed s then set_cleanupArmed false (clear_timer s) else s
  else if deps_eqb (effectDeps s) (timeLeft s, phase s) then s
  else
    let s := if cleanupArmed s then clear_timer s else s in
    set_effectDeps (timeLeft s, phase s) (timer_effect s).

(** The callback of the interval, lines 193-202.  [handleTimeUp] runs
    inside the updater of [setTimeLeft], which then returns 0; in the one
    case where the handler sets [timeLeft] itself, React's update queue
    decides which value stands: the updater's when React ran it eagerly
    ([eager]), the handler's otherwise. *)
Definition interval_tick (iv : Interval) (eager : bool) (now : Z) (s : State)
  : State :=
  let prev := timeLeft s in
  let s :=
    if (prev <=? 1)%Z then
      if eager
      then set_timeLeft 0%Z
             (handleTimeUp (iv_phase iv) (iv_recordings iv) now s)
      else handleTimeUp (iv_phase iv) (iv_recordings iv) now
             (set_timeLeft 0%Z s)
    else set_timeLeft (prev - 1)%Z s in
  set_totalTestTime (totalTestTime s + 1)%Z s.

(** ** Events *)

(** [Fire] and [FireBatched] are the firing of the same timeout.  They
    differ in when React runs the updater functions the callback queues:
    at the call, or at the render that follows the callback. *)
Inductive Event :=
| ClickStart                                   (* the start overlay *)
| ConnectFailed
| Connected                                    (* onConnectionChange(true) *)
| ChannelError (message : string)              (* onError *)
| ClickContinue (now : Z)                      (* Continue to Part 1 *)
| ClickNextPart (now : Z)                      (* Next: Part 2 *)
| ClickToggleRecording                         (* Pause / Resume *)
| ClickReady (now : Z)                         (* I'm Ready to Speak *)
| ClickEndTest                                 (* End Test, Complete Test *)
| Tick (id : nat) (eager : bool) (now : Z)     (* an interval fires *)
| Fire (k : nat) (now : Z)                     (* a timeout fires *)
| FireBatched (k : nat) (now : Z)   (* the same, updaters run at the render *)
| MicSettled (k : nat) (granted listening : bool)
| ReaderLoaded (k : nat) (base64 : string) (now : Z)
| RequestSettled (k : nat) (ok : bool)
| UserTranscript (text : string) (isFinal : bool)
| DataAvailable (b : Blob).

Fixpoint remove_nth {A} (k : nat) (l : list A) : list A :=
  match k, l with
  | _, [] => []
  | 0%nat, _ :: rest => rest
  | S k', x :: rest => x :: remove_nth k' rest
  end.

Definition running (id : nat) (s : State) : option Interval :=
  find (fun iv => (iv_id iv =? id)%nat) (intervals s).

(** A button's handler runs only while the button is rendered. *)
Definition when (rendered : bool) (s' s : State) : State :=
  if rendered then s' else s.

Definition in_part1 (s : State) : bool :=
  phase_eqb (phase s) part1_intro || phase_eqb (phase s) part1_questions.

Definition in_part3 (s : State) : bool :=
  phase_eqb (phase s) part3_intro || phase_eqb (phase s) part3_questions.

Definition handle (e : Event) (s : State) : State :=
  match e with
  | ClickStart => when (showStartOverlay s) (handleStartTest s) s
  | ConnectFailed => connect_failed s
  | Connected =>
      if phase_eqb (phase s) connecting then startIdentityCheck s else s
  | ChannelError message => toast "Connection Error" message true s
  | ClickContinue now =>
      when (negb (showStartOverlay s) && phase_eqb (phase s) identity_check)
        (startPart1 now s) s
  | ClickNextPart now =>
      when (negb (showStartOverlay s) && in_part1 s)
        (transitionToPart2 (partRecordings s) now s) s
  | ClickToggleRecording =>
      when (negb (showStartOverlay s) && (in_part1 s || in_part3 s))
        (if isRecording s then stopRecording s else startRecording s) s
  | ClickReady now =>
      when (negb (showStartOverlay s) && phase_eqb (phase s) part2_prep)
        (startPart2Speaking now s) s
  | ClickEndTest =>
      when (negb (showStartOverlay s) && negb (phase_eqb (phase s) submitting))
        (handleCompleteTest s) s
  | Tick id eager now =>
      match running id s with
      | Some iv => interval_tick iv eager now s
      | None => s
      end
  | Fire k now =>
      match nth_error (timeouts s) k with
      | Some d =>
          run_delayed true d now (set_timeouts (remove_nth k (timeouts s)) s)
      | None => s
      end
  | FireBatched k now =>
      match nth_error (timeouts s) k with
      | Some d =>
          run_delayed false d now (set_timeouts (remove_nth k (timeouts s)) s)
      | None => s
      end
  | MicSettled k granted listening =>
      match nth_error (micRequests s) k with
      | Some t =>
          mic_settled t granted listening
            (set_micRequests (remove_nth k (micRequests s)) s)
      | None => s
      end
  | ReaderLoaded k base64 now =>
      match nth_error (readers s) k with
      | Some r =>
          reader_loaded r base64 now
            (set_readers (remove_nth k (readers s)) s)
      | None => s
      end
  | RequestSettled k ok =>
      match nth_error (requests s) k with
      | Some _ =>
          submit_settled ok (set_requests (remove_nth k (requests s)) s)
      | None => s
      end
  | UserTranscript text isFinal => onUserTranscript text isFinal s
  | DataAvailable b => data_available b s
  end.

(** One event: its handler, then React.  Nothing runs once the component
    is gone. *)
Definition step (s : State) (e : Event) : State :=
  if unmounted s then s else commit (handle e s).

Definition run (evs : list Event) (s : State) : State :=
  fold_left step evs s.

(** The time-up handler invocations among the outputs. *)
Definition is_time_up (o : Output) : bool :=
  match o with TimeUp _ => true | _ => false end.

Definition time_ups (s : State) : list Output :=
  filter is_time_up (outputs s).

(** What the page looks like at a glance: the End Test button is enabled. *)
Definition can_end_test (s : State) : bool :=
  negb (showStartOverlay s) && negb (phase_eqb (phase s) submitting).

(** The fields the timer effect works with are in order: the effect's
    cleanup is armed exactly when an interval runs, there is then one
    interval, it is the one [timerRef] names, and its callback closes over
    the phase the effect last ran for, with time left then. *)
Definition timer_ok (s : State) : Prop :=
  (1 <= nextTimerId s)%nat /\
  if cleanupArmed s then
    exists id snap,
      intervals s = [mkInterval id (snd (effectDeps s)) snap] /\
      timerRef s = Some id /\
      (1 <= id < nextTimerId s)%nat /\
      (0 < fst (effectDeps s))%Z
  else intervals s = [].

(** After React has committed: the effect has run for the current
    [timeLeft] and [phase], or the component is gone and its cleanup has
    run. *)
Definition settled (s : State) : Prop :=
  timer_ok s /\
  if unmounted s then cleanupArmed s = false
  else effectDeps s = (timeLeft s, phase s).

(** The fields of the timer effect; the handlers leave them alone. *)
Definition timer_part (s : State)
  : option nat * list Interval * bool * (Z * TestPhase) * nat :=
  (timerRef s, intervals s, cleanupArmed s, effectDeps s, nextTimerId s).

(** ** What the page shows *)

(** [formatTime], lines 658-662, for a whole number of seconds:
    [Math.floor(seconds / 60)] is the floor of the quotient (the quotient
    of an exact integer by 60 rounds to a double with the same floor), [%]
    the remainder with the sign of the dividend.  [None]: [seconds] is too
    large to be exact. *)
Definition formatTime (seconds : Z) : option string :=
  if JsText.exact_integer seconds then
    let mins := (seconds / 60)%Z in
    let secs := Z.rem seconds 60 in
    Some (JsText.padStart2 (JsText.toString mins) ++ ":"
          ++ JsText.padStart2 (JsText.toString secs))%string
  else None.

(** The two-digit reading of a number below 100. *)
Definition digit_char (d : Z) : Ascii.ascii :=
  Ascii.ascii_of_nat (48 + Z.to_nat d).

Definition two_digits (n : Z) : string :=
  String (digit_char (n / 10)) (String (digit_char (n mod 10)) EmptyString).

(** Modelled from the spec: [GeneratedTest] of [@/types/aiPractice], which
    is not among the sources.  The records have the fields the page reads;
    a field the page guards with [?.] or [||] may be absent. *)
Record SpeakingPart := mkSpeakingPart {
  part_number : Z;
  cue_card_topic : option string;
  cue_card_content : option string
}.

Record GeneratedTest := mkTest {
  difficulty : option string;
  topic : option string;
  speakingParts : option (list SpeakingPart)
}.

Record CueCard := mkCueCard {
  cue_topic : string;
  cue_content : string
}.

(** [a || b] for an optional string: an absent and an empty one both give
    [b]. *)
Definition or_else (a : option string) (b : string) : string :=
  match a with
  | Some s => if JsText.truthy s then s else b
  | None => b
  end.

Definition newline : string := String (JsText.byte 10) EmptyString.

Definition DEFAULT_CUE_TOPIC : string := "Describe a memorable experience.".

Definition DEFAULT_CUE_CONTENT : string :=
  ("You should say:" ++ newline ++ "- what the experience was" ++ newline
   ++ "- when it happened" ++ newline ++ "- who was involved" ++ newline
   ++ "- and explain why it was memorable")%string.

(** [getCueCard], lines 665-671. *)
Definition getCueCard (test : option GeneratedTest) : CueCard :=
  let part2 :=
    match test with
    | Some t =>
        match speakingParts t with
        | Some parts => find (fun p => (part_number p =? 2)%Z) parts
        | None => None
        end
    | None => None
    end in
  mkCueCard
    (or_else (match part2 with Some p => cue_card_topic p | None => None end)
       DEFAULT_CUE_TOPIC)
    (or_else (match part2 with Some p => cue_card_content p | None => None end)
       DEFAULT_CUE_CONTENT).

(** The names of the phases, as the code writes them. *)
Definition phase_name (p : TestPhase) : string :=
  match p with
  | connecting => "connecting"
  | identity_check => "identity_check"
  | part1_intro => "part1_intro"
  | part1_questions => "part1_questions"
  | part1_question_recording => "part1_question_recording"
  | part2_intro => "part2_intro"
  | part2_prep => "part2_prep"
  | part2_speaking => "part2_speaking"
  | part3_intro => "part3_intro"
  | part3_questions => "part3_questions"
  | part3_question_recording => "part3_question_recording"
  | submitting => "submitting"
  | done => "done"
  end.

(** The word beside the part badge in the header, lines 885-887. *)
Definition header_label (p : TestPhase) : string :=
  if JsText.includes "prep" (phase_name p) then "Preparation"
  else if JsText.includes "speaking" (phase_name p)
          || JsText.includes "questions" (phase_name p)
       then "Speaking"
       else "Transition".

(** ** Practice mode *)

(** [PracticeModelAnswer], lines 33-38; the field names carry a prefix
    where they would clash with those of [PartRecording]. *)
Record PracticeModelAnswer := mkAnswer {
  pm_partNumber : Z;
  pm_question : string;
  pm_modelAnswer : string;
  pm_keyFeatures : list string
}.

(** The state of the practice screen, lines 727-870: the answers loaded,
    the two [useState] cells, and whether the page has navigated away. *)
Record Practice := mkPractice {
  practiceModelAnswers : list PracticeModelAnswer;
  currentPracticeIndex : Z;
  showModelAnswer : bool;
  exited : bool
}.

Inductive PracticeClick :=
| ClickPrevious           (* Previous *)
| ClickForward            (* Next Question, or Back to Results in its place *)
| ClickReveal             (* Reveal Model Answer *)
| ClickHide               (* Hide Answer *)
| ClickExit.              (* Exit Practice *)

(** The screen when it is first shown: the first question, its model
    answer hidden. *)
Definition practice_start (answers : list PracticeModelAnswer) : Practice :=
  mkPractice answers 0%Z false false.

(** [practiceModelAnswers[currentPracticeIndex]]. *)
Definition currentQuestion (p : Practice) : option PracticeModelAnswer :=
  if (currentPracticeIndex p <? 0)%Z then None
  else nth_error (practiceModelAnswers p) (Z.to_nat (currentPracticeIndex p)).

(** One click on the practice screen.  The screen is rendered while there
    are answers and the page has not navigated away; [Previous] is disabled
    at index 0; the forward button is [Next Question] before the last
    question and [Back to Results] on it; the reveal and hide buttons are
    rendered in turn. *)
Definition practice_click (p : Practice) (c : PracticeClick) : Practice :=
  let answers := practiceModelAnswers p in
  let i := currentPracticeIndex p in
  if exited p || negb (0 <? List.length answers)%nat then p
  else
    match c with
    | ClickPrevious =>
        if (i =? 0)%Z then p
        else mkPractice answers (Z.max 0 (i - 1)) false false
    | ClickForward =>
        if (i <? Z.of_nat (List.length answers) - 1)%Z
        then mkPractice answers (i + 1)%Z false false
        else mkPractice answers i (showModelAnswer p) true
    | ClickReveal =>
        if showModelAnswer p then p else mkPractice answers i true false
    | ClickHide =>
        if showModelAnswer p then mkPractice answers i false false else p
    | ClickExit => mkPractice answers i (showModelAnswer p) true
    end.

Definition practice_run (clicks : list PracticeClick) (p : Practice) : Practice :=
  fold_left practice_click clicks p.

(** ** Invariants of the page *)

(** A recording has the four fields every part starts with. *)
Definition complete (r : PartRecording) : bool :=
  match partNumber r, chunks r, startTime r, transcript r with
  | Some _, Some _, Some _, Some _ => true
  | _, _, _, _ => false
  end.

Definition all_complete (o : Recordings) : bool :=
  forallb (fun kv => complete (snd kv)) o.

Definition has_part (k : nat) (o : Recordings) : bool :=
  match obj_get k o with Some _ => true | None => false end.

Definition is_threw (o : Output) : bool :=
  match o with Threw => true | _ => false end.

(** The phases the code ever sets. *)
Definition live_phase (p : TestPhase) : bool :=
  match p with
  | part1_question_recording | part3_question_recording | done => false
  | _ => true
  end.

Definition in_part2 (p : TestPhase) : bool :=
  match p with part2_prep | part2_speaking => true | _ => false end.

(** What a pending [setTimeout] callback relies on. *)
Definition delayed_ok (recs : Recordings) (d : Delayed) : Prop :=
  match d with
  | AfterPart2Intro => has_part 2 recs = true
  | GoPart3 snapshot => all_complete snapshot = true /\ has_part 2 recs = true
  | _ => True
  end.

(** The request bodies among the outputs. *)
Definition invoked (s : State) : list EvalRequest :=
  flat_map (fun o => match o with Invoke body => [body] | _ => [] end)
    (outputs s).

(** The snapshots of the [handleCompleteTest] calls that wait for their
    two seconds. *)
Definition submits (s : State) : list Recordings :=
  flat_map (fun d => match d with ResumeSubmit snap => [snap] | _ => [] end)
    (timeouts s).

Record Sound (s : State) : Prop := mkSound {
  snd_recs : all_complete (partRecordings s) = true;
  snd_phase : live_phase (phase s) = true;
  snd_part2 : in_part2 (phase s) = true ->
      has_part 2 (partRecordings s) = true;
  snd_part : 1 <= currentPart s <= 3;
  snd_time : (0 <= timeLeft s <= 120)%Z;
  snd_total : (0 <= totalTestTime s)%Z;
  snd_ivs : forall iv, In iv (intervals s) ->
      all_complete (iv_recordings iv) = true /\
      (in_part2 (iv_phase iv) = true -> has_part 2 (partRecordings s) = true);
  snd_timeouts : forall d, In d (timeouts s) -> delayed_ok (partRecordings s) d;
  snd_readers : forall r, In r (readers s) ->
      has_part (rd_part r) (partRecordings s) = true;
  snd_threw : existsb is_threw (outputs s) = false;
  snd_invoked : forall body, In body (invoked s) ->
      exists snapshot, body = build_request snapshot;
  snd_gone : unmounted s = true -> In Navigate (outputs s)
}.

(** From [s] to [s'] delays have only been added, at the end. *)
Definition appends (s s' : State) : Prop :=
  exists l, timeouts s' = timeouts s ++ l.

(** ** A session from the start overlay to the request *)

(** [n] ticks of the countdown, one second apart; every tick changes
    [timeLeft], so every tick is the one tick of its own interval. *)
Definition ticks (first : nat) (start : Z) (n : nat) : list Event :=
  map (fun k => Tick (first + k) false (start + 1000 * Z.of_nat (S k))%Z)
    (seq 0 n).

(** Part 1: the candidate speaks, pauses, and goes on to part 2; the audio
    stored by the pause is encoded. *)
Definition session_part1 : list Event :=
  [ClickStart; Connected; ClickContinue 1000; Fire 0 3000;
   MicSettled 0 true true; DataAvailable 4096%Z; ClickToggleRecording;
   ClickNextPart 60000; ReaderLoaded 0 "QUJD" 61000].

(** Part 2: the candidate is ready at once; the capture starts after two
    and a half seconds, and the two minutes of speaking run out. *)
Definition session_part2 : list Event :=
  session_part1
  ++ [Fire 0 64000; ClickReady 64500]
  ++ ticks 2 64500 2
  ++ [Fire 0 67000; MicSettled 0 true true; DataAvailable 512%Z]
  ++ ticks 4 66500 118.

(** Part 3 has begun and the candidate has spoken. *)
Definition session_part3 : list Event :=
  session_part2
  ++ [FireBatched 0 187000; Fire 0 190000; MicSettled 0 true true;
      DataAvailable 256%Z; UserTranscript "hello" true].

(** End Test, and the request goes out two seconds later. *)
Definition session : list Event :=
  session_part3 ++ [ClickEndTest; Fire 0 252000].

End SpeakingTest.

(* ================================================================== *)
(** * Proofs about the audio clip queue *)
(* ================================================================== *)

Module QueueProofs.
Import AudioClipQueue.

Lemma count_snoc p t e :
  count p (t ++ [e]) = count p t + (if p e then 1 else 0).
Proof.
  unfold count. rewrite filter_app, length_app. simpl.
  destruct (p e); reflexivity.
Qed.

Lemma count_zero p t :
  (forall e, In e t -> p e = false) -> count p t = 0.
Proof.
  unfold count. induction t as [|e t IH]; intros H; simpl; [reflexivity|].
  rewrite (H e (or_introl eq_refl)). apply IH. intros e' He'. apply H. now right.
Qed.

Lemma NoDup_map_inj {A B} (g : A -> B) (l : list A) x y :
  NoDup (map g l) -> In x l -> In y l -> g x = g y -> x = y.
Proof.
  induction l as [|a l IH]; simpl; [tauto|].
  intros Hnd Hx Hy Hg. inversion Hnd as [|? ? Hna Hnd']; subst.
  destruct Hx as [->|Hx], Hy as [->|Hy]; auto.
  - exfalso. apply Hna. rewrite Hg. now apply in_map.
  - exfalso. apply Hna. rewrite <- Hg. now apply in_map.
Qed.

Lemma NoDup_map_filter {A B} (g : A -> B) (p : A -> bool) (l : list A) :
  NoDup (map g l) -> NoDup (map g (filter p l)).
Proof.
  induction l as [|a l IH]; simpl; intros H; [constructor|].
  inversion H as [|? ? Hna Hnd]; subst.
  destruct (p a); simpl; auto.
  constructor; auto.
  intros Hin. apply Hna. apply in_map_iff in Hin.
  destruct Hin as [x [Hx Hin]]. apply filter_In in Hin.
  apply in_map_iff. exists x. tauto.
Qed.

Lemma waiting_app u l1 l2 : waiting u (l1 ++ l2) = waiting u l1 + waiting u l2.
Proof. unfold waiting. now rewrite filter_app, length_app. Qed.

Lemma waiting_zero u l :
  (forall f, In f l -> f_url f <> u) -> waiting u l = 0.
Proof.
  unfold waiting. induction l as [|f l IH]; intros H; simpl; [reflexivity|].
  unfold awaits at 1. destruct (Nat.eqb_spec (f_url f) u) as [E|E].
  - exfalso. apply (H f); [now left | assumption].
  - apply IH. intros g Hg. apply H. now right.
Qed.

Lemma waiting_pos u l f : In f l -> f_url f = u -> 1 <= waiting u l.
Proof.
  unfold waiting. induction l as [|g l IH]; simpl; [tauto|].
  intros [->|Hin] Hu.
  - unfold awaits at 1. rewrite Hu, Nat.eqb_refl. simpl. lia.
  - specialize (IH Hin Hu). destruct (awaits u g); simpl; lia.
Qed.

Lemma waiting_drop_same u l :
  waiting u (filter (fun f => negb (awaits u f)) l) = 0.
Proof.
  apply waiting_zero. intros f Hf. apply filter_In in Hf.
  destruct Hf as [_ Hf]. unfold awaits in Hf.
  destruct (Nat.eqb_spec (f_url f) u); [discriminate | assumption].
Qed.

Lemma waiting_drop_other u v l :
  u <> v -> waiting u (filter (fun f => negb (awaits v f)) l) = waiting u l.
Proof.
  intros Hne. unfold waiting, awaits.
  induction l as [|f l IH]; simpl; [reflexivity|].
  destruct (Nat.eqb_spec (f_url f) v) as [E1|E1];
    destruct (Nat.eqb_spec (f_url f) u) as [E2|E2]; simpl;
    try congruence.
  - destruct (Nat.eqb_spec (f_url f) u); simpl; congruence.
  - destruct (Nat.eqb_spec (f_url f) u); simpl; congruence.
Qed.

Lemma find_awaits u l f : find (awaits u) l = Some f -> In f l /\ f_url f = u.
Proof.
  intros H. apply find_some in H. destruct H as [H1 H2].
  unfold awaits in H2. apply Nat.eqb_eq in H2. tauto.
Qed.

Lemma inv_init : Inv init.
Proof.
  constructor; simpl; try tauto; try (now constructor).
  intros u. unfold count, waiting. simpl. lia.
Qed.

Lemma inv_hook h w :
  Inv w -> playSessionRef (hook w) <= playSessionRef h -> Inv (with_hook h w).
Proof.
  intros [H1 H2 H3 H4 H5 H6 H7 H8] Hle.
  constructor; simpl; auto.
  - intros f Hf. specialize (H1 f Hf). lia.
  - intros e He. specialize (H5 e He). lia.
Qed.

Lemma inv_emit_quiet sid idx eff w :
  Inv w -> no_frame sid w -> 1 <= sid <= playSessionRef (hook w) ->
  (forall u, mentions u (mkEvent sid idx eff) = false) ->
  Inv (emit sid idx eff w).
Proof.
  intros [H1 H2 H3 H4 H5 H6 H7 H8] Hnf Hsid Hq.
  constructor; simpl; auto.
  - intros e He. apply in_app_or in He. destruct He as [He|[<-|[]]]; auto.
  - intros e u He Hm. apply in_app_or in He. destruct He as [He|[<-|[]]]; eauto.
    rewrite Hq in Hm. discriminate.
  - intros f e Hf He Hs. apply in_app_or in He. destruct He as [He|[<-|[]]]; eauto.
    simpl in Hs. exfalso. apply (Hnf f Hf). congruence.
  - intros u. specialize (Hq u). unfold mentions in Hq.
    apply orb_false_elim in Hq. destruct Hq as [Hq Hq4].
    apply orb_false_elim in Hq. destruct Hq as [Hq Hq3].
    apply orb_false_elim in Hq. destruct Hq as [Hq1 Hq2].
    rewrite !count_snoc, Hq1, Hq2, Hq3, Hq4, !Nat.add_0_r. apply H8.
Qed.

Lemma mentions_fresh w e u :
  Inv w -> In e (trace w) -> nextUrl w <= u -> mentions u e = false.
Proof.
  intros HI He Hu. destruct (mentions u e) eqn:E; [|reflexivity].
  pose proof (inv_ev_url w HI e u He E). lia.
Qed.

Lemma counts_fresh w u :
  Inv w -> nextUrl w <= u ->
  count (creates u) (trace w) = 0 /\ count (plays u) (trace w) = 0 /\
  count (revokes u) (trace w) = 0 /\ count (settles u) (trace w) = 0.
Proof.
  intros HI Hu.
  assert (H : forall e, In e (trace w) -> mentions u e = false)
    by (intros e He; eapply mentions_fresh; eauto).
  repeat split; apply count_zero; intros e He; specialize (H e He);
    unfold mentions in H;
    repeat (apply orb_false_elim in H; destruct H as [H ?]); auto.
Qed.

Lemma waiting_single u f : waiting u [f] = if f_url f =? u then 1 else 0.
Proof. unfold waiting, awaits. simpl. now destruct (f_url f =? u). Qed.

Lemma inv_start_attempt sid muted retry idx clip rest attempts w :
  Inv w -> no_frame sid w -> 1 <= sid <= playSessionRef (hook w) ->
  events_upto sid idx w ->
  Inv (start_attempt sid muted retry idx clip rest attempts w).
Proof.
  intros HI Hnf Hsid Hup.
  pose proof HI as [H1 H2 H3 H4 H5 H6 H7 H8].
  unfold start_attempt. constructor; simpl.
  - intros f Hf. apply in_app_or in Hf. destruct Hf as [Hf|[<-|[]]]; auto.
  - intros f Hf. apply in_app_or in Hf. destruct Hf as [Hf|[<-|[]]]; simpl;
      [specialize (H2 f Hf); lia | lia].
  - rewrite map_app. simpl. apply NoDup_app; auto.
    + repeat constructor. simpl. tauto.
    + intros x Hx [<-|[]]. apply in_map_iff in Hx.
      destruct Hx as [f [Hf1 Hf2]]. apply (Hnf f Hf2 Hf1).
  - rewrite map_app. simpl. apply NoDup_app; auto.
    + repeat constructor. simpl. tauto.
    + intros x Hx [<-|[]]. apply in_map_iff in Hx.
      destruct Hx as [f [Hf1 Hf2]]. specialize (H2 f Hf2). lia.
  - intros e He. rewrite <- app_assoc in He. apply in_app_or in He.
    destruct He as [He|[<-|[<-|[]]]]; auto.
  - intros e u He Hm. rewrite <- app_assoc in He. apply in_app_or in He.
    destruct He as [He|[<-|[<-|[]]]].
    + specialize (H6 e u He Hm). lia.
    + unfold mentions in Hm. simpl in Hm. rewrite !orb_false_r in Hm.
      apply Nat.eqb_eq in Hm. lia.
    + unfold mentions in Hm. simpl in Hm. rewrite !orb_false_r in Hm.
      apply Nat.eqb_eq in Hm. lia.
  - intros f e Hf He Hs. rewrite <- app_assoc in He.
    apply in_app_or in Hf. apply in_app_or in He.
    destruct Hf as [Hf|[<-|[]]]; destruct He as [He|[<-|[<-|[]]]]; simpl in *; eauto.
    + exfalso. apply (Hnf f Hf). congruence.
    + exfalso. apply (Hnf f Hf). congruence.
  - intros u. rewrite !count_snoc, waiting_app, waiting_single. cbn.
    destruct (Nat.eqb_spec (nextUrl w) u) as [E|E].
    + subst u. destruct (counts_fresh w (nextUrl w) HI (Nat.le_refl _))
        as [C1 [C2 [C3 C4]]].
      rewrite C1, C2, C3, C4. rewrite waiting_zero; [simpl; lia|].
      intros f Hf. specialize (H2 f Hf). lia.
    + simpl. specialize (H8 u). lia.
Qed.

Lemma inv_settled_events w f (ok : bool) :
  Inv w -> In f (pending w) ->
  let u := f_url f in
  let w1 := emit (f_session f) (f_index f) (RevokeUrl u)
              (emit (f_session f) (f_index f)
                 (if ok then AudioEnded u else AudioFailed u) (drop_frame u w)) in
  Inv w1 /\ no_frame (f_session f) w1 /\
  events_upto (f_session f) (f_index f) w1.
Proof.
  intros HI Hin u. pose proof HI as [H1 H2 H3 H4 H5 H6 H7 H8].
  assert (Hu : f_url f = u) by reflexivity. clearbody u.
  assert (Hnf : forall g, In g (filter (fun f => negb (awaits u f)) (pending w)) ->
                          f_session g <> f_session f).
  { intros g Hg Heq. apply filter_In in Hg. destruct Hg as [Hg Hg2].
    assert (g = f) by (apply (NoDup_map_inj f_session (pending w) g f H3 Hg Hin Heq)).
    subst g.
    unfold awaits in Hg2. rewrite Hu, Nat.eqb_refl in Hg2. discriminate. }
  simpl. split; [|split].
  - constructor; simpl.
    + intros g Hg. apply filter_In in Hg. apply H1. tauto.
    + intros g Hg. apply filter_In in Hg. apply H2. tauto.
    + now apply NoDup_map_filter.
    + now apply NoDup_map_filter.
    + intros e He. rewrite <- app_assoc in He. apply in_app_or in He.
      destruct He as [He|[<-|[<-|[]]]]; simpl; auto.
    + intros e v He Hm. rewrite <- app_assoc in He. apply in_app_or in He.
      destruct He as [He|[<-|[<-|[]]]]; eauto.
      * unfold mentions in Hm. destruct ok; simpl in Hm;
          apply Nat.eqb_eq in Hm; subst v; rewrite <- Hu; auto.
      * unfold mentions in Hm. simpl in Hm. rewrite orb_false_r in Hm.
        apply Nat.eqb_eq in Hm; subst v; rewrite <- Hu; auto.
    + intros g e Hg He Hs.
      rewrite <- app_assoc in He. apply in_app_or in He.
      pose proof (Hnf g Hg) as Hne. apply filter_In in Hg. destruct Hg as [Hg _].
      destruct He as [He|[<-|[<-|[]]]]; simpl in *; try congruence.
      exact (H7 g e Hg He Hs).
    + intros v. rewrite !count_snoc.
      destruct (Nat.eqb_spec u v) as [E|E].
      * subst v. rewrite waiting_drop_same.
        pose proof (waiting_pos u (pending w) f Hin Hu) as Hw.
        specialize (H8 u). destruct ok; cbn; rewrite Nat.eqb_refl; lia.
      * rewrite (waiting_drop_other v u) by congruence.
        specialize (H8 v). apply Nat.eqb_neq in E.
        destruct ok; cbn; rewrite E; lia.
  - intros g Hg. simpl in Hg. now apply Hnf.
  - intros e He Hs. simpl in He. rewrite <- app_assoc in He. apply in_app_or in He.
    destruct He as [He|[<-|[<-|[]]]]; simpl; eauto.
Qed.

Lemma inv_visit sid idx k w :
  Inv w -> no_frame sid w -> 1 <= sid <= playSessionRef (hook w) ->
  Inv (setCurrentClipKey (Some k) (emit sid idx (SetCurrentClipKey k) w)).
Proof.
  intros HI Hnf Hs. apply inv_hook; [|simpl; lia].
  apply inv_emit_quiet; auto.
Qed.

Lemma inv_mark_failed sid idx clip w :
  Inv w -> no_frame sid w -> 1 <= sid <= playSessionRef (hook w) ->
  Inv (mark_failed sid idx clip w).
Proof.
  intros HI Hnf Hs. apply inv_hook; [|simpl; lia].
  apply inv_emit_quiet; auto.
Qed.

Lemma inv_finish sid w : Inv w -> Inv (finish sid w).
Proof.
  intros HI. unfold finish. destruct (_ =? _); auto.
  apply inv_hook; [|simpl; lia]. apply inv_hook; [|simpl; lia]. exact HI.
Qed.

Lemma inv_for_loop sid muted retry clips :
  forall idx w,
    Inv w -> no_frame sid w -> 1 <= sid <= playSessionRef (hook w) ->
    events_upto sid idx w ->
    Inv (for_loop sid muted retry idx clips w).
Proof.
  induction clips as [|clip rest IH]; intros idx w HI Hnf Hs Hup; simpl.
  - now apply inv_finish.
  - destruct (playSessionRef (hook w) =? sid); [|now apply inv_finish].
    assert (Hup1 : events_upto sid idx
              (setCurrentClipKey (Some (key clip))
                 (emit sid idx (SetCurrentClipKey (key clip)) w))).
    { intros e He Hse. simpl in He. apply in_app_or in He.
      destruct He as [He|[<-|[]]]; simpl; auto. }
    destruct (0 <=? retry)%Z.
    + apply inv_start_attempt; auto. now apply inv_visit.
    + apply IH.
      * apply inv_mark_failed; auto. now apply inv_visit.
      * exact Hnf.
      * exact Hs.
      * intros e He Hse. simpl in He. apply in_app_or in He.
        destruct He as [He|[<-|[]]]; simpl; [|lia].
        specialize (Hup1 e He Hse). lia.
Qed.

Lemma inv_playClips clips retry muted w : Inv w -> Inv (playClips clips retry muted w).
Proof.
  intros HI. unfold playClips. destruct clips as [|c rest]; [exact HI|].
  apply inv_for_loop.
  - apply inv_hook; [|simpl; lia]. apply inv_hook; [|simpl; lia].
    apply inv_hook; [|simpl; lia]. exact HI.
  - intros f Hf. simpl in Hf. pose proof (inv_sess w HI f Hf). simpl. lia.
  - simpl. lia.
  - intros e He Hse. simpl in He, Hse. pose proof (inv_ev_sess w HI e He). lia.
Qed.

Lemma inv_resume f ok w :
  Inv w -> In f (pending w) -> Inv (resume f ok (drop_frame (f_url f) w)).
Proof.
  intros HI Hin.
  destruct (inv_settled_events w f ok HI Hin) as [HI1 [Hnf Hup]].
  pose proof (inv_sess w HI f Hin) as Hs.
  unfold resume. destruct ok.
  - apply inv_for_loop; auto.
    intros e He Hse. specialize (Hup e He Hse). lia.
  - destruct (_ <=? _)%Z.
    + apply inv_start_attempt; auto.
    + apply inv_for_loop; auto.
      * now apply inv_mark_failed.
      * intros e He Hse. simpl in He. apply in_app_or in He.
        destruct He as [He|[<-|[]]]; simpl; [|lia].
        specialize (Hup e He Hse). lia.
Qed.

Lemma inv_step w a : Inv w -> Inv (step w a).
Proof.
  intros HI. destruct a as [clips r m| |u|u]; simpl.
  - now apply inv_playClips.
  - unfold stop. repeat (apply inv_hook; [|simpl; lia]). exact HI.
  - unfold settle. destruct (find (awaits u) (pending w)) as [f|] eqn:E; auto.
    apply find_awaits in E. destruct E as [Hin <-]. now apply inv_resume.
  - unfold settle. destruct (find (awaits u) (pending w)) as [f|] eqn:E; auto.
    apply find_awaits in E. destruct E as [Hin <-]. now apply inv_resume.
Qed.

Lemma inv_exec acts : forall w, Inv w -> Inv (exec acts w).
Proof.
  induction acts as [|a acts IH]; intros w HI; simpl; auto.
  apply IH. now apply inv_step.
Qed.

Lemma inv_reachable acts : Inv (exec acts init).
Proof. apply inv_exec, inv_init. Qed.

Lemma extends_refl sid w : extends sid w w.
Proof.
  repeat split. exists []. split; [now rewrite app_nil_r | constructor].
Qed.

Lemma extends_trans sid w1 w2 w3 :
  extends sid w1 w2 -> extends sid w2 w3 -> extends sid w1 w3.
Proof.
  intros [A1 [[l1 [B1 C1]] D1]] [A2 [[l2 [B2 C2]] D2]].
  repeat split; try congruence.
  exists (l1 ++ l2). split.
  - now rewrite B2, B1, app_assoc.
  - apply Forall_app. tauto.
Qed.

Lemma extends_hook sid h w :
  playSessionRef h = playSessionRef (hook w) -> extends sid w (with_hook h w).
Proof.
  intros H. repeat split; auto. exists []. simpl.
  split; [now rewrite app_nil_r | constructor].
Qed.

Lemma extends_emit sid idx eff w : extends sid w (emit sid idx eff w).
Proof.
  repeat split. eexists. split; [reflexivity|]. repeat constructor.
Qed.

Lemma others_app sid l1 l2 : others sid (l1 ++ l2) = others sid l1 ++ others sid l2.
Proof. apply filter_app. Qed.

Lemma extends_start_attempt sid muted retry idx clip rest attempts w :
  extends sid w (start_attempt sid muted retry idx clip rest attempts w).
Proof.
  unfold start_attempt. repeat split; simpl.
  - eexists. rewrite <- app_assoc. split; [reflexivity|]. repeat constructor.
  - rewrite others_app. unfold others at 2. simpl. rewrite Nat.eqb_refl. simpl.
    apply app_nil_r.
Qed.

Lemma extends_visit sid idx k w :
  extends sid w (setCurrentClipKey (Some k) (emit sid idx (SetCurrentClipKey k) w)).
Proof.
  eapply extends_trans; [apply extends_emit|]. now apply extends_hook.
Qed.

Lemma extends_mark_failed sid idx clip w : extends sid w (mark_failed sid idx clip w).
Proof.
  eapply extends_trans; [apply extends_emit|]. now apply extends_hook.
Qed.

Lemma extends_finish sid w : extends sid w (finish sid w).
Proof.
  unfold finish. destruct (_ =? _); [|apply extends_refl].
  eapply extends_trans; now apply extends_hook.
Qed.

Lemma extends_for_loop sid muted retry clips :
  forall idx w, extends sid w (for_loop sid muted retry idx clips w).
Proof.
  induction clips as [|clip rest IH]; intros idx w; simpl.
  - apply extends_finish.
  - destruct (_ =? _); [|apply extends_finish].
    destruct (0 <=? retry)%Z.
    + eapply extends_trans; [apply extends_visit | apply extends_start_attempt].
    + eapply extends_trans; [apply extends_visit|].
      eapply extends_trans; [apply extends_mark_failed | apply IH].
Qed.

Lemma for_loop_stale sid muted retry idx clips w :
  playSessionRef (hook w) <> sid -> for_loop sid muted retry idx clips w = w.
Proof.
  intros H. apply Nat.eqb_neq in H.
  destruct clips; simpl; unfold finish; now rewrite H.
Qed.

Lemma filter_filter_implies {A} (p q : A -> bool) (l : list A) :
  (forall x, In x l -> p x = true -> q x = true) ->
  filter p (filter q l) = filter p l.
Proof.
  induction l as [|a l IH]; intros H; simpl; [reflexivity|].
  assert (IH' : filter p (filter q l) = filter p l)
    by (apply IH; intros x Hx; apply H; now right).
  destruct (q a) eqn:Eq; simpl.
  - now rewrite IH'.
  - destruct (p a) eqn:Ep; [|exact IH'].
    rewrite (H a (or_introl eq_refl) Ep) in Eq. discriminate.
Qed.

Lemma extends_drop w f :
  In f (pending w) -> Inv w -> extends (f_session f) w (drop_frame (f_url f) w).
Proof.
  intros Hin HI. repeat split; simpl.
  - exists []. split; [now rewrite app_nil_r | constructor].
  - unfold others. apply filter_filter_implies.
    intros g Hg Hs. unfold awaits.
    destruct (Nat.eqb_spec (f_url g) (f_url f)) as [E|E]; [|reflexivity].
    assert (g = f)
      by (apply (NoDup_map_inj f_url (pending w) g f (inv_nd_url w HI) Hg Hin E)).
    subst g. rewrite Nat.eqb_refl in Hs. discriminate.
Qed.

Lemma extends_resume w f ok :
  In f (pending w) -> Inv w ->
  extends (f_session f) w (resume f ok (drop_frame (f_url f) w)).
Proof.
  intros Hin HI. eapply extends_trans; [now apply extends_drop|].
  unfold resume. destruct ok.
  - eapply extends_trans; [apply extends_emit|].
    eapply extends_trans; [apply extends_emit|]. apply extends_for_loop.
  - eapply extends_trans; [apply extends_emit|].
    eapply extends_trans; [apply extends_emit|].
    destruct (_ <=? _)%Z.
    + apply extends_start_attempt.
    + eapply extends_trans; [apply extends_mark_failed | apply extends_for_loop].
Qed.

(** The events and the suspended call of a run are untouched by the code of
    another run. *)
Lemma extends_run_trace sid sid' w w' :
  extends sid' w w' -> sid <> sid' ->
  run_trace sid (trace w') = run_trace sid (trace w).
Proof.
  intros [_ [[l [Hl Hall]] _]] Hne. unfold run_trace. rewrite Hl, filter_app.
  clear Hl.
  replace (filter (of_run sid) l) with (@nil Event); [now rewrite app_nil_r|].
  symmetry. induction Hall as [|e l He Hall IH]; simpl; [reflexivity|].
  unfold of_run at 1. rewrite He.
  destruct (Nat.eqb_spec sid' sid); [congruence | exact IH].
Qed.

Lemma find_others sid sid' l :
  sid <> sid' ->
  find (fun f => f_session f =? sid) (others sid' l)
  = find (fun f => f_session f =? sid) l.
Proof.
  intros Hne. unfold others. induction l as [|g l IH]; simpl; [reflexivity|].
  destruct (Nat.eqb_spec (f_session g) sid') as [E|E]; simpl.
  - destruct (Nat.eqb_spec (f_session g) sid); [congruence | exact IH].
  - destruct (f_session g =? sid); [reflexivity | exact IH].
Qed.

Lemma extends_frame_of sid sid' w w' :
  extends sid' w w' -> sid <> sid' -> frame_of sid w' = frame_of sid w.
Proof.
  intros [_ [_ Ho]] Hne. unfold frame_of.
  rewrite <- (find_others sid sid' (pending w')) by assumption.
  rewrite <- (find_others sid sid' (pending w)) by assumption.
  now rewrite Ho.
Qed.

Lemma extends_events sid w w' e :
  extends sid w w' -> In e (trace w') -> In e (trace w) \/ ev_session e = sid.
Proof.
  intros [_ [[l [Hl Hall]] _]] He. rewrite Hl in He. apply in_app_or in He.
  destruct He as [He|He]; [now left | right].
  rewrite Forall_forall in Hall. now apply Hall.
Qed.

Lemma extends_frames sid w w' g :
  extends sid w w' -> In g (pending w') -> In g (pending w) \/ f_session g = sid.
Proof.
  intros [_ [_ Ho]] Hg.
  destruct (Nat.eqb_spec (f_session g) sid) as [E|E]; [now right | left].
  assert (In g (others sid (pending w'))).
  { apply filter_In. split; [assumption|].
    apply Nat.eqb_neq in E. now rewrite E. }
  rewrite Ho in H. apply filter_In in H. tauto.
Qed.

(** ** Superseded runs *)

(** Resumed after its session was cancelled, a call stays at the clip it
    was playing: whatever it still does concerns that clip. *)
Lemma resume_stale f ok w :
  playSessionRef (hook w) <> f_session f ->
  let w' := resume f ok w in
  playSessionRef (hook w') = playSessionRef (hook w) /\
  (forall e, In e (trace w') ->
     In e (trace w) \/ (ev_session e = f_session f /\ ev_index e = f_index f)) /\
  (forall g, In g (pending w') ->
     In g (pending w) \/ (f_session g = f_session f /\ f_index g = f_index f)).
Proof.
  intros Hne. unfold resume. destruct ok.
  - rewrite for_loop_stale by (simpl; assumption). simpl. split; [reflexivity|].
    split; [|tauto].
    intros e He. rewrite <- app_assoc in He. apply in_app_or in He.
    destruct He as [He|[<-|[<-|[]]]]; simpl; tauto.
  - destruct (_ <=? _)%Z.
    + unfold start_attempt. simpl. split; [reflexivity|]. split.
      * intros e He. rewrite <- !app_assoc in He. apply in_app_or in He.
        destruct He as [He|[<-|[<-|[<-|[<-|[]]]]]]; simpl; tauto.
      * intros g Hg. apply in_app_or in Hg.
        destruct Hg as [Hg|[<-|[]]]; simpl; tauto.
    + rewrite for_loop_stale by (simpl; assumption). simpl. split; [reflexivity|].
      split; [|tauto].
      intros e He. rewrite <- !app_assoc in He. apply in_app_or in He.
      destruct He as [He|[<-|[<-|[<-|[]]]]]; simpl; tauto.
Qed.

Lemma playClips_cons c rest r m w :
  playClips (c :: rest) r m w
  = for_loop (S (playSessionRef (hook w))) m r 0 (c :: rest) (started w).
Proof. reflexivity. Qed.

Lemma superseded_settle sid i w u ok :
  Inv w -> superseded_at sid i w -> superseded_at sid i (settle u ok w).
Proof.
  intros HI [Hlt [Hev Hfr]]. unfold settle.
  destruct (find (awaits u) (pending w)) as [f|] eqn:E; [|now repeat split].
  apply find_awaits in E. destruct E as [Hin <-].
  destruct (Nat.eq_dec (f_session f) sid) as [Hs|Hs].
  - assert (Hne : playSessionRef (hook (drop_frame (f_url f) w)) <> f_session f)
      by (simpl; lia).
    destruct (resume_stale f ok _ Hne) as [Hc [He Hg]].
    repeat split.
    + rewrite Hc. simpl. lia.
    + intros e Hin' Hse. destruct (He e Hin') as [H|[_ H]].
      * now apply Hev.
      * rewrite H. apply Hfr; assumption.
    + intros g Hin' Hsg. destruct (Hg g Hin') as [H|[_ H]].
      * simpl in H. apply filter_In in H. apply Hfr; tauto.
      * rewrite H. apply Hfr; assumption.
  - pose proof (extends_resume w f ok Hin HI) as Hx. repeat split.
    + destruct Hx as [Hc _]. rewrite Hc. lia.
    + intros e He Hse. destruct (extends_events _ _ _ e Hx He) as [H|H].
      * now apply Hev.
      * congruence.
    + intros g Hg Hsg. destruct (extends_frames _ _ _ g Hx Hg) as [H|H].
      * now apply Hfr.
      * congruence.
Qed.

Lemma superseded_step sid i w a :
  Inv w -> superseded_at sid i w -> superseded_at sid i (step w a).
Proof.
  intros HI [Hlt [Hev Hfr]]. destruct a as [clips r m| |u|u]; simpl.
  - destruct clips as [|c rest]; [now repeat split|].
    rewrite playClips_cons.
    pose proof (extends_for_loop (S (playSessionRef (hook w))) m r (c :: rest) 0
                  (started w)) as Hx.
    repeat split.
    + destruct Hx as [Hc _]. rewrite Hc. simpl. lia.
    + intros e He Hs. destruct (extends_events _ _ _ e Hx He) as [H|H].
      * now apply Hev.
      * lia.
    + intros g Hg Hs. destruct (extends_frames _ _ _ g Hx Hg) as [H|H].
      * now apply Hfr.
      * lia.
  - repeat split; simpl; auto.
  - now apply superseded_settle.
  - now apply superseded_settle.
Qed.

Lemma superseded_exec sid i acts :
  forall w, Inv w -> superseded_at sid i w -> superseded_at sid i (exec acts w).
Proof.
  induction acts as [|a acts IH]; intros w HI HS; simpl; auto.
  apply IH; [now apply inv_step | now apply superseded_step].
Qed.

(** ** Events of one run *)

Lemma count_app p t1 t2 : count p (t1 ++ t2) = count p t1 + count p t2.
Proof. unfold count. now rewrite filter_app, length_app. Qed.

Lemma visits_in_app r1 r2 : visits_in (r1 ++ r2) = visits_in r1 ++ visits_in r2.
Proof. unfold visits_in. now rewrite filter_app, map_app. Qed.

Lemma marked_keys_app r1 r2 : marked_keys (r1 ++ r2) = marked_keys r1 ++ marked_keys r2.
Proof. unfold marked_keys. apply flat_map_app. Qed.

Lemma live_urls_app r1 r2 : live_urls (r1 ++ r2) = fold_left live_step r2 (live_urls r1).
Proof. unfold live_urls. apply fold_left_app. Qed.

Lemma count_at_other j p l rt :
  (forall e, In e l -> ev_index e <> j) ->
  count (at_index j p) (rt ++ l) = count (at_index j p) rt.
Proof.
  intros H. rewrite count_app, (count_zero _ l); [lia|].
  intros e He. unfold at_index. specialize (H e He).
  apply Nat.eqb_neq in H. now rewrite H.
Qed.

Lemma count_at_fresh j p rt k :
  (forall e, In e rt -> ev_index e < k) -> k <= j -> count (at_index j p) rt = 0.
Proof.
  intros H Hk. apply count_zero. intros e He. unfold at_index.
  specialize (H e He). destruct (Nat.eqb_spec (ev_index e) j); [lia | reflexivity].
Qed.

Lemma finalized_other retry rt l j :
  (forall e, In e l -> ev_index e <> j) ->
  finalized retry rt j -> finalized retry (rt ++ l) j.
Proof.
  intros H. unfold finalized, plays_at, ended_at, errors_at, marks_at.
  now rewrite !(count_at_other j _ l rt H).
Qed.

Lemma sequential_nil : sequential [].
Proof. intros b e a H. destruct b; discriminate. Qed.

Lemma snoc_cases {A} (l : list A) : l = [] \/ exists l' x, l = l' ++ [x].
Proof.
  induction l as [|a l IH] using rev_ind; [now left | right].
  now exists l, a.
Qed.

Lemma sequential_snoc rt e :
  sequential rt ->
  (forall e', In e' rt -> ev_index e' <= ev_index e) ->
  (is_create e = true -> live_urls rt = []) ->
  sequential (rt ++ [e]).
Proof.
  intros Hs Hle Hlive before x after Heq.
  destruct (snoc_cases after) as [->|[after' [y ->]]].
  - apply app_inj_tail in Heq. destruct Heq as [-> ->]. split; assumption.
  - rewrite app_comm_cons, app_assoc in Heq. apply app_inj_tail in Heq.
    destruct Heq as [-> _]. exact (Hs before x after' eq_refl).
Qed.
Lemma count_cons p e t : count p (e :: t) = (if p e then 1 else 0) + count p t.
Proof. unfold count. simpl. now destruct (p e). Qed.

Lemma count_nil p : count p [] = 0.
Proof. reflexivity. Qed.

Lemma at_index_mk j p s i eff :
  at_index j p (mkEvent s i eff) = (i =? j) && p (mkEvent s i eff).
Proof. reflexivity. Qed.

Ltac count_new :=
  unfold plays_at, ended_at, errors_at, marks_at;
  rewrite ?count_app, ?count_cons, ?count_nil, ?at_index_mk, ?Nat.eqb_refl;
  cbn [andb is_play is_ended is_error is_mark is_visit ev_effect].

Lemma in3 {A} (x a b c : A) : In x [a; b; c] -> x = a \/ x = b \/ x = c.
Proof. simpl. intuition congruence. Qed.

Lemma in2 {A} (x a b : A) : In x [a; b] -> x = a \/ x = b.
Proof. simpl. intuition congruence. Qed.

(** The run enters the loop body for clip [k] and starts its first attempt. *)
Lemma progress_begin clips retry k rt s c u payload rate vol muted :
  Progress clips retry k None rt ->
  nth_error clips k = Some c -> (0 <= retry)%Z ->
  Progress clips retry (S k)
    (Some (mkFrame s muted retry k c (skipn (S k) clips) 0%Z u))
    (rt ++ [mkEvent s k (SetCurrentClipKey (key c));
            mkEvent s k (CreateUrl u payload rate);
            mkEvent s k (AudioPlay u vol)]).
Proof.
  intros [Hv Hle Hup Hsq Hk [Hfin Hlive]] Hc Hr.
  assert (Hlt : k < List.length clips) by (apply nth_error_Some; congruence).
  constructor.
  - rewrite visits_in_app, Hv, seq_S. reflexivity.
  - lia.
  - intros e He. apply in_app_or in He. destruct He as [He|He].
    + specialize (Hup e He). lia.
    + apply in3 in He. destruct He as [-> | [-> | ->]]; simpl; lia.
  - change (rt ++ [?a; ?b; ?c]) with (rt ++ [a] ++ [b] ++ [c]).
    rewrite !app_assoc.
    repeat apply sequential_snoc; auto; try discriminate.
    + intros e He. specialize (Hup e He). simpl. lia.
    + intros e He. apply in_app_or in He. destruct He as [He|[<-|[]]]; simpl; auto.
      specialize (Hup e He). lia.
    + intros _. rewrite live_urls_app. simpl. exact Hlive.
    + intros e He. rewrite <- app_assoc in He. apply in_app_or in He.
      destruct He as [He|He]; [specialize (Hup e He); simpl; lia|].
      apply in2 in He. destruct He as [-> | ->]; simpl; lia.
  - rewrite marked_keys_app, filter_app, !map_app. simpl.
    now rewrite Hk.
  - split; [reflexivity|]. simpl f_index. simpl f_attempts. simpl f_url.
    split; [|split; [|split]].
    + intros j Hj. apply finalized_other; auto.
      intros e He. apply in3 in He. destruct He as [-> | [-> | ->]]; simpl; lia.
    + unfold in_flight. simpl f_index. simpl f_attempts.
      pose proof (fun p => count_at_fresh k p rt k Hup (Nat.le_refl k)) as Z0.
      count_new. rewrite !Z0. simpl. repeat split; lia.
    + rewrite live_urls_app, Hlive. reflexivity.
    + repeat split. assumption.
Qed.

(** With a negative retry bound the clip is given up without an attempt. *)
Lemma progress_skip clips retry k rt s c :
  Progress clips retry k None rt ->
  nth_error clips k = Some c -> (retry < 0)%Z ->
  Progress clips retry (S k) None
    (rt ++ [mkEvent s k (SetCurrentClipKey (key c));
            mkEvent s k (MarkFailed (key c))]).
Proof.
  intros [Hv Hle Hup Hsq Hk [Hfin Hlive]] Hc Hr.
  assert (Hlt : k < List.length clips) by (apply nth_error_Some; congruence).
  constructor.
  - rewrite visits_in_app, Hv, seq_S. reflexivity.
  - lia.
  - intros e He. apply in_app_or in He. destruct He as [He|He].
    + specialize (Hup e He). lia.
    + apply in2 in He. destruct He as [-> | ->]; simpl; lia.
  - change (rt ++ [?a; ?b]) with (rt ++ [a] ++ [b]).
    rewrite !app_assoc.
    repeat apply sequential_snoc; auto; try discriminate.
    + intros e He. specialize (Hup e He). simpl. lia.
    + intros e He. apply in_app_or in He. destruct He as [He|[<-|[]]]; simpl; auto.
      specialize (Hup e He). lia.
  - rewrite marked_keys_app, filter_app, !map_app. simpl.
    rewrite Hk. unfold key_at. now rewrite Hc.
  - split.
    + intros j Hj. destruct (Nat.eq_dec j k) as [->|Hne].
      * pose proof (fun p => count_at_fresh k p rt k Hup (Nat.le_refl k)) as Z0.
        unfold finalized. count_new. rewrite !Z0. simpl. repeat split; lia.
      * apply finalized_other; [|apply Hfin; lia].
        intros e He. apply in2 in He. destruct He as [-> | ->]; simpl; lia.
    + rewrite live_urls_app, Hlive. reflexivity.
Qed.

(** The attempt under way succeeds. *)
Lemma progress_success clips retry k rt f :
  Progress clips retry k (Some f) rt ->
  Progress clips retry k None
    (rt ++ [mkEvent (f_session f) (f_index f) (AudioEnded (f_url f));
            mkEvent (f_session f) (f_index f) (RevokeUrl (f_url f))]).
Proof.
  intros [Hv Hle Hup Hsq Hk [-> [Hfin [Hfl [Hlive [Hr [Hc Hrest]]]]]]].
  destruct Hfl as [Ha [Hx [Hp [Hs Hm]]]].
  constructor.
  - rewrite visits_in_app, Hv.
    match goal with |- _ ++ ?x = _ => change x with (@nil nat) end.
    apply app_nil_r.
  - exact Hle.
  - intros e He. apply in_app_or in He. destruct He as [He|He]; auto.
    apply in2 in He. destruct He as [-> | ->]; simpl; lia.
  - change (rt ++ [?a; ?b]) with (rt ++ [a] ++ [b]).
    rewrite !app_assoc.
    repeat apply sequential_snoc; auto; try discriminate.
    + intros e He. specialize (Hup e He). simpl. lia.
    + intros e He. apply in_app_or in He. destruct He as [He|[<-|[]]]; simpl; auto.
      specialize (Hup e He). lia.
  - rewrite marked_keys_app, filter_app, !map_app. simpl.
    now rewrite Hk, !app_nil_r.
  - split.
    + intros j Hj. destruct (Nat.eq_dec j (f_index f)) as [->|Hne].
      * unfold finalized. revert Hx Hp Hs Hm. count_new. intros. repeat split; lia.
      * apply finalized_other; [|apply Hfin; lia].
        intros e He. apply in2 in He. destruct He as [-> | ->]; simpl; congruence.
    + rewrite live_urls_app, Hlive. simpl. unfold live_step at 1. simpl.
      destruct (Nat.eq_dec (f_url f) (f_url f)); [reflexivity | congruence].
Qed.

(** The attempt under way fails and another one is started. *)
Lemma progress_retry clips retry k rt f u payload rate vol :
  Progress clips retry k (Some f) rt ->
  (f_attempts f + 1 <= retry)%Z ->
  Progress clips retry k
    (Some (mkFrame (f_session f) (f_muted f) (f_retry f) (f_index f) (f_clip f)
             (f_rest f) (f_attempts f + 1)%Z u))
    (rt ++ [mkEvent (f_session f) (f_index f) (AudioFailed (f_url f));
            mkEvent (f_session f) (f_index f) (RevokeUrl (f_url f));
            mkEvent (f_session f) (f_index f) (CreateUrl u payload rate);
            mkEvent (f_session f) (f_index f) (AudioPlay u vol)]).
Proof.
  intros [Hv Hle Hup Hsq Hk [-> [Hfin [Hfl [Hlive [Hr [Hc Hrest]]]]]]] Hretry.
  destruct Hfl as [Ha [Hx [Hp [Hs Hm]]]].
  assert (Hl2 : live_urls
    (rt ++ [mkEvent (f_session f) (f_index f) (AudioFailed (f_url f));
            mkEvent (f_session f) (f_index f) (RevokeUrl (f_url f))]) = []).
  { rewrite live_urls_app, Hlive. simpl. unfold live_step at 1. simpl.
    destruct (Nat.eq_dec (f_url f) (f_url f)); [reflexivity | congruence]. }
  constructor.
  - rewrite visits_in_app, Hv.
    match goal with |- _ ++ ?x = _ => change x with (@nil nat) end.
    apply app_nil_r.
  - exact Hle.
  - intros e He. apply in_app_or in He. destruct He as [He|He]; auto.
    simpl in He. destruct He as [<-|[<-|[<-|[<-|[]]]]]; simpl; lia.
  - change (rt ++ [?a; ?b; ?c; ?d]) with (rt ++ [a] ++ [b] ++ [c] ++ [d]).
    rewrite !app_assoc.
    repeat apply sequential_snoc; auto; try discriminate.
    + intros e He. specialize (Hup e He). simpl. lia.
    + intros e He. apply in_app_or in He. destruct He as [He|[<-|[]]]; simpl; auto.
      specialize (Hup e He). lia.
    + intros e He. rewrite <- app_assoc in He. apply in_app_or in He.
      destruct He as [He|He]; [specialize (Hup e He); simpl; lia|].
      apply in2 in He. destruct He as [-> | ->]; simpl; lia.
    + intros _. rewrite <- app_assoc. exact Hl2.
    + intros e He. rewrite <- !app_assoc in He. apply in_app_or in He.
      destruct He as [He|He]; [specialize (Hup e He); simpl; lia|].
      apply in3 in He. destruct He as [-> | [-> | ->]]; simpl; lia.
  - rewrite marked_keys_app, filter_app, !map_app. simpl.
    now rewrite Hk, !app_nil_r.
  - split; [reflexivity|]. simpl f_index. simpl f_attempts. simpl f_url.
    simpl f_retry. simpl f_clip. simpl f_rest.
    split; [|split; [|split]].
    + intros j Hj. apply finalized_other; auto.
      intros e He. simpl in He.
      destruct He as [<-|[<-|[<-|[<-|[]]]]]; simpl; lia.
    + unfold in_flight. simpl f_index. simpl f_attempts.
      revert Hx Hp Hs Hm. count_new. intros. repeat split; lia.
    + change (rt ++ [?a; ?b; ?c; ?d]) with (rt ++ [a; b] ++ [c; d]).
      rewrite app_assoc, live_urls_app, Hl2. reflexivity.
    + repeat split; assumption.
Qed.

(** The last attempt fails: the clip is given up. *)
Lemma progress_exhausted clips retry k rt f :
  Progress clips retry k (Some f) rt ->
  ~ (f_attempts f + 1 <= retry)%Z ->
  Progress clips retry k None
    (rt ++ [mkEvent (f_session f) (f_index f) (AudioFailed (f_url f));
            mkEvent (f_session f) (f_index f) (RevokeUrl (f_url f));
            mkEvent (f_session f) (f_index f) (MarkFailed (key (f_clip f)))]).
Proof.
  intros [Hv Hle Hup Hsq Hk [-> [Hfin [Hfl [Hlive [Hr [Hc Hrest]]]]]]] Hretry.
  destruct Hfl as [Ha [Hx [Hp [Hs Hm]]]].
  constructor.
  - rewrite visits_in_app, Hv.
    match goal with |- _ ++ ?x = _ => change x with (@nil nat) end.
    apply app_nil_r.
  - exact Hle.
  - intros e He. apply in_app_or in He. destruct He as [He|He]; auto.
    apply in3 in He. destruct He as [-> | [-> | ->]]; simpl; lia.
  - change (rt ++ [?a; ?b; ?c]) with (rt ++ [a] ++ [b] ++ [c]).
    rewrite !app_assoc.
    repeat apply sequential_snoc; auto; try discriminate.
    + intros e He. specialize (Hup e He). simpl. lia.
    + intros e He. apply in_app_or in He. destruct He as [He|[<-|[]]]; simpl; auto.
      specialize (Hup e He). lia.
    + intros e He. rewrite <- app_assoc in He. apply in_app_or in He.
      destruct He as [He|He]; [specialize (Hup e He); simpl; lia|].
      apply in2 in He. destruct He as [-> | ->]; simpl; lia.
  - rewrite marked_keys_app, filter_app, !map_app. simpl.
    rewrite Hk. unfold key_at. now rewrite Hc.
  - split.
    + intros j Hj. destruct (Nat.eq_dec j (f_index f)) as [->|Hne].
      * unfold finalized. revert Hx Hp Hs Hm. count_new. intros. repeat split; lia.
      * apply finalized_other; [|apply Hfin; lia].
        intros e He. apply in3 in He.
        destruct He as [-> | [-> | ->]]; simpl; congruence.
    + rewrite live_urls_app, Hlive. simpl. unfold live_step at 2. simpl.
      destruct (Nat.eq_dec (f_url f) (f_url f)); [reflexivity | congruence].
Qed.

(** ** One run in the event loop *)

Lemma run_trace_app sid t1 t2 :
  run_trace sid (t1 ++ t2) = run_trace sid t1 ++ run_trace sid t2.
Proof. apply filter_app. Qed.

Lemma run_trace_own sid l :
  Forall (fun e => ev_session e = sid) l -> run_trace sid l = l.
Proof.
  induction 1 as [|e l He Hl IH]; simpl; [reflexivity|].
  unfold of_run. rewrite He, Nat.eqb_refl. now rewrite IH.
Qed.

Lemma frame_of_none sid w : frame_of sid w = None <-> no_frame sid w.
Proof.
  unfold frame_of, no_frame. split.
  - intros H f Hf Hs. apply (find_none _ _ H) in Hf.
    rewrite Hs, Nat.eqb_refl in Hf. discriminate.
  - intros H. destruct (find _ _) as [f|] eqn:E; [|reflexivity].
    apply find_some in E. destruct E as [Hin Hs]. apply Nat.eqb_eq in Hs.
    exfalso. exact (H f Hin Hs).
Qed.

Lemma frame_of_in w f : Inv w -> In f (pending w) -> frame_of (f_session f) w = Some f.
Proof.
  intros HI Hin. unfold frame_of.
  destruct (find _ _) as [g|] eqn:E.
  - apply find_some in E. destruct E as [Hg Hs]. apply Nat.eqb_eq in Hs.
    f_equal. exact (NoDup_map_inj f_session (pending w) g f (inv_nd_sess w HI) Hg Hin Hs).
  - apply (find_none _ _ E) in Hin. rewrite Nat.eqb_refl in Hin. discriminate.
Qed.

Lemma frame_of_some sid w f : frame_of sid w = Some f -> In f (pending w) /\ f_session f = sid.
Proof.
  unfold frame_of. intros H. apply find_some in H.
  destruct H as [H1 H2]. apply Nat.eqb_eq in H2. tauto.
Qed.

Lemma frame_of_new sid f l :
  find (fun g => f_session g =? sid) l = None -> f_session f = sid ->
  find (fun g => f_session g =? sid) (l ++ [f]) = Some f.
Proof.
  intros Hn Hs. induction l as [|g l IH]; simpl in *.
  - now rewrite Hs, Nat.eqb_refl.
  - destruct (f_session g =? sid); [discriminate | now apply IH].
Qed.

Lemma skipn_cons_nth {A} (l : list A) : forall k c r,
  skipn k l = c :: r -> nth_error l k = Some c /\ skipn (S k) l = r.
Proof.
  induction l as [|a l IH]; intros k c r H.
  - destruct k; discriminate.
  - destruct k as [|k]; simpl in H.
    + inversion H. subst. now split.
    + apply IH in H. simpl. exact H.
Qed.

Lemma skipn_nil_length {A} (l : list A) : forall k, skipn k l = [] -> List.length l <= k.
Proof.
  induction l as [|a l IH]; intros k H; simpl; [lia|].
  destruct k as [|k]; [discriminate|]. simpl in H. apply IH in H. lia.
Qed.

Lemma run_state_same sid clips retry w w' :
  playSessionRef (hook w') = playSessionRef (hook w) ->
  pending w' = pending w -> trace w' = trace w ->
  run_state sid clips retry w -> run_state sid clips retry w'.
Proof.
  intros Hc Hp Ht. unfold run_state, frame_of. now rewrite Hc, Hp, Ht.
Qed.

Lemma finish_same sid w :
  playSessionRef (hook (finish sid w)) = playSessionRef (hook w) /\
  pending (finish sid w) = pending w /\ trace (finish sid w) = trace w.
Proof. unfold finish. destruct (_ =? _); simpl; auto. Qed.

Ltac own_trace :=
  rewrite <- ?app_assoc, run_trace_app; cbn [app];
  match goal with
  | |- context [run_trace ?s (?e :: ?l)] =>
      rewrite (run_trace_own s (e :: l)) by (repeat constructor)
  end.

Lemma run_for_loop sid clips retry muted rest :
  forall k w,
    sid <= playSessionRef (hook w) ->
    Progress clips retry k None (run_trace sid (trace w)) ->
    frame_of sid w = None ->
    rest = skipn k clips ->
    run_state sid clips retry (for_loop sid muted retry k rest w).
Proof.
  induction rest as [|c rest IH]; intros k w Hsid HP Hfr Hrest; simpl.
  - destruct (finish_same sid w) as [E1 [E2 E3]].
    apply (run_state_same sid clips retry w); auto.
    split; [assumption|]. exists k. rewrite Hfr. split; [assumption|].
    intros _ _. symmetry in Hrest. apply skipn_nil_length in Hrest.
    pose proof (pg_le _ _ _ _ _ HP). lia.
  - symmetry in Hrest. apply skipn_cons_nth in Hrest. destruct Hrest as [Hc Hrest].
    destruct (Nat.eqb_spec (playSessionRef (hook w)) sid) as [Heq|Hne].
    + destruct (Z.leb_spec 0 retry) as [Hr|Hr].
      * split; [simpl; lia|]. exists (S k).
        unfold start_attempt, frame_of. simpl.
        match goal with |- context [find _ (pending w ++ [?f])] =>
          rewrite (frame_of_new sid f (pending w) Hfr eq_refl) end.
        own_trace.
        split; [|discriminate].
        rewrite <- Hrest. now apply progress_begin.
      * apply IH.
        -- simpl. lia.
        -- simpl. own_trace. now apply progress_skip.
        -- exact Hfr.
        -- now symmetry.
    + destruct (finish_same sid w) as [E1 [E2 E3]].
      apply (run_state_same sid clips retry w); auto.
      split; [assumption|]. exists k. rewrite Hfr. split; [assumption|].
      intros _ Hq. congruence.
Qed.

Lemma frame_of_drop w f :
  Inv w -> In f (pending w) -> frame_of (f_session f) (drop_frame (f_url f) w) = None.
Proof.
  intros HI Hin. apply frame_of_none.
  destruct (inv_settled_events w f true HI Hin) as [_ [H _]]. exact H.
Qed.

Lemma run_resume clips retry w f ok :
  Inv w -> In f (pending w) ->
  run_state (f_session f) clips retry w ->
  run_state (f_session f) clips retry (resume f ok (drop_frame (f_url f) w)).
Proof.
  intros HI Hin [Hsid [k [HP Hdone]]].
  rewrite (frame_of_in w f HI Hin) in HP.
  pose proof (frame_of_drop w f HI Hin) as Hnone.
  pose proof HP as HP'.
  destruct HP' as [_ _ _ _ _ [Hk [_ [_ [_ [Hr [_ Hrest]]]]]]].
  unfold resume. destruct ok.
  - rewrite Hr, Hrest, <- Hk. apply run_for_loop; auto.
    simpl. own_trace. now apply progress_success.
  - destruct (Z.leb_spec (f_attempts f + 1) (f_retry f)) as [Hle|Hgt].
    + split; [simpl; lia|]. exists k.
      unfold start_attempt, frame_of. simpl.
      match goal with |- context [find _ (?l ++ [?g])] =>
        rewrite (frame_of_new (f_session f) g l Hnone eq_refl) end.
      own_trace. split; [|discriminate].
      apply progress_retry; [assumption | lia].
    + rewrite Hr, Hrest, <- Hk. apply run_for_loop; auto.
      simpl. own_trace. apply progress_exhausted; [assumption | lia].
Qed.

Lemma run_other sid sid' clips retry w w' :
  extends sid' w w' -> sid <> sid' ->
  run_state sid clips retry w -> run_state sid clips retry w'.
Proof.
  intros Hx Hne. unfold run_state.
  rewrite (extends_run_trace sid sid' w w' Hx Hne).
  rewrite (extends_frame_of sid sid' w w' Hx Hne).
  destruct Hx as [-> _]. tauto.
Qed.

Lemma run_bump sid clips retry w h :
  sid < playSessionRef h ->
  run_state sid clips retry w -> run_state sid clips retry (with_hook h w).
Proof.
  intros Hlt [Hsid [k [HP Hdone]]]. split; [simpl; lia|]. exists k.
  split; [exact HP|]. intros _ Hq. simpl in Hq. lia.
Qed.

Lemma run_settle sid clips retry w u ok :
  Inv w -> run_state sid clips retry w -> run_state sid clips retry (settle u ok w).
Proof.
  intros HI HR. unfold settle.
  destruct (find (awaits u) (pending w)) as [f|] eqn:E; [|exact HR].
  apply find_awaits in E. destruct E as [Hin <-].
  destruct (Nat.eq_dec (f_session f) sid) as [<-|Hne].
  - now apply run_resume.
  - apply (run_other sid (f_session f) clips retry w); auto.
    now apply extends_resume.
Qed.

Lemma run_step sid clips retry w a :
  Inv w -> run_state sid clips retry w -> run_state sid clips retry (step w a).
Proof.
  intros HI HR. pose proof HR as [Hsid _].
  destruct a as [cl r m| |u|u]; simpl.
  - destruct cl as [|c rest]; [exact HR|]. rewrite playClips_cons.
    apply (run_other sid (S (playSessionRef (hook w))) clips retry (started w)).
    + apply extends_for_loop.
    + lia.
    + unfold started, setFailedClips, setIsSpeaking, bumpSession.
      repeat (apply run_bump; [simpl; lia|]). exact HR.
  - unfold stop, setCurrentClipKey, setIsSpeaking, bumpSession.
    repeat (apply run_bump; [simpl; lia|]). exact HR.
  - now apply run_settle.
  - now apply run_settle.
Qed.

Lemma run_exec sid clips retry acts :
  forall w, Inv w -> run_state sid clips retry w ->
            run_state sid clips retry (exec acts w).
Proof.
  induction acts as [|a acts IH]; intros w HI HR; simpl; auto.
  apply IH; [now apply inv_step | now apply run_step].
Qed.

Lemma progress_nil clips retry : Progress clips retry 0 None [].
Proof.
  constructor; simpl; try tauto; try reflexivity; try lia.
  - apply sequential_nil.
  - split; [intros j Hj; lia | reflexivity].
Qed.

Lemma filter_none {A} (p : A -> bool) (l : list A) :
  (forall x, In x l -> p x = false) -> filter p l = [].
Proof.
  induction l as [|a l IH]; intros H; simpl; [reflexivity|].
  rewrite (H a (or_introl eq_refl)). apply IH. intros x Hx. apply H. now right.
Qed.

Lemma run_trace_fresh sid w :
  Inv w -> playSessionRef (hook w) < sid -> run_trace sid (trace w) = [].
Proof.
  intros HI Hlt. apply filter_none. intros e He.
  pose proof (inv_ev_sess w HI e He). unfold of_run.
  destruct (Nat.eqb_spec (ev_session e) sid); [lia | reflexivity].
Qed.

Lemma run_start clips retry muted w :
  Inv w -> clips <> [] ->
  run_state (S (playSessionRef (hook w))) clips retry (playClips clips retry muted w).
Proof.
  intros HI Hne. destruct clips as [|c rest]; [congruence|].
  rewrite playClips_cons.
  assert (Ht : run_trace (S (playSessionRef (hook w))) (trace w) = [])
    by (apply run_trace_fresh; [assumption | lia]).
  apply run_for_loop.
  - simpl. lia.
  - simpl. rewrite Ht. apply progress_nil.
  - apply frame_of_none. intros f Hf Hs. simpl in Hf.
    pose proof (inv_sess w HI f Hf). lia.
  - reflexivity.
Qed.

(** ** Runs that are not superseded play out *)

Lemma find_awaits_in w f :
  Inv w -> In f (pending w) -> find (awaits (f_url f)) (pending w) = Some f.
Proof.
  intros HI Hin. destruct (find _ _) as [g|] eqn:E.
  - apply find_awaits in E. destruct E as [Hg Hu]. f_equal.
    exact (NoDup_map_inj f_url (pending w) g f (inv_nd_url w HI) Hg Hin Hu).
  - apply (find_none _ _ E) in Hin. unfold awaits in Hin.
    rewrite Nat.eqb_refl in Hin. discriminate.
Qed.

Lemma keeps_session_step w a :
  Inv w -> keeps_session a = true ->
  playSessionRef (hook (step w a)) = playSessionRef (hook w).
Proof.
  intros HI Hk.
  assert (Hs : forall u ok,
             playSessionRef (hook (settle u ok w)) = playSessionRef (hook w)).
  { intros u ok. unfold settle.
    destruct (find (awaits u) (pending w)) as [f|] eqn:E; [|reflexivity].
    apply find_awaits in E. destruct E as [Hin <-].
    now destruct (extends_resume w f ok Hin HI) as [Hc _]. }
  destruct a as [[|c r] ? ?| |u|u]; simpl in *; try discriminate; auto.
Qed.

Lemma keeps_session_exec acts :
  forall w, Inv w -> Forall (fun a => keeps_session a = true) acts ->
            playSessionRef (hook (exec acts w)) = playSessionRef (hook w).
Proof.
  induction acts as [|a acts IH]; intros w HI Hall; simpl; [reflexivity|].
  inversion Hall as [|? ? Ha Hall']; subst.
  rewrite IH by (auto using inv_step). now apply keeps_session_step.
Qed.

Lemma play_out_exec outcome sid fuel :
  forall w, exists acts,
    Forall (fun a => keeps_session a = true) acts /\
    play_out outcome sid fuel w = exec acts w.
Proof.
  induction fuel as [|fuel IH]; intros w; simpl.
  - exists []. split; [constructor | reflexivity].
  - destruct (frame_of sid w) as [f|].
    + destruct (IH (settle (f_url f) (outcome (f_url f)) w)) as [acts [Hall Heq]].
      exists ((if outcome (f_url f) then Ended (f_url f) else Failed (f_url f)) :: acts).
      split.
      * constructor; [now destruct (outcome (f_url f)) | assumption].
      * rewrite Heq. simpl. now destruct (outcome (f_url f)).
    + exists []. split; [constructor | reflexivity].
Qed.

Lemma for_loop_frame sid muted retry clips :
  forall idx w f,
    frame_of sid w = None ->
    frame_of sid (for_loop sid muted retry idx clips w) = Some f ->
    idx <= f_index f /\ f_attempts f = 0%Z.
Proof.
  induction clips as [|c rest IH]; intros idx w f Hnone Hsome; simpl in Hsome.
  - destruct (finish_same sid w) as [_ [E _]]. unfold frame_of in *.
    rewrite E in Hsome. congruence.
  - destruct (playSessionRef (hook w) =? sid).
    + destruct (0 <=? retry)%Z.
      * unfold start_attempt, frame_of in Hsome. simpl in Hsome.
        match type of Hsome with context [find _ (?l ++ [?g])] =>
          rewrite (frame_of_new sid g l Hnone eq_refl) in Hsome end.
        inversion Hsome. simpl. split; [lia | reflexivity].
      * apply IH in Hsome; [|exact Hnone]. split; [lia | tauto].
    + destruct (finish_same sid w) as [_ [E _]]. unfold frame_of in *.
      rewrite E in Hsome. congruence.
Qed.

Lemma settle_less_work sid clips retry w f ok :
  Inv w -> run_state sid clips retry w -> frame_of sid w = Some f ->
  work_left sid (List.length clips) retry (settle (f_url f) ok w)
  < work_left sid (List.length clips) retry w.
Proof.
  intros HI HR Hf.
  pose proof (run_settle sid clips retry w (f_url f) ok HI HR) as HR'.
  destruct (frame_of_some sid w f Hf) as [Hin Hs]. subst sid.
  destruct HR as [_ [k [HP _]]]. rewrite Hf in HP.
  destruct HP as [_ Hle _ _ _ [Hk [_ [[Ha _] [_ [Hr [_ Hrest]]]]]]].
  pose proof (frame_of_drop w f HI Hin) as Hnone.
  unfold work_left at 2. rewrite Hf.
  unfold work_left.
  destruct (frame_of (f_session f) (settle (f_url f) ok w)) as [g|] eqn:Eg; [|nia].
  destruct HR' as [_ [k' [HP' _]]]. rewrite Eg in HP'.
  destruct HP' as [_ Hle' _ _ _ [Hk' _]].
  unfold settle in Eg. rewrite (find_awaits_in w f HI Hin) in Eg.
  assert (Hloop : forall w1, frame_of (f_session f) w1 = None ->
            frame_of (f_session f)
              (for_loop (f_session f) (f_muted f) (f_retry f) (S (f_index f))
                 (f_rest f) w1) = Some g ->
            (List.length clips - S (f_index g)) * S (Z.to_nat retry)
              + Z.to_nat (retry - f_attempts g) + 1
            < (List.length clips - S (f_index f)) * S (Z.to_nat retry)
              + Z.to_nat (retry - f_attempts f) + 1).
  { intros w1 Hn Hg. destruct (for_loop_frame _ _ _ _ _ _ _ Hn Hg) as [Hi Hz].
    rewrite Hz, Z.sub_0_r.
    assert (HA : S (List.length clips - S (f_index g))
                 <= List.length clips - S (f_index f)) by lia.
    apply (Nat.mul_le_mono_r _ _ (S (Z.to_nat retry))) in HA.
    simpl in HA. lia. }
  unfold resume in Eg. destruct ok.
  - apply Hloop in Eg; [exact Eg | exact Hnone].
  - destruct (Z.leb_spec (f_attempts f + 1) (f_retry f)) as [Hlt|Hgt].
    + unfold start_attempt, frame_of in Eg. simpl in Eg.
      match type of Eg with context [find _ (?l ++ [?h])] =>
        rewrite (frame_of_new (f_session f) h l Hnone eq_refl) in Eg end.
      inversion Eg. simpl. rewrite Hr in Hlt.
      apply Nat.add_lt_mono_r, Nat.add_lt_mono_l. lia.
    + apply Hloop in Eg; [exact Eg | exact Hnone].
Qed.

Lemma play_out_returns outcome sid clips retry fuel :
  forall w,
    Inv w -> run_state sid clips retry w ->
    work_left sid (List.length clips) retry w <= fuel ->
    frame_of sid (play_out outcome sid fuel w) = None.
Proof.
  induction fuel as [|fuel IH]; intros w HI HR Hw; simpl.
  - unfold work_left in Hw. destruct (frame_of sid w); [nia | reflexivity].
  - destruct (frame_of sid w) as [f|] eqn:Ef; [|exact Ef].
    apply IH.
    + unfold settle. destruct (find _ _) as [g|] eqn:E; [|assumption].
      apply find_awaits in E. destruct E as [Hin <-]. now apply inv_resume.
    + now apply run_settle.
    + pose proof (settle_less_work sid clips retry w f (outcome (f_url f)) HI HR Ef).
      lia.
Qed.

Lemma work_left_bound sid clips retry w :
  run_state sid clips retry w ->
  work_left sid (List.length clips) retry w <= List.length clips * S (Z.to_nat retry).
Proof.
  intros [_ [k [HP _]]]. unfold work_left.
  destruct (frame_of sid w) as [f|]; [|nia].
  destruct HP as [_ Hle _ _ _ [Hk [_ [[Ha _] _]]]].
  assert (Z.to_nat (retry - f_attempts f) <= Z.to_nat retry) by lia.
  assert (List.length clips = S (List.length clips - S (f_index f)) + f_index f) as E by lia.
  rewrite E at 2. simpl. nia.
Qed.

(** ** The claims about the queue *)

Lemma playClips_session clips retry muted w :
  clips <> [] ->
  playSessionRef (hook (playClips clips retry muted w))
  = S (playSessionRef (hook w)).
Proof.
  intros Hne. destruct clips as [|c rest]; [congruence|].
  rewrite playClips_cons.
  now destruct (extends_for_loop (S (playSessionRef (hook w))) muted retry
                  (c :: rest) 0 (started w)) as [-> _].
Qed.

(** C1. A run over a non-empty clip list that is neither stopped nor
    superseded enters the loop body for the clips at positions 0, 1, 2, ...
    in this order, each once; its events are in list order, and it decodes
    a URL only when every URL it decoded before has been revoked.  Whatever
    the outcome of each attempt, once the audio has played out the run has
    returned, having visited every position of the list, with no URL left
    unrevoked. *)
Theorem playClips_visits_every_clip_in_order :
  forall pre clips retry muted acts outcome,
    clips <> [] ->
    Forall (fun a => keeps_session a = true) acts ->
    let w0 := exec pre init in
    let sid := S (playSessionRef (hook w0)) in
    let w := exec (PlayClips clips retry muted :: acts) w0 in
    let w' := play_out outcome sid (List.length clips * S (Z.to_nat retry)) w in
    (exists k, k <= List.length clips /\ visited sid (trace w) = seq 0 k) /\
    sequential (run_trace sid (trace w)) /\
    frame_of sid w' = None /\
    visited sid (trace w') = seq 0 (List.length clips) /\
    sequential (run_trace sid (trace w')) /\
    live_urls (run_trace sid (trace w')) = [].
Proof.
  intros pre clips retry muted acts outcome Hne Hall w0 sid w w'.
  assert (HI0 : Inv w0) by apply inv_reachable.
  assert (HI1 : Inv (step w0 (PlayClips clips retry muted)))
    by now apply inv_step.
  assert (HR1 : run_state sid clips retry (step w0 (PlayClips clips retry muted)))
    by exact (run_start clips retry muted w0 HI0 Hne).
  assert (HC1 : playSessionRef (hook (step w0 (PlayClips clips retry muted))) = sid)
    by exact (playClips_session clips retry muted w0 Hne).
  assert (HI : Inv w) by now apply inv_exec.
  assert (HR : run_state sid clips retry w)
    by exact (run_exec sid clips retry acts _ HI1 HR1).
  assert (HC : playSessionRef (hook w) = sid).
  { unfold w. simpl. rewrite keeps_session_exec; auto. }
  destruct (play_out_exec outcome sid (List.length clips * S (Z.to_nat retry)) w)
    as [acts' [Hall' Heq]].
  fold w' in Heq.
  assert (HI' : Inv w') by (rewrite Heq; now apply inv_exec).
  assert (HR' : run_state sid clips retry w')
    by (rewrite Heq; exact (run_exec sid clips retry acts' _ HI HR)).
  assert (HC' : playSessionRef (hook w') = sid)
    by (rewrite Heq, keeps_session_exec; auto).
  assert (HN : frame_of sid w' = None).
  { apply (play_out_returns outcome sid clips retry); auto.
    now apply work_left_bound. }
  destruct HR as [_ [k [HP _]]]. destruct HR' as [_ [k' [HP' Hk']]].
  specialize (Hk' HN HC'). subst k'. rewrite HN in HP'.
  split; [|split; [|split; [|split; [|split]]]].
  - exists k. split; [apply (pg_le _ _ _ _ _ HP) | apply (pg_visits _ _ _ _ _ HP)].
  - apply (pg_seq _ _ _ _ _ HP).
  - exact HN.
  - apply (pg_visits _ _ _ _ _ HP').
  - apply (pg_seq _ _ _ _ _ HP').
  - apply (pg_cur _ _ _ _ _ HP').
Qed.

Lemma playClips_visits_every_clip_in_order_witness :
  let w := exec [PlayClips [clipA; clipB] 1%Z false; Failed 0] init in
  let w' := play_out (fun u => 2 <=? u) 1 4 w in
  (exists k, k <= 2 /\ visited 1 (trace w) = seq 0 k) /\
  sequential (run_trace 1 (trace w)) /\
  frame_of 1 w' = None /\
  visited 1 (trace w') = seq 0 2 /\
  sequential (run_trace 1 (trace w')) /\
  live_urls (run_trace 1 (trace w')) = [].
Proof.
  apply (playClips_visits_every_clip_in_order [] [clipA; clipB] 1%Z false
           [Failed 0] (fun u => 2 <=? u)).
  - discriminate.
  - repeat constructor.
Defined.

Lemma progress_clip_facts clips retry k cur rt idx :
  Progress clips retry k cur rt -> (0 <= retry)%Z ->
  (Z.of_nat (plays_at idx rt) <= retry + 1)%Z /\
  marks_at idx rt <= 1 /\
  (marks_at idx rt = 1 <->
     ended_at idx rt = 0 /\ Z.of_nat (errors_at idx rt) = (retry + 1)%Z) /\
  (0 < ended_at idx rt -> marks_at idx rt = 0).
Proof.
  intros [_ _ Hup _ _ Hcur] Hr.
  assert (Hfinal : finalized retry rt idx ->
    (Z.of_nat (plays_at idx rt) <= retry + 1)%Z /\
    marks_at idx rt <= 1 /\
    (marks_at idx rt = 1 <->
       ended_at idx rt = 0 /\ Z.of_nat (errors_at idx rt) = (retry + 1)%Z) /\
    (0 < ended_at idx rt -> marks_at idx rt = 0)).
  { intros [H1 [H2 [H3 H4]]]. rewrite Z.max_r in H3, H4 by lia.
    repeat split; try lia. }
  destruct (Nat.lt_ge_cases idx k) as [Hlt|Hge].
  - destruct cur as [f|].
    + destruct Hcur as [Hk [Hfin [[Ha [Hx [Hp [Hs Hm]]]] _]]].
      destruct (Nat.eq_dec idx (f_index f)) as [->|Hne].
      * repeat split; lia.
      * apply Hfinal, Hfin. lia.
    + destruct Hcur as [Hfin _]. now apply Hfinal, Hfin.
  - pose proof (fun p => count_at_fresh idx p rt k Hup Hge) as Z0.
    unfold plays_at, marks_at, ended_at, errors_at. rewrite !Z0.
    repeat split; lia.
Qed.

Lemma appended_snoc sid t e :
  appended sid (t ++ [e])
  = appended sid t
    ++ (if of_run sid e
        then match ev_effect e with MarkFailed k => [k] | _ => [] end
        else []).
Proof.
  unfold appended. rewrite run_trace_app, marked_keys_app. f_equal.
  simpl. destruct (of_run sid e); simpl; [apply app_nil_r | reflexivity].
Qed.

Lemma synced_for_loop sid muted retry clips :
  forall idx w, synced sid w -> synced sid (for_loop sid muted retry idx clips w).
Proof.
  assert (Hfin : forall w, synced sid w -> synced sid (finish sid w)).
  { intros w H. unfold finish. destruct (_ =? _); exact H. }
  induction clips as [|c rest IH]; intros idx w H; simpl; [now apply Hfin|].
  destruct (_ =? _); [|now apply Hfin].
  assert (Hv : synced sid (setCurrentClipKey (Some (key c))
                 (emit sid idx (SetCurrentClipKey (key c)) w))).
  { unfold synced. simpl. rewrite appended_snoc. simpl.
    unfold of_run. simpl. rewrite ?Nat.eqb_refl, ?app_nil_r. exact H. }
  destruct (0 <=? retry)%Z.
  - unfold synced, start_attempt. simpl. rewrite !appended_snoc. simpl.
    unfold of_run. simpl. rewrite ?Nat.eqb_refl, ?app_nil_r. exact H.
  - apply IH. unfold synced, mark_failed. simpl.
    rewrite !appended_snoc. simpl. unfold of_run. simpl.
    rewrite Nat.eqb_refl, app_nil_r. f_equal. exact H.
Qed.

Lemma synced_resume f ok w :
  synced (f_session f) w -> synced (f_session f) (resume f ok w).
Proof.
  intros H. unfold resume.
  assert (Hev : forall eff1,
            (match eff1 with MarkFailed _ => False | _ => True end) ->
            synced (f_session f)
              (emit (f_session f) (f_index f) (RevokeUrl (f_url f))
                 (emit (f_session f) (f_index f) eff1 w))).
  { intros eff1 Hq. unfold synced. simpl. rewrite !appended_snoc. simpl.
    unfold of_run. simpl. rewrite Nat.eqb_refl, !app_nil_r.
    destruct eff1; try contradiction; now rewrite app_nil_r. }
  destruct ok.
  - apply synced_for_loop, Hev. exact I.
  - specialize (Hev (AudioFailed (f_url f)) I).
    destruct (_ <=? _)%Z.
    + unfold synced, start_attempt in *. simpl in *. rewrite !appended_snoc. simpl.
      unfold of_run. simpl. rewrite Nat.eqb_refl, !app_nil_r. exact H.
    + apply synced_for_loop. unfold synced, mark_failed in *. simpl in *.
      rewrite appended_snoc. simpl. unfold of_run at 1. simpl.
      rewrite Nat.eqb_refl. f_equal. exact Hev.
Qed.

Lemma solo_synced_step sid w a :
  Inv w -> keeps_session a = true ->
  solo sid w /\ synced sid w -> solo sid (step w a) /\ synced sid (step w a).
Proof.
  intros HI Hk [Hso Hsy].
  assert (Hs : forall u ok, solo sid (settle u ok w) /\ synced sid (settle u ok w)).
  { intros u ok. unfold settle.
    destruct (find (awaits u) (pending w)) as [f|] eqn:E; [|now split].
    apply find_awaits in E. destruct E as [Hin <-].
    pose proof (Hso f Hin) as Hf. split.
    - intros g Hg.
      destruct (extends_frames _ _ _ g (extends_resume w f ok Hin HI) Hg) as [H|H].
      + now apply Hso.
      + congruence.
    - rewrite <- Hf. apply synced_resume. rewrite Hf. exact Hsy. }
  destruct a as [[|c r] ? ?| |u|u]; simpl in *; try discriminate; auto.
Qed.

Lemma solo_synced_exec sid acts :
  forall w, Inv w -> Forall (fun a => keeps_session a = true) acts ->
    solo sid w /\ synced sid w ->
    solo sid (exec acts w) /\ synced sid (exec acts w).
Proof.
  induction acts as [|a acts IH]; intros w HI Hall H; simpl; [exact H|].
  inversion Hall as [|? ? Ha Hall']; subst.
  apply IH; [now apply inv_step | assumption | now apply solo_synced_step].
Qed.

Lemma solo_synced_start clips retry muted w :
  Inv w -> pending w = [] -> clips <> [] ->
  let sid := S (playSessionRef (hook w)) in
  solo sid (playClips clips retry muted w) /\
  synced sid (playClips clips retry muted w).
Proof.
  intros HI Hp Hne sid. destruct clips as [|c rest]; [congruence|].
  rewrite playClips_cons. fold sid. split.
  - intros g Hg.
    destruct (extends_frames _ _ _ g
                (extends_for_loop sid muted retry (c :: rest) 0 (started w)) Hg)
      as [H|H]; [|exact H].
    simpl in H. rewrite Hp in H. contradiction.
  - apply synced_for_loop. unfold synced, appended. simpl.
    rewrite (run_trace_fresh sid w HI); [reflexivity | unfold sid; lia].
Qed.

Lemma marks_at_count rt idx :
  count_occ Nat.eq_dec (map ev_index (filter is_mark rt)) idx = marks_at idx rt.
Proof.
  unfold marks_at, count, at_index. induction rt as [|e rt IH]; simpl; [reflexivity|].
  destruct (is_mark e) eqn:Em; simpl.
  - rewrite IH. destruct (Nat.eq_dec (ev_index e) idx) as [E|E].
    + rewrite E, Nat.eqb_refl. reflexivity.
    + apply Nat.eqb_neq in E. rewrite E. reflexivity.
  - rewrite andb_false_r. exact IH.
Qed.

Lemma key_at_inj clips i j c :
  NoDup (map key clips) -> nth_error clips i = Some c ->
  key_at clips j = Some (key c) -> j = i.
Proof.
  intros Hnd Hi Hj. unfold key_at in Hj.
  rewrite <- nth_error_map in Hj.
  assert (Hi' : nth_error (map key clips) i = Some (key c))
    by (rewrite nth_error_map, Hi; reflexivity).
  rewrite NoDup_nth_error in Hnd. apply Hnd.
  - apply nth_error_Some. congruence.
  - congruence.
Qed.

Lemma count_keys clips idx c :
  NoDup (map key clips) -> nth_error clips idx = Some c ->
  forall idxs ks,
    map Some ks = map (key_at clips) idxs ->
    count_occ string_dec ks (key c) = count_occ Nat.eq_dec idxs idx.
Proof.
  intros Hnd Hc. induction idxs as [|j idxs IH]; intros ks Hmap.
  - destruct ks; [reflexivity | discriminate].
  - destruct ks as [|k ks]; [discriminate|]. simpl in Hmap.
    injection Hmap as Hk Hrest. simpl.
    rewrite (IH ks Hrest).
    destruct (string_dec k (key c)) as [E|E];
      destruct (Nat.eq_dec j idx) as [E'|E']; try reflexivity.
    + exfalso. apply E'. apply (key_at_inj clips idx j c Hnd Hc). congruence.
    + exfalso. apply E. subst j. unfold key_at in Hk. rewrite Hc in Hk.
      simpl in Hk. congruence.
Qed.

(** What holds of one run.  With a retry bound [retry >= 0], in every
    interleaving with stops and other runs: a run makes at most
    [retry + 1] playback attempts for each clip; it appends a clip to [failedClips] at most once, and exactly
    when no attempt succeeded and all [retry + 1] attempts failed; it never
    appends a clip one of whose attempts succeeded; each appended key is the
    key of the clip given up.  When no earlier call is still suspended at
    the start and the run is not superseded, [failedClips], emptied at the
    start, holds exactly what the run appended: with distinct keys, the key
    of a clip occurs in it once if the clip was given up and not at all
    otherwise. *)
Theorem playClips_retry_bound_and_failed_record :
  forall pre clips retry muted acts idx,
    (0 <= retry)%Z -> clips <> [] ->
    let w0 := exec pre init in
    let sid := S (playSessionRef (hook w0)) in
    let w := exec (PlayClips clips retry muted :: acts) w0 in
    (Z.of_nat (attempts_of sid idx (trace w)) <= retry + 1)%Z /\
    marks_of sid idx (trace w) <= 1 /\
    (marks_of sid idx (trace w) = 1 <->
       successes_of sid idx (trace w) = 0 /\
       Z.of_nat (failures_of sid idx (trace w)) = (retry + 1)%Z) /\
    (0 < successes_of sid idx (trace w) -> marks_of sid idx (trace w) = 0) /\
    map Some (appended sid (trace w))
      = map (key_at clips)
          (map ev_index (filter is_mark (run_trace sid (trace w)))) /\
    (pending w0 = [] -> Forall (fun a => keeps_session a = true) acts ->
       failedClips (hook w) = appended sid (trace w) /\
       (NoDup (map key clips) ->
        forall c, nth_error clips idx = Some c ->
          count_occ string_dec (failedClips (hook w)) (key c)
          = marks_of sid idx (trace w))).
Proof.
  intros pre clips retry muted acts idx Hr Hne w0 sid w.
  assert (HI0 : Inv w0) by apply inv_reachable.
  assert (HI1 : Inv (step w0 (PlayClips clips retry muted)))
    by now apply inv_step.
  assert (HR1 : run_state sid clips retry (step w0 (PlayClips clips retry muted)))
    by exact (run_start clips retry muted w0 HI0 Hne).
  assert (HR : run_state sid clips retry w)
    by exact (run_exec sid clips retry acts _ HI1 HR1).
  destruct HR as [_ [k [HP _]]].
  destruct (progress_clip_facts clips retry k _ _ idx HP Hr) as [F1 [F2 [F3 F4]]].
  pose proof (pg_keys _ _ _ _ _ HP) as HK.
  split; [exact F1|]. split; [exact F2|]. split; [exact F3|].
  split; [exact F4|]. split; [exact HK|].
  intros Hp Hk.
  destruct (solo_synced_start clips retry muted w0 HI0 Hp Hne) as [S1 S2].
  destruct (solo_synced_exec sid acts _ HI1 Hk (conj S1 S2)) as [_ S3].
  change (failedClips (hook w) = appended sid (trace w)) in S3.
  split; [exact S3|].
  intros Hnd c Hc. rewrite S3.
  unfold marks_of. rewrite <- marks_at_count.
  now apply (count_keys clips idx c Hnd Hc).
Qed.

Lemma playClips_retry_bound_and_failed_record_witness :
  let w := exec [PlayClips [clipA; clipB] 1%Z false;
                 Failed 0; Failed 1; Ended 2] init in
  (Z.of_nat (attempts_of 1 0 (trace w)) <= 1 + 1)%Z /\
  marks_of 1 0 (trace w) <= 1 /\
  (marks_of 1 0 (trace w) = 1 <->
     successes_of 1 0 (trace w) = 0 /\
     Z.of_nat (failures_of 1 0 (trace w)) = (1 + 1)%Z) /\
  (0 < successes_of 1 0 (trace w) -> marks_of 1 0 (trace w) = 0) /\
  map Some (appended 1 (trace w))
    = map (key_at [clipA; clipB])
        (map ev_index (filter is_mark (run_trace 1 (trace w)))) /\
  (pending init = [] ->
   Forall (fun a => keeps_session a = true) [Failed 0; Failed 1; Ended 2] ->
     failedClips (hook w) = appended 1 (trace w) /\
     (NoDup (map key [clipA; clipB]) ->
      forall c, nth_error [clipA; clipB] 0 = Some c ->
        count_occ string_dec (failedClips (hook w)) (key c)
        = marks_of 1 0 (trace w))).
Proof.
  apply (playClips_retry_bound_and_failed_record [] [clipA; clipB] 1%Z false
           [Failed 0; Failed 1; Ended 2] 0).
  - lia.
  - discriminate.
Defined.

Lemma at_most_one_per_session (l : list Frame) c :
  NoDup (map f_session l) ->
  List.length (filter (fun f => f_session f =? c) l) <= 1.
Proof.
  induction l as [|f l IH]; simpl; intros Hnd; [lia|].
  inversion Hnd as [|? ? Hni Hnd']; subst. specialize (IH Hnd').
  destruct (Nat.eqb_spec (f_session f) c) as [E|E]; [|exact IH].
  simpl. rewrite (filter_none _ l); [simpl; lia|].
  intros g Hg. destruct (Nat.eqb_spec (f_session g) c) as [E'|E']; [|reflexivity].
  exfalso. apply Hni. rewrite E, <- E'. now apply in_map.
Qed.

Lemma superseded_by_playClips w f clips retry muted :
  Inv w -> In f (pending w) -> clips <> [] ->
  superseded_at (f_session f) (f_index f) (playClips clips retry muted w).
Proof.
  intros HI Hin Hne. pose proof (inv_sess w HI f Hin) as Hs.
  split; [rewrite playClips_session by assumption; lia|].
  destruct clips as [|c rest]; [congruence|]. rewrite playClips_cons.
  pose proof (extends_for_loop (S (playSessionRef (hook w))) muted retry
                (c :: rest) 0 (started w)) as Hx.
  split.
  - intros e He Hse. destruct (extends_events _ _ _ e Hx He) as [H|H].
    + exact (inv_dom w HI f e Hin H Hse).
    + lia.
  - intros g Hg Hsg. destruct (extends_frames _ _ _ g Hx Hg) as [H|H].
    + simpl in H.
      rewrite (NoDup_map_inj f_session (pending w) g f (inv_nd_sess w HI) H Hin Hsg).
      lia.
    + lia.
Qed.

(** C3. A [playClips] call with a non-empty list made while a call [f] of
    an earlier run is suspended at its clip of position [f_index f]
    supersedes that run: whatever happens afterwards, the earlier run does
    nothing for a clip at a later position (it neither visits, decodes nor
    plays one).  At every moment at most one suspended call carries the
    current value of the session counter. *)
Theorem second_playClips_supersedes_first :
  forall pre f clips retry muted post,
    let w := exec pre init in
    In f (pending w) -> clips <> [] ->
    let w2 := exec (PlayClips clips retry muted :: post) w in
    (forall e, In e (trace w2) -> ev_session e = f_session f ->
               ev_index e <= f_index f) /\
    (forall g, In g (pending w2) -> f_session g = f_session f ->
               f_index g <= f_index f /\ active w2 g = false) /\
    (forall acts,
       List.length (filter (active (exec acts init)) (pending (exec acts init))) <= 1).
Proof.
  intros pre f clips retry muted post w Hin Hne w2.
  assert (HI : Inv w) by apply inv_reachable.
  assert (HI1 : Inv (step w (PlayClips clips retry muted))) by now apply inv_step.
  assert (HS1 : superseded_at (f_session f) (f_index f)
                  (step w (PlayClips clips retry muted)))
    by now apply superseded_by_playClips.
  assert (HS2 : superseded_at (f_session f) (f_index f) w2)
    by exact (superseded_exec _ _ post _ HI1 HS1).
  destruct HS2 as [Hlt [Hev Hfr]].
  split; [exact Hev|]. split.
  - intros g Hg Hs. split; [now apply Hfr|].
    unfold active. apply Nat.eqb_neq. lia.
  - intros acts. unfold active.
    apply at_most_one_per_session, inv_nd_sess, inv_reachable.
Qed.

Lemma second_playClips_supersedes_first_witness :
  let f := mkFrame 1 false 1%Z 0 clipA [clipB] 0%Z 0 in
  let w := exec [PlayClips [clipA; clipB] 1%Z false] init in
  let w2 := exec (PlayClips [clipB] 1%Z false :: [Ended 0; Ended 1]) w in
  (forall e, In e (trace w2) -> ev_session e = f_session f ->
             ev_index e <= f_index f) /\
  (forall g, In g (pending w2) -> f_session g = f_session f ->
             f_index g <= f_index f /\ active w2 g = false) /\
  (forall acts,
     List.length (filter (active (exec acts init)) (pending (exec acts init))) <= 1).
Proof.
  apply (second_playClips_supersedes_first
           [PlayClips [clipA; clipB] 1%Z false]
           (mkFrame 1 false 1%Z 0 clipA [clipB] 0%Z 0)
           [clipB] 1%Z false [Ended 0; Ended 1]).
  - left. reflexivity.
  - discriminate.
Defined.

(** C4. [stop], called while the call [f] of the current run is suspended
    at its clip of position [f_index f], sets [isSpeaking] to false and
    [currentClipKey] to null at once; whatever happens afterwards, that run
    does nothing for a clip at a later position, and any call of it still
    suspended is no longer current. *)
Theorem stop_prevents_later_clips :
  forall pre f post,
    let w := exec pre init in
    In f (pending w) -> active w f = true ->
    let w1 := step w Stop in
    let w2 := exec post w1 in
    isSpeaking (hook w1) = false /\
    currentClipKey (hook w1) = None /\
    (forall e, In e (trace w2) -> ev_session e = f_session f ->
               ev_index e <= f_index f) /\
    (forall g, In g (pending w2) -> f_session g = f_session f ->
               f_index g <= f_index f /\ active w2 g = false).
Proof.
  intros pre f post w Hin Hact w1 w2.
  assert (HI : Inv w) by apply inv_reachable.
  assert (HI1 : Inv w1) by now apply inv_step.
  unfold active in Hact. apply Nat.eqb_eq in Hact.
  assert (HS1 : superseded_at (f_session f) (f_index f) w1).
  { split; [simpl; lia|]. split.
    - intros e He Hs. exact (inv_dom w HI f e Hin He Hs).
    - intros g Hg Hs. simpl in Hg.
      rewrite (NoDup_map_inj f_session (pending w) g f (inv_nd_sess w HI) Hg Hin Hs).
      lia. }
  assert (HS2 : superseded_at (f_session f) (f_index f) w2)
    by exact (superseded_exec _ _ post _ HI1 HS1).
  destruct HS2 as [Hlt [Hev Hfr]].
  split; [reflexivity|]. split; [reflexivity|]. split; [exact Hev|].
  intros g Hg Hs. split; [now apply Hfr|].
  unfold active. apply Nat.eqb_neq. lia.
Qed.

Lemma stop_prevents_later_clips_witness :
  let f := mkFrame 1 false 1%Z 0 clipA [clipB] 0%Z 0 in
  let w := exec [PlayClips [clipA; clipB] 1%Z false] init in
  let w1 := step w Stop in
  let w2 := exec [Failed 0; Failed 1] w1 in
  isSpeaking (hook w1) = false /\
  currentClipKey (hook w1) = None /\
  (forall e, In e (trace w2) -> ev_session e = f_session f ->
             ev_index e <= f_index f) /\
  (forall g, In g (pending w2) -> f_session g = f_session f ->
             f_index g <= f_index f /\ active w2 g = false).
Proof.
  apply (stop_prevents_later_clips
           [PlayClips [clipA; clipB] 1%Z false]
           (mkFrame 1 false 1%Z 0 clipA [clipB] 0%Z 0)
           [Failed 0; Failed 1]).
  - left. reflexivity.
  - reflexivity.
Defined.

Lemma resume_trace f ok w :
  exists l,
    trace (resume f ok w)
    = trace w
      ++ [mkEvent (f_session f) (f_index f)
            (if ok then AudioEnded (f_url f) else AudioFailed (f_url f));
          mkEvent (f_session f) (f_index f) (RevokeUrl (f_url f))]
      ++ l.
Proof.
  unfold resume.
  assert (H : forall w1 w2 : World,
            extends (f_session f) w1 w2 -> forall t x y,
            trace w1 = (t ++ [x]) ++ [y] ->
            exists l, trace w2 = t ++ [x; y] ++ l).
  { intros w1 w2 [_ [[l [Hl _]] _]] t x y Ht. exists l.
    rewrite Hl, Ht, <- !app_assoc. reflexivity. }
  destruct ok.
  - eapply H; [apply extends_for_loop | reflexivity].
  - destruct (_ <=? _)%Z.
    + eapply H; [apply extends_start_attempt | reflexivity].
    + match goal with |- context [mark_failed _ _ _ ?w1] => apply (H w1) end;
        [|reflexivity].
      eapply extends_trans; [apply extends_mark_failed | apply extends_for_loop].
Qed.

(** C6. In every interleaving of calls, stops and audio outcomes: a URL is
    decoded at most once and played exactly as often as it is decoded, so
    every attempt has a URL of its own; a URL is revoked as often as its
    attempt has settled; a URL no call awaits has been revoked exactly as
    often as it was decoded, that is once per attempt; and a URL some call
    still awaits was decoded once, is not yet revoked, and is revoked once,
    whichever way its audio settles and whether or not its run is still
    current. *)
Theorem every_attempt_url_is_released :
  forall acts u,
    let w := exec acts init in
    count (creates u) (trace w) <= 1 /\
    count (plays u) (trace w) = count (creates u) (trace w) /\
    count (settles u) (trace w) = count (revokes u) (trace w) /\
    (waiting u (pending w) = 0 ->
       count (revokes u) (trace w) = count (creates u) (trace w)) /\
    (waiting u (pending w) <> 0 ->
       count (creates u) (trace w) = 1 /\
       count (revokes u) (trace w) = 0 /\
       forall ok,
         count (creates u) (trace (settle u ok w)) = 1 /\
         count (revokes u) (trace (settle u ok w)) = 1 /\
         waiting u (pending (settle u ok w)) = 0).
Proof.
  intros acts u w.
  assert (HI : Inv w) by apply inv_reachable.
  destruct (inv_acct w HI u) as [A1 [A2 [A3 A4]]].
  split; [exact A1|]. split; [exact A2|]. split; [exact A3|].
  split; [intros Hw; lia|].
  intros Hw. split; [lia|]. split; [lia|].
  intros ok.
  assert (HI' : Inv (settle u ok w))
    by (destruct ok; [exact (inv_step w (Ended u) HI)
                     | exact (inv_step w (Failed u) HI)]).
  destruct (inv_acct _ HI' u) as [B1 [B2 [B3 B4]]].
  assert (HR : 1 <= count (revokes u) (trace (settle u ok w))).
  { unfold settle. destruct (find (awaits u) (pending w)) as [f|] eqn:E.
    - apply find_awaits in E. destruct E as [Hin <-].
      destruct (resume_trace f ok (drop_frame (f_url f) w)) as [l Hl].
      rewrite Hl, !count_app, !count_cons. simpl.
      unfold revokes at 3. simpl. rewrite Nat.eqb_refl. lia.
    - exfalso. apply Hw. apply waiting_zero. intros f Hf Hu.
      apply (find_none _ _ E) in Hf. unfold awaits in Hf.
      rewrite Hu, Nat.eqb_refl in Hf. discriminate. }
  lia.
Qed.

Lemma every_attempt_url_is_released_check :
  let w := exec [PlayClips [clipA] 1%Z false; Stop] init in
  waiting 0 (pending w) = 1 /\
  count (revokes 0) (trace (settle 0 false w)) = 1 /\
  count (revokes 0) (trace (settle 0 true w)) = 1.
Proof. repeat split. Qed.

(** C10. [playClips] called with an empty list changes nothing: the hook's
    state (session counter included), the suspended calls and the trace are
    as before, and whatever follows runs as if the call had not been
    made. *)
Theorem playClips_empty_is_noop :
  forall w retryCount muted acts,
    playClips [] retryCount muted w = w /\
    isSpeaking (hook (playClips [] retryCount muted w)) = isSpeaking (hook w) /\
    currentClipKey (hook (playClips [] retryCount muted w)) = currentClipKey (hook w) /\
    failedClips (hook (playClips [] retryCount muted w)) = failedClips (hook w) /\
    playSessionRef (hook (playClips [] retryCount muted w)) = playSessionRef (hook w) /\
    pending (playClips [] retryCount muted w) = pending w /\
    exec (PlayClips [] retryCount muted :: acts) w = exec acts w.
Proof. intros. repeat split. Qed.

(** The scenario of the spec: [a] fails on every attempt, [b] succeeds,
    with the default retry bound. *)
Example scenario_a_fails_b_succeeds :
  let w := exec [PlayClips [clipA; clipB] DEFAULT_RETRY_COUNT false;
                 Failed 0; Failed 1; Ended 2] init in
  failedClips (hook w) = ["a"] /\
  attempts_of 1 1 (trace w) = 1 /\
  isSpeaking (hook w) = false /\
  currentClipKey (hook w) = None /\
  pending w = [].
Proof. repeat split. Qed.

(** C5 fails on the code.  [playClips [a] 1], then [stop ()], then the
    audio of the first attempt fails: the cancelled run, resumed inside its
    [while] loop, decodes and plays the clip a second time (URL 1), and is
    suspended again although the session counter has moved on.  The URL of
    the abandoned attempt has been revoked. *)
Theorem cancelled_run_retries_its_clip :
  let w := exec [PlayClips [clipA] 1%Z false; Stop; Failed 0] init in
  playSessionRef (hook w) = 2 /\
  attempts_of 1 0 (trace w) = 2 /\
  frame_of 1 w = Some (mkFrame 1 false 1%Z 0 clipA [] 1%Z 1) /\
  count (revokes 0) (trace w) = 1 /\
  trace w
  = [mkEvent 1 0 (SetCurrentClipKey "a");
     mkEvent 1 0 (CreateUrl 0 "AAAA" 24000%Z);
     mkEvent 1 0 (AudioPlay 0 1%Z);
     mkEvent 1 0 (AudioFailed 0);
     mkEvent 1 0 (RevokeUrl 0);
     mkEvent 1 0 (CreateUrl 1 "AAAA" 24000%Z);
     mkEvent 1 0 (AudioPlay 1 1%Z)].
Proof. repeat split. Qed.

(** The same after a superseding call, and the stale run then records its
    clip in the [failedClips] of the run that superseded it. *)
Lemma superseded_run_retries_and_records :
  let w := exec [PlayClips [clipA] 1%Z false; PlayClips [clipB] 1%Z false;
                 Failed 0; Failed 2; Ended 1] init in
  playSessionRef (hook w) = 2 /\
  attempts_of 1 0 (trace w) = 2 /\
  successes_of 2 0 (trace w) = 1 /\
  failedClips (hook w) = ["a"] /\
  pending w = [].
Proof. repeat split. Qed.

(** C2 fails on the code.  [playClips [a] 1] is called twice, the second
    call while the first attempt of the first plays.  The second call
    empties [failedClips] (line 29) and plays [a], which ends normally: one
    attempt, one success, and the run itself records nothing.  Meanwhile
    both attempts of the superseded first run fail, and that run appends
    the key (lines 59-62, which no test of the session counter guards) to
    the record the second call had emptied: [failedClips] of the current
    run ends as [["a"]], for a clip that succeeded on its first attempt. *)
Theorem superseded_run_marks_a_clip_that_succeeded :
  let calls := [PlayClips [clipA] 1%Z false; PlayClips [clipA] 1%Z false] in
  let w := exec (calls ++ [Failed 0; Failed 2; Ended 1]) init in
  failedClips (hook (exec calls init)) = [] /\
  playSessionRef (hook w) = 2 /\
  attempts_of 2 0 (trace w) = 1 /\
  successes_of 2 0 (trace w) = 1 /\
  failures_of 2 0 (trace w) = 0 /\
  marks_of 2 0 (trace w) = 0 /\
  appended 2 (trace w) = [] /\
  appended 1 (trace w) = ["a"] /\
  failedClips (hook w) = ["a"] /\
  pending w = [] /\ isSpeaking (hook w) = false.
Proof. repeat split. Qed.

(** The same with no retries at all: the one attempt of the superseded run
    fails, and its key lands in the record of the run that superseded it. *)
Lemma superseded_run_marks_without_retry :
  let w := exec [PlayClips [clipA] 0%Z false; PlayClips [clipA] 0%Z false;
                 Failed 0; Ended 1] init in
  attempts_of 1 0 (trace w) = 1 /\
  successes_of 2 0 (trace w) = 1 /\
  failedClips (hook w) = ["a"] /\
  pending w = [].
Proof. repeat split. Qed.

(** ** More about the queue *)

Lemma flags_start_attempt sid muted retry idx clip rest attempts w :
  playSessionRef (hook w) = sid -> frame_of sid w = None ->
  isSpeaking (hook w) = true -> currentClipKey (hook w) = Some (key clip) ->
  flags_mirror (start_attempt sid muted retry idx clip rest attempts w).
Proof.
  intros Hc Hn Hs Hk. unfold flags_mirror, current_attempt, frame_of, start_attempt.
  cbn. rewrite Hc. unfold frame_of in Hn.
  rewrite (frame_of_new sid (mkFrame sid muted retry idx clip rest attempts (nextUrl w))
             _ Hn eq_refl). cbn. auto.
Qed.

Lemma flags_for_loop sid muted retry clips :
  forall idx w,
    playSessionRef (hook w) = sid -> frame_of sid w = None ->
    isSpeaking (hook w) = true ->
    flags_mirror (for_loop sid muted retry idx clips w).
Proof.
  induction clips as [|c rest IH]; intros idx w Hc Hn Hs; cbn [for_loop].
  - unfold finish. rewrite Hc, Nat.eqb_refl.
    unfold flags_mirror, current_attempt. cbn. rewrite Hc.
    unfold frame_of in *. cbn. rewrite Hn. auto.
  - rewrite Hc, Nat.eqb_refl. destruct (0 <=? retry)%Z.
    + apply flags_start_attempt; auto.
    + apply IH; auto.
Qed.

Lemma stale_hook f ok w :
  playSessionRef (hook w) <> f_session f ->
  isSpeaking (hook (resume f ok w)) = isSpeaking (hook w) /\
  currentClipKey (hook (resume f ok w)) = currentClipKey (hook w).
Proof.
  intros Hne. unfold resume. destruct ok.
  - rewrite for_loop_stale by (cbn; auto). cbn. auto.
  - destruct (_ <=? _)%Z.
    + cbn. auto.
    + rewrite for_loop_stale by (cbn; auto). cbn. auto.
Qed.

Lemma flags_settle u ok w : Inv w -> flags_mirror w -> flags_mirror (settle u ok w).
Proof.
  intros HI HF. unfold settle.
  destruct (find (awaits u) (pending w)) as [f|] eqn:E; [|exact HF].
  apply find_awaits in E. destruct E as [Hin <-].
  destruct (Nat.eq_dec (f_session f) (playSessionRef (hook w))) as [Heq|Hne].
  - (* the current run goes on *)
    unfold flags_mirror, current_attempt in HF.
    rewrite <- Heq, (frame_of_in w f HI Hin) in HF. destruct HF as [Hs Hk].
    pose proof (frame_of_drop w f HI Hin) as Hd.
    unfold resume. destruct ok.
    + apply flags_for_loop; auto.
    + destruct (_ <=? _)%Z.
      * apply flags_start_attempt; auto.
      * apply flags_for_loop; auto.
  - (* a stale run goes on *)
    pose proof (extends_resume w f ok Hin HI) as Hx.
    destruct (stale_hook f ok (drop_frame (f_url f) w)) as [Hs Hk];
      [cbn; auto|].
    unfold flags_mirror, current_attempt in *.
    destruct Hx as [Hc Hx']. pose proof (conj Hc Hx') as Hx.
    rewrite Hc, (extends_frame_of _ _ _ _ Hx) by auto.
    rewrite Hs, Hk. exact HF.
Qed.

Lemma flags_step w a : Inv w -> flags_mirror w -> flags_mirror (step w a).
Proof.
  intros HI HF. destruct a as [clips r m| |u|u]; cbn [step].
  - destruct clips as [|c rest]; [exact HF|].
    rewrite playClips_cons. apply flags_for_loop; auto.
    apply frame_of_none. intros f Hf. cbn in Hf.
    pose proof (inv_sess w HI f Hf). lia.
  - unfold flags_mirror, current_attempt.
    replace (frame_of _ (stop w)) with (@None Frame); [cbn; auto|].
    symmetry. apply frame_of_none. intros f Hf. cbn in Hf.
    pose proof (inv_sess w HI f Hf). cbn. lia.
  - now apply flags_settle.
  - now apply flags_settle.
Qed.

Lemma flags_reachable acts : flags_mirror (exec acts init).
Proof.
  assert (H : forall w, Inv w -> flags_mirror w -> flags_mirror (exec acts w)).
  { induction acts as [|a acts IH]; intros w HI HF; [exact HF|].
    cbn. apply IH; [now apply inv_step | now apply flags_step]. }
  apply (H init inv_init). unfold flags_mirror. cbn. auto.
Qed.

(** X1. In every interleaving of calls, stops and audio outcomes:
    [isSpeaking] is true exactly while a call of the current run (the one
    whose session id is the counter's value) awaits an attempt, and
    [currentClipKey] is then the key of the clip of that attempt; at every
    other moment [isSpeaking] is false and [currentClipKey] is null.  What
    a stopped or superseded run still does never shows in the two. *)
Theorem speaking_flags_mirror_current_attempt :
  forall acts,
    let w := exec acts init in
    match frame_of (playSessionRef (hook w)) w with
    | Some f => isSpeaking (hook w) = true /\
                currentClipKey (hook w) = Some (key (f_clip f))
    | None => isSpeaking (hook w) = false /\ currentClipKey (hook w) = None
    end.
Proof. intros acts. apply flags_reachable. Qed.

Lemma grows_refl sid clips retry muted w : grows_ok sid clips retry muted w w.
Proof. split; auto. Qed.

Lemma grows_trans sid clips retry muted w1 w2 w3 :
  grows_ok sid clips retry muted w1 w2 -> grows_ok sid clips retry muted w2 w3 ->
  grows_ok sid clips retry muted w1 w3.
Proof.
  intros [A1 A2] [B1 B2]. split.
  - intros e He. destruct (B1 e He) as [H|H]; auto.
  - intros g Hg. destruct (B2 g Hg) as [H|H]; auto.
Qed.

Lemma grows_emit sid clips retry muted idx eff w :
  event_ok clips muted (mkEvent sid idx eff) ->
  grows_ok sid clips retry muted w (emit sid idx eff w).
Proof.
  intros Hok. split; [|auto]. cbn. intros e He.
  apply in_app_or in He. destruct He as [He|[<-|[]]]; auto.
Qed.

Lemma grows_hook sid clips retry muted h w :
  grows_ok sid clips retry muted w (with_hook h w).
Proof. split; auto. Qed.

Lemma grows_start_attempt sid clips retry muted idx clip rest attempts w :
  nth_error clips idx = Some clip -> rest = skipn (S idx) clips ->
  grows_ok sid clips retry muted w
    (start_attempt sid muted retry idx clip rest attempts w).
Proof.
  intros Hn Hr. split; cbn.
  - intros e He. rewrite <- app_assoc in He. apply in_app_or in He.
    destruct He as [He|[<-|[<-|[]]]];
      [auto | right; split; [reflexivity|cbn; exists clip; auto]
      | right; split; reflexivity].
  - intros g Hg. apply in_app_or in Hg. destruct Hg as [Hg|[<-|[]]]; auto.
    right. repeat split; auto.
Qed.

Lemma grows_visit sid clips retry muted idx clip w :
  nth_error clips idx = Some clip ->
  grows_ok sid clips retry muted w
    (setCurrentClipKey (Some (key clip))
       (emit sid idx (SetCurrentClipKey (key clip)) w)).
Proof.
  intros Hn. eapply grows_trans; [apply grows_emit|apply grows_hook].
  cbn. unfold key_at. now rewrite Hn.
Qed.

Lemma grows_mark_failed sid clips retry muted idx clip w :
  nth_error clips idx = Some clip ->
  grows_ok sid clips retry muted w (mark_failed sid idx clip w).
Proof.
  intros Hn. eapply grows_trans; [apply grows_emit|apply grows_hook].
  cbn. unfold key_at. now rewrite Hn.
Qed.

Lemma grows_finish sid clips retry muted w :
  grows_ok sid clips retry muted w (finish sid w).
Proof. unfold finish. destruct (_ =? _); split; auto. Qed.

Lemma grows_for_loop sid clips retry muted rest :
  forall idx w,
    rest = skipn idx clips ->
    grows_ok sid clips retry muted w (for_loop sid muted retry idx rest w).
Proof.
  induction rest as [|c rest IH]; intros idx w Hr; cbn [for_loop].
  - apply grows_finish.
  - symmetry in Hr. apply skipn_cons_nth in Hr. destruct Hr as [Hn Hr].
    destruct (_ =? _); [|apply grows_finish].
    eapply grows_trans; [apply (grows_visit sid clips retry muted idx c w Hn)|].
    destruct (0 <=? retry)%Z.
    + apply grows_start_attempt; auto.
    + eapply grows_trans; [apply grows_mark_failed; eauto|].
      apply IH. auto.
Qed.

Lemma grows_emit2 sid clips retry muted idx e1 e2 w :
  event_ok clips muted (mkEvent sid idx e1) ->
  event_ok clips muted (mkEvent sid idx e2) ->
  grows_ok sid clips retry muted w (emit sid idx e2 (emit sid idx e1 w)).
Proof.
  intros H1 H2.
  apply (grows_trans _ _ _ _ _ (emit sid idx e1 w)); now apply grows_emit.
Qed.

Lemma grows_resume clips retry muted f ok w :
  frame_ok clips retry muted f ->
  grows_ok (f_session f) clips retry muted w (resume f ok w).
Proof.
  intros [Hm [Hr [Hn Hs]]]. unfold resume. rewrite Hm, Hr.
  destruct ok.
  - match goal with |- grows_ok _ _ _ _ _ (for_loop _ _ _ _ _ ?w1) =>
      apply (grows_trans _ _ _ _ _ w1) end.
    + now apply grows_emit2.
    + now apply grows_for_loop.
  - match goal with |- context [emit ?s ?i ?e2 (emit ?s ?i ?e1 w)] =>
      apply (grows_trans _ _ _ _ _ (emit s i e2 (emit s i e1 w)));
        [now apply grows_emit2|] end.
    destruct (_ <=? _)%Z.
    + now apply grows_start_attempt.
    + eapply grows_trans; [apply grows_mark_failed; eauto|].
      now apply grows_for_loop.
Qed.

Lemma counter_step w a :
  Inv w -> playSessionRef (hook w) <= playSessionRef (hook (step w a)).
Proof.
  intros HI. destruct (keeps_session a) eqn:K.
  - rewrite keeps_session_step; auto.
  - destruct a as [[|c r] x m| | |]; try discriminate.
    + cbn [step]. rewrite playClips_session; [lia|discriminate].
    + cbn. lia.
Qed.

Lemma params_step sid clips retry muted w a :
  Inv w -> sid <= playSessionRef (hook w) ->
  params_ok sid clips retry muted w ->
  params_ok sid clips retry muted (step w a).
Proof.
  intros HI Hle [HE HF].
  assert (Hothers : forall sid' w0 w',
            trace w0 = trace w -> pending w0 = pending w ->
            extends sid' w0 w' -> sid <> sid' ->
            params_ok sid clips retry muted w').
  { intros sid' w0 w' Ht Hp Hx Hne. split.
    - intros e He Hs. destruct (extends_events _ _ _ _ Hx He) as [H|H];
        [rewrite Ht in H; auto | congruence].
    - intros g Hg Hs. destruct (extends_frames _ _ _ _ Hx Hg) as [H|H];
        [rewrite Hp in H; auto | congruence]. }
  assert (Hsettle : forall u ok, params_ok sid clips retry muted (settle u ok w)).
  { intros u ok. unfold settle.
    destruct (find (awaits u) (pending w)) as [f|] eqn:E; [|split; auto].
    apply find_awaits in E. destruct E as [Hin <-].
    destruct (Nat.eq_dec sid (f_session f)) as [->|Hne].
    - destruct (grows_resume clips retry muted f ok (drop_frame (f_url f) w))
        as [G1 G2]; [auto|].
      split.
      + intros e He Hs. destruct (G1 e He) as [H|[_ H]]; auto.
      + intros g Hg Hs. destruct (G2 g Hg) as [H|[_ H]]; auto.
        cbn in H. apply filter_In in H. apply HF; tauto.
    - apply (Hothers (f_session f) w); auto. now apply extends_resume. }
  destruct a as [cl r m| |u|u]; cbn [step]; auto.
  - destruct cl as [|c rest]; [split; auto|].
    rewrite playClips_cons.
    apply (Hothers (S (playSessionRef (hook w))) (started w)); auto; [|lia].
    apply extends_for_loop.
  - split; auto.
Qed.

Lemma params_exec sid clips retry muted acts :
  forall w, Inv w -> sid <= playSessionRef (hook w) ->
            params_ok sid clips retry muted w ->
            params_ok sid clips retry muted (exec acts w).
Proof.
  induction acts as [|a acts IH]; intros w HI Hle HP; [exact HP|].
  cbn. apply IH; [now apply inv_step| |now apply params_step].
  pose proof (counter_step w a HI). lia.
Qed.

Lemma params_start clips retry muted w :
  Inv w -> clips <> [] ->
  params_ok (S (playSessionRef (hook w))) clips retry muted
    (playClips clips retry muted w).
Proof.
  intros HI Hne. destruct clips as [|c rest]; [congruence|].
  rewrite playClips_cons.
  destruct (grows_for_loop (S (playSessionRef (hook w))) (c :: rest) retry muted
              (c :: rest) 0 (started w) eq_refl) as [G1 G2].
  split.
  - intros e He Hs. destruct (G1 e He) as [H|[_ H]]; auto.
    cbn in H. pose proof (inv_ev_sess w HI e H). lia.
  - intros g Hg Hs. destruct (G2 g Hg) as [H|[_ H]]; auto.
    cbn in H. pose proof (inv_sess w HI g H). lia.
Qed.

(** X2. Whatever is called or happens after a [playClips] call with a
    non-empty list, every event of the run it started fits the arguments of
    that call: the key shown or given up is the key of the clip at that
    position of the list, each attempt decodes the payload of that clip at
    the clip's sample rate, or at 24000 when it has none, and plays it at
    volume 0 when the hook was muted at the call and at volume 1 otherwise,
    on every retry as well. *)
Theorem attempts_use_the_arguments_of_their_call :
  forall pre clips retry muted post e,
    clips <> [] ->
    let w0 := exec pre init in
    let sid := S (playSessionRef (hook w0)) in
    let w := exec (PlayClips clips retry muted :: post) w0 in
    In e (trace w) -> ev_session e = sid ->
    match ev_effect e with
    | SetCurrentClipKey k | MarkFailed k => key_at clips (ev_index e) = Some k
    | CreateUrl _ payload rate =>
        exists clip, nth_error clips (ev_index e) = Some clip /\
          payload = audioBase64 clip /\
          rate = match sampleRate clip with Some r => r | None => 24000%Z end
    | AudioPlay _ volume => volume = if muted then 0%Z else 1%Z
    | _ => True
    end.
Proof.
  intros pre clips retry muted post e Hne w0 sid w He Hs.
  assert (HI0 : Inv w0) by apply inv_reachable.
  assert (HP : params_ok sid clips retry muted w).
  { unfold w. cbn [exec fold_left]. apply params_exec.
    - now apply inv_step.
    - cbn [step]. rewrite playClips_session by auto. unfold sid. lia.
    - now apply params_start. }
  exact (proj1 HP e He Hs).
Qed.

Lemma attempts_use_the_arguments_of_their_call_witness :
  let w := exec [PlayClips [clipA; clipB] 1%Z true; Failed 0; Stop; Failed 1] init in
  In (mkEvent 1 0 (AudioPlay 1 0%Z)) (trace w) /\
  0%Z = (if true then 0%Z else 1%Z).
Proof.
  split.
  - cbn. auto 10.
  - apply (attempts_use_the_arguments_of_their_call [] [clipA; clipB] 1%Z true
             [Failed 0; Stop; Failed 1] (mkEvent 1 0 (AudioPlay 1 0%Z))).
    + discriminate.
    + cbn. auto 10.
    + reflexivity.
Defined.

(** X4. The session counter is the number of [stop] calls and of
    [playClips] calls with a non-empty list made so far: each of them
    raises it by one, a settling audio element or a call with an empty
    list never changes it, so no two runs share a session id. *)
Theorem session_counter_counts_calls :
  forall acts,
    playSessionRef (hook (exec acts init))
    = List.length (filter (fun a => negb (keeps_session a)) acts).
Proof.
  intros acts.
  assert (H : forall w, Inv w ->
            playSessionRef (hook (exec acts w))
            = playSessionRef (hook w)
              + List.length (filter (fun a => negb (keeps_session a)) acts)).
  { induction acts as [|a acts IH]; intros w HI; [cbn; lia|].
    cbn [exec fold_left filter]. fold (exec acts (step w a)).
    rewrite IH by now apply inv_step.
    destruct (keeps_session a) eqn:K; cbn [negb].
    - rewrite keeps_session_step; auto.
    - destruct a as [[|c r] x m| | |]; try discriminate; cbn [step List.length].
      + rewrite playClips_session; [lia|discriminate].
      + cbn. lia. }
  now rewrite (H init inv_init).
Qed.

Lemma give_up_all sid muted retry :
  (retry < 0)%Z ->
  forall clips idx w,
    playSessionRef (hook w) = sid ->
    let w' := for_loop sid muted retry idx clips w in
    failedClips (hook w') = failedClips (hook w) ++ map key clips /\
    isSpeaking (hook w') = false /\ currentClipKey (hook w') = None /\
    pending w' = pending w /\ nextUrl w' = nextUrl w /\
    count is_create (trace w') = count is_create (trace w) /\
    count is_play (trace w') = count is_play (trace w).
Proof.
  intros Hr. induction clips as [|c rest IH]; intros idx w Hc; cbn [for_loop].
  - unfold finish. rewrite Hc, Nat.eqb_refl. cbn. rewrite app_nil_r. auto 10.
  - rewrite Hc, Nat.eqb_refl.
    replace (0 <=? retry)%Z with false by (symmetry; apply Z.leb_gt; lia).
    match goal with |- context [for_loop _ _ _ _ _ ?w1] =>
      specialize (IH (S idx) w1 Hc); cbv zeta in IH;
      destruct IH as [A [B [C [D [E [F G]]]]]] end.
    cbv zeta. rewrite A, B, C, D, E, F, G.
    unfold mark_failed, setFailedClips, setCurrentClipKey, emit, with_hook.
    cbn [hook failedClips pending nextUrl trace].
    rewrite !count_app, <- app_assoc. cbn. repeat split; lia.
Qed.

(** X3. With a negative [retryCount] the [while] loop is never entered:
    [playClips] returns at once, having decoded and played nothing, with
    every key of the list in [failedClips], in list order, [isSpeaking]
    false and [currentClipKey] null; no call is left suspended. *)
Theorem negative_retry_gives_up_every_clip :
  forall clips retry muted w,
    clips <> [] -> (retry < 0)%Z ->
    let w' := playClips clips retry muted w in
    failedClips (hook w') = map key clips /\
    isSpeaking (hook w') = false /\
    currentClipKey (hook w') = None /\
    playSessionRef (hook w') = S (playSessionRef (hook w)) /\
    pending w' = pending w /\
    nextUrl w' = nextUrl w /\
    count is_create (trace w') = count is_create (trace w) /\
    count is_play (trace w') = count is_play (trace w).
Proof.
  intros clips retry muted w Hne Hr w'.
  assert (Hs : playSessionRef (hook w') = S (playSessionRef (hook w)))
    by now apply playClips_session.
  unfold w' in *. destruct clips as [|c rest]; [congruence|].
  rewrite playClips_cons in *.
  destruct (give_up_all (S (playSessionRef (hook w))) muted retry Hr (c :: rest)
              0 (started w) eq_refl) as [A [B [C [D [E [F G]]]]]].
  repeat split; auto.
Qed.

Lemma negative_retry_gives_up_every_clip_witness :
  let w' := playClips [clipA; clipB] (-1)%Z false init in
  failedClips (hook w') = ["a"; "b"] /\
  isSpeaking (hook w') = false /\
  currentClipKey (hook w') = None /\
  playSessionRef (hook w') = 1 /\
  pending w' = [] /\
  nextUrl w' = 0 /\
  count is_create (trace w') = 0 /\
  count is_play (trace w') = 0.
Proof.
  apply (negative_retry_gives_up_every_clip [clipA; clipB] (-1)%Z false init).
  - discriminate.
  - lia.
Defined.

End QueueProofs.

(* ================================================================== *)
(** * Proofs about the clip indicator *)
(* ================================================================== *)

Module IndicatorProofs.
Import Ascii JsText ClipIndicator.
Local Open Scope string_scope.

Lemma digit_cases c :
  is_digit c = true ->
  In c ["0"; "1"; "2"; "3"; "4"; "5"; "6"; "7"; "8"; "9"]%char.
Proof.
  destruct c as [[] [] [] [] [] [] [] []]; cbn; intros H;
    try discriminate; auto 11.
Qed.

Lemma digits_no_terminator s :
  all_digits s = true -> has_line_terminator s = false.
Proof.
  induction s as [|c s IH]; [reflexivity|].
  cbn [all_digits]. intros H. apply andb_true_iff in H. destruct H as [Hc Hs].
  cbn [has_line_terminator]. rewrite (IH Hs).
  apply digit_cases in Hc. cbn in Hc.
  repeat (destruct Hc as [<-|Hc]; [reflexivity|]). destruct Hc.
Qed.

Lemma all_digits_of_uint u :
  all_digits (DecimalString.NilEmpty.string_of_uint u) = true.
Proof. induction u; cbn; auto. Qed.

Lemma digits_of_all n : all_digits (digits_of n) = true.
Proof. apply all_digits_of_uint. Qed.

Lemma digits_of_value n :
  DecimalString.NilEmpty.uint_of_string (digits_of n) = Some (N.to_uint n).
Proof. apply DecimalString.NilEmpty.usu. Qed.

Lemma digits_of_truthy n : truthy (digits_of n) = true.
Proof.
  pose proof (digits_of_value n) as H.
  destruct (digits_of n); [|reflexivity].
  cbn in H. inversion H as [E].
  pose proof (DecimalN.Unsigned.of_to n) as O. rewrite <- E in O. cbn in O.
  subst n. discriminate.
Qed.

Lemma parseInt10_digits_of n :
  (n < 2 ^ 53)%N -> parseInt10 (digits_of n) = Some (Z.of_N n).
Proof.
  intros Hn. unfold parseInt10. rewrite digits_of_value.
  rewrite DecimalN.Unsigned.of_to.
  replace (Z.of_N n <? 2 ^ 53)%Z with true; [reflexivity|].
  symmetry. apply Z.ltb_lt. change (2 ^ 53)%Z with (Z.of_N (2 ^ 53)). lia.
Qed.

Lemma toString_of_N n : toString (Z.of_N n) = digits_of n.
Proof. destruct n; reflexivity. Qed.

Lemma label_is_kept t : formatClipKey ("Part " ++ t) = Some ("Part " ++ t).
Proof. reflexivity. Qed.

Lemma question_rest_is_no_name digits :
  ("q:" ++ digits =? "intro") = false /\
  ("q:" ++ digits =? "prep_over") = false /\
  ("q:" ++ digits =? "stop") = false.
Proof. repeat split. Qed.

(** X5. A clip key [p<d>:q:<n>], with [d] one decimal digit and [n] a
    question index below 2^53 in decimal, is shown as
    [Part <d> - Question <n+1>] (with an en dash): questions are numbered
    from one, the index is read back exactly and printed without leading
    zeros. *)
Theorem question_clips_are_numbered_from_one :
  forall d n,
    is_digit d = true -> (n < 2 ^ 53)%N ->
    formatClipKey ("p" ++ String d (":q:" ++ digits_of n))
    = Some ("Part " ++ String d (" – Question " ++ digits_of (n + 1))).
Proof.
  intros d n Hd Hn.
  unfold formatClipKey.
  change (prefix "id:" ("p" ++ String d (":q:" ++ digits_of n))) with false.
  cbn iota.
  assert (Hm : match_part ("p" ++ String d (":q:" ++ digits_of n))
               = Some (d, "q:" ++ digits_of n)).
  { cbn. rewrite Hd. cbn.
    rewrite (digits_no_terminator _ (digits_of_all n)). reflexivity. }
  rewrite Hm.
  destruct (question_rest_is_no_name (digits_of n)) as [-> [-> ->]].
  assert (Hq : match_question ("q:" ++ digits_of n) = Some (digits_of n)).
  { cbn. now rewrite digits_of_truthy, digits_of_all. }
  rewrite Hq, (parseInt10_digits_of n Hn).
  replace (Z.of_N n + 1)%Z with (Z.of_N (n + 1)) by lia.
  rewrite toString_of_N. reflexivity.
Qed.

Lemma question_clips_are_numbered_from_one_witness :
  formatClipKey "p1:q:2" = Some "Part 1 – Question 3".
Proof.
  apply (question_clips_are_numbered_from_one "1"%char 2%N); reflexivity.
Defined.

(** X6. Formatting is idempotent: a label that [formatClipKey] gives is
    its own label, so formatting a key twice shows the same text as
    formatting it once. *)
Theorem formatClipKey_is_idempotent :
  forall key label,
    formatClipKey key = Some label -> formatClipKey label = Some label.
Proof.
  intros key label H. pose proof H as H0. unfold formatClipKey in H.
  destruct (prefix "id:" key); [inversion H; reflexivity|].
  destruct (match_part key) as [[d rest]|]; [|inversion H; now subst].
  destruct (rest =? "intro"); [inversion H; apply label_is_kept|].
  destruct (rest =? "prep_over"); [inversion H; apply label_is_kept|].
  destruct (rest =? "stop"); [inversion H; apply label_is_kept|].
  destruct (match_question rest); [|inversion H; now subst].
  destruct (parseInt10 s); [|discriminate].
  inversion H. apply label_is_kept.
Qed.

Lemma formatClipKey_is_idempotent_witness :
  formatClipKey "Part 2 – Start Speaking" = Some "Part 2 – Start Speaking".
Proof.
  apply (formatClipKey_is_idempotent "p2:prep_over"). reflexivity.
Defined.



End IndicatorProofs.


(* ================================================================== *)
(** * Proofs about the speaking-test page *)
(* ================================================================== *)

Module PageProofs.
Import SpeakingTest.

(** ** What the handlers leave alone *)

Create Rewrite HintDb tp.
Create Rewrite HintDb tu.

Lemma tp_set_showStartOverlay v s : timer_part (set_showStartOverlay v s) = timer_part s.
Proof. reflexivity. Qed.

Lemma tp_set_phase v s : timer_part (set_phase v s) = timer_part s.
Proof. reflexivity. Qed.

Lemma tp_set_currentPart v s : timer_part (set_currentPart v s) = timer_part s.
Proof. reflexivity. Qed.

Lemma tp_set_timeLeft v s : timer_part (set_timeLeft v s) = timer_part s.
Proof. reflexivity. Qed.

Lemma tp_set_totalTestTime v s : timer_part (set_totalTestTime v s) = timer_part s.
Proof. reflexivity. Qed.

Lemma tp_set_isRecording v s : timer_part (set_isRecording v s) = timer_part s.
Proof. reflexivity. Qed.

Lemma tp_set_partRecordings v s : timer_part (set_partRecordings v s) = timer_part s.
Proof. reflexivity. Qed.

Lemma tp_set_mediaRecorder v s : timer_part (set_mediaRecorder v s) = timer_part s.
Proof. reflexivity. Qed.

Lemma tp_set_audioChunks v s : timer_part (set_audioChunks v s) = timer_part s.
Proof. reflexivity. Qed.

Lemma tp_set_part2SpeakingStart v s : timer_part (set_part2SpeakingStart v s) = timer_part s.
Proof. reflexivity. Qed.

Lemma tp_set_timeouts v s : timer_part (set_timeouts v s) = timer_part s.
Proof. reflexivity. Qed.

Lemma tp_set_micRequests v s : timer_part (set_micRequests v s) = timer_part s.
Proof. reflexivity. Qed.

Lemma tp_set_readers v s : timer_part (set_readers v s) = timer_part s.
Proof. reflexivity. Qed.

Lemma tp_set_requests v s : timer_part (set_requests v s) = timer_part s.
Proof. reflexivity. Qed.

Lemma tp_set_unmounted v s : timer_part (set_unmounted v s) = timer_part s.
Proof. reflexivity. Qed.

Lemma tp_set_outputs v s : timer_part (set_outputs v s) = timer_part s.
Proof. reflexivity. Qed.

#[local] Hint Rewrite tp_set_showStartOverlay tp_set_phase tp_set_currentPart tp_set_timeLeft tp_set_totalTestTime tp_set_isRecording tp_set_partRecordings tp_set_mediaRecorder tp_set_audioChunks tp_set_part2SpeakingStart tp_set_timeouts tp_set_micRequests tp_set_readers tp_set_requests tp_set_unmounted tp_set_outputs : tp.

Lemma tu_set_showStartOverlay v s : time_ups (set_showStartOverlay v s) = time_ups s.
Proof. reflexivity. Qed.

Lemma tu_set_phase v s : time_ups (set_phase v s) = time_ups s.
Proof. reflexivity. Qed.

Lemma tu_set_currentPart v s : time_ups (set_currentPart v s) = time_ups s.
Proof. reflexivity. Qed.

Lemma tu_set_timeLeft v s : time_ups (set_timeLeft v s) = time_ups s.
Proof. reflexivity. Qed.

Lemma tu_set_totalTestTime v s : time_ups (set_totalTestTime v s) = time_ups s.
Proof. reflexivity. Qed.

Lemma tu_set_isRecording v s : time_ups (set_isRecording v s) = time_ups s.
Proof. reflexivity. Qed.

Lemma tu_set_partRecordings v s : time_ups (set_partRecordings v s) = time_ups s.
Proof. reflexivity. Qed.

Lemma tu_set_mediaRecorder v s : time_ups (set_mediaRecorder v s) = time_ups s.
Proof. reflexivity. Qed.

Lemma tu_set_audioChunks v s : time_ups (set_audioChunks v s) = time_ups s.
Proof. reflexivity. Qed.

Lemma tu_set_part2SpeakingStart v s : time_ups (set_part2SpeakingStart v s) = time_ups s.
Proof. reflexivity. Qed.

Lemma tu_set_timerRef v s : time_ups (set_timerRef v s) = time_ups s.
Proof. reflexivity. Qed.

Lemma tu_set_intervals v s : time_ups (set_intervals v s) = time_ups s.
Proof. reflexivity. Qed.

Lemma tu_set_cleanupArmed v s : time_ups (set_cleanupArmed v s) = time_ups s.
Proof. reflexivity. Qed.

Lemma tu_set_effectDeps v s : time_ups (set_effectDeps v s) = time_ups s.
Proof. reflexivity. Qed.

Lemma tu_set_nextTimerId v s : time_ups (set_nextTimerId v s) = time_ups s.
Proof. reflexivity. Qed.

Lemma tu_set_timeouts v s : time_ups (set_timeouts v s) = time_ups s.
Proof. reflexivity. Qed.

Lemma tu_set_micRequests v s : time_ups (set_micRequests v s) = time_ups s.
Proof. reflexivity. Qed.

Lemma tu_set_readers v s : time_ups (set_readers v s) = time_ups s.
Proof. reflexivity. Qed.

Lemma tu_set_requests v s : time_ups (set_requests v s) = time_ups s.
Proof. reflexivity. Qed.

Lemma tu_set_unmounted v s : time_ups (set_unmounted v s) = time_ups s.
Proof. reflexivity. Qed.

#[local] Hint Rewrite tu_set_showStartOverlay tu_set_phase tu_set_currentPart tu_set_timeLeft tu_set_totalTestTime tu_set_isRecording tu_set_partRecordings tu_set_mediaRecorder tu_set_audioChunks tu_set_part2SpeakingStart tu_set_timerRef tu_set_intervals tu_set_cleanupArmed tu_set_effectDeps tu_set_nextTimerId tu_set_timeouts tu_set_micRequests tu_set_readers tu_set_requests tu_set_unmounted : tu.
Lemma tp_say o s : timer_part (say o s) = timer_part s.
Proof. reflexivity. Qed.

Lemma tp_sendText p s : timer_part (sendText p s) = timer_part s.
Proof. reflexivity. Qed.

Lemma tp_toast a b c s : timer_part (toast a b c s) = timer_part s.
Proof. reflexivity. Qed.

Lemma tp_schedule d s : timer_part (schedule d s) = timer_part s.
Proof. reflexivity. Qed.

Lemma tp_request_mic t s : timer_part (request_mic t s) = timer_part s.
Proof. reflexivity. Qed.

#[local] Hint Rewrite tp_say tp_sendText tp_toast tp_schedule tp_request_mic : tp.

Lemma tp_stop_capture s : timer_part (stop_capture s) = timer_part s.
Proof.
  unfold stop_capture. autorewrite with tp.
  destruct (mediaRecorder s) as [[|]|]; now autorewrite with tp.
Qed.

Lemma tp_save_chunks p s : timer_part (save_chunks p s) = timer_part s.
Proof.
  unfold save_chunks. destruct (obj_get p (partRecordings s)); [|reflexivity].
  destruct (chunks p0); now autorewrite with tp.
Qed.

#[local] Hint Rewrite tp_stop_capture tp_save_chunks : tp.

Lemma tp_start_reader p snap s s' :
  start_reader p snap s = Some s' -> timer_part s' = timer_part s.
Proof.
  unfold start_reader. destruct (obj_get p snap); [|congruence].
  destruct (chunks p0); [|discriminate].
  destruct (0 <? _)%nat; intros H; inversion H; now autorewrite with tp.
Qed.

Lemma tp_transitionToPart2 snap now s :
  timer_part (transitionToPart2 snap now s) = timer_part s.
Proof.
  unfold transitionToPart2. destruct (start_reader _ _ _) eqn:E.
  - autorewrite with tp. rewrite (tp_start_reader _ _ _ _ E). now autorewrite with tp.
  - now autorewrite with tp.
Qed.

Lemma tp_transitionToPart3 eager snap now s :
  timer_part (transitionToPart3 eager snap now s) = timer_part s.
Proof.
  unfold transitionToPart3. destruct (start_reader _ _ _) eqn:E.
  - autorewrite with tp. rewrite (tp_start_reader _ _ _ _ E).
    destruct eager; now autorewrite with tp.
  - destruct eager; now autorewrite with tp.
Qed.

Lemma tp_handleTimeUp ph snap now s :
  timer_part (handleTimeUp ph snap now s) = timer_part s.
Proof. unfold handleTimeUp. destruct ph; now autorewrite with tp. Qed.

Lemma tp_handleCompleteTest s : timer_part (handleCompleteTest s) = timer_part s.
Proof.
  unfold handleCompleteTest, uploadPartAudio, stopRecording.
  autorewrite with tp. destruct (start_reader _ _ _) eqn:E.
  - rewrite (tp_start_reader _ _ _ _ E). now autorewrite with tp.
  - now autorewrite with tp.
Qed.

#[local] Hint Rewrite tp_transitionToPart2 tp_transitionToPart3 tp_handleTimeUp
  tp_handleCompleteTest : tp.

Lemma tp_handle e s : timer_part (handle e s) = timer_part s.
Proof.
  destruct e; unfold handle, when.
  - destruct (showStartOverlay s); [|reflexivity].
    unfold handleStartTest. now autorewrite with tp.
  - unfold connect_failed. now autorewrite with tp.
  - destruct (phase_eqb _ _); [|reflexivity].
    unfold startIdentityCheck. now autorewrite with tp.
  - now autorewrite with tp.
  - destruct (_ && _); [|reflexivity]. unfold startPart1. now autorewrite with tp.
  - destruct (_ && _); [|reflexivity]. now autorewrite with tp.
  - destruct (_ && _); [|reflexivity].
    destruct (isRecording s); unfold stopRecording, startRecording;
      now autorewrite with tp.
  - destruct (_ && _); [|reflexivity].
    unfold startPart2Speaking. now autorewrite with tp.
  - destruct (_ && _); [|reflexivity]. now autorewrite with tp.
  - destruct (running id s); [|reflexivity].
    unfold interval_tick. autorewrite with tp.
    destruct (_ <=? _)%Z; [destruct eager|]; now autorewrite with tp.
  - destruct (nth_error _ _) as [d|]; [|reflexivity].
    destruct d; unfold run_delayed, resume_submit; now autorewrite with tp.
  - destruct (nth_error _ _) as [d|]; [|reflexivity].
    destruct d; unfold run_delayed, resume_submit; now autorewrite with tp.
  - destruct (nth_error _ _) as [t|]; [|reflexivity].
    unfold mic_settled.
    destruct granted, listening, t; now autorewrite with tp.
  - destruct (nth_error _ _) as [r|]; [|reflexivity].
    unfold reader_loaded. now autorewrite with tp.
  - destruct (nth_error _ _) as [r|]; [|reflexivity].
    unfold submit_settled. destruct ok; now autorewrite with tp.
  - unfold onUserTranscript. destruct (_ && _); [|reflexivity].
    destruct (obj_get _ _); now autorewrite with tp.
  - unfold data_available. destruct (_ <? _)%Z; now autorewrite with tp.
Qed.

Lemma tu_say o s :
  time_ups (say o s) = time_ups s ++ (if is_time_up o then [o] else []).
Proof.
  unfold time_ups, say. simpl. rewrite filter_app. simpl.
  now destruct (is_time_up o).
Qed.

Lemma tu_say_quiet o s : is_time_up o = false -> time_ups (say o s) = time_ups s.
Proof. intros H. rewrite tu_say, H. apply app_nil_r. Qed.

Lemma tu_sendText p s : time_ups (sendText p s) = time_ups s.
Proof. now apply tu_say_quiet. Qed.

Lemma tu_toast a b c s : time_ups (toast a b c s) = time_ups s.
Proof. now apply tu_say_quiet. Qed.

Lemma tu_schedule d s : time_ups (schedule d s) = time_ups s.
Proof. reflexivity. Qed.

Lemma tu_request_mic t s : time_ups (request_mic t s) = time_ups s.
Proof. reflexivity. Qed.

#[local] Hint Rewrite tu_say_quiet using reflexivity : tu.
#[local] Hint Rewrite tu_sendText tu_toast tu_schedule tu_request_mic : tu.

Lemma tu_stop_capture s : time_ups (stop_capture s) = time_ups s.
Proof.
  unfold stop_capture. autorewrite with tu.
  destruct (mediaRecorder s) as [[|]|]; now autorewrite with tu.
Qed.

Lemma tu_save_chunks p s : time_ups (save_chunks p s) = time_ups s.
Proof.
  unfold save_chunks. destruct (obj_get p (partRecordings s)); [|reflexivity].
  destruct (chunks p0); now autorewrite with tu.
Qed.

#[local] Hint Rewrite tu_stop_capture tu_save_chunks : tu.

Lemma tu_start_reader p snap s s' :
  start_reader p snap s = Some s' -> time_ups s' = time_ups s.
Proof.
  unfold start_reader. destruct (obj_get p snap); [|congruence].
  destruct (chunks p0); [|discriminate].
  destruct (0 <? _)%nat; intros H; inversion H; now autorewrite with tu.
Qed.

Lemma tu_transitionToPart2 snap now s :
  time_ups (transitionToPart2 snap now s) = time_ups s.
Proof.
  unfold transitionToPart2. destruct (start_reader _ _ _) eqn:E.
  - autorewrite with tu. rewrite (tu_start_reader _ _ _ _ E). now autorewrite with tu.
  - now autorewrite with tu.
Qed.

Lemma tu_transitionToPart3 eager snap now s :
  time_ups (transitionToPart3 eager snap now s) = time_ups s.
Proof.
  unfold transitionToPart3. destruct (start_reader _ _ _) eqn:E.
  - autorewrite with tu. rewrite (tu_start_reader _ _ _ _ E).
    destruct eager; now autorewrite with tu.
  - destruct eager; now autorewrite with tu.
Qed.

Lemma tu_handleCompleteTest s : time_ups (handleCompleteTest s) = time_ups s.
Proof.
  unfold handleCompleteTest, uploadPartAudio, stopRecording.
  autorewrite with tu. destruct (start_reader _ _ _) eqn:E.
  - rewrite (tu_start_reader _ _ _ _ E). now autorewrite with tu.
  - now autorewrite with tu.
Qed.

(** [handleTimeUp] is the one place where a time-up is recorded, once per
    call. *)
Lemma tu_handleTimeUp ph snap now s :
  time_ups (handleTimeUp ph snap now s) = time_ups s ++ [TimeUp ph].
Proof.
  unfold handleTimeUp. destruct ph; autorewrite with tu; now rewrite tu_say.
Qed.

#[local] Hint Rewrite tu_transitionToPart2 tu_transitionToPart3
  tu_handleCompleteTest : tu.

Lemma tu_handle e s :
  time_ups (handle e s)
  = time_ups s ++
    match e with
    | Tick id _ _ =>
        match running id s with
        | Some iv => if (timeLeft s <=? 1)%Z then [TimeUp (iv_phase iv)] else []
        | None => []
        end
    | _ => []
    end.
Proof.
  destruct e; unfold handle, when; rewrite ?app_nil_r.
  - destruct (showStartOverlay s); [|reflexivity].
    unfold handleStartTest. now autorewrite with tu.
  - unfold connect_failed. now autorewrite with tu.
  - destruct (phase_eqb _ _); [|reflexivity].
    unfold startIdentityCheck. now autorewrite with tu.
  - now autorewrite with tu.
  - destruct (_ && _); [|reflexivity]. unfold startPart1. now autorewrite with tu.
  - destruct (_ && _); [|reflexivity]. now autorewrite with tu.
  - destruct (_ && _); [|reflexivity].
    destruct (isRecording s); unfold stopRecording, startRecording;
      now autorewrite with tu.
  - destruct (_ && _); [|reflexivity].
    unfold startPart2Speaking. now autorewrite with tu.
  - destruct (_ && _); [|reflexivity]. now autorewrite with tu.
  - destruct (running id s); [|now rewrite app_nil_r].
    unfold interval_tick. autorewrite with tu.
    destruct (_ <=? _)%Z; [destruct eager|]; autorewrite with tu;
      rewrite ?tu_handleTimeUp, ?app_nil_r; now autorewrite with tu.
  - destruct (nth_error _ _) as [d|]; [|reflexivity].
    destruct d; unfold run_delayed, resume_submit; now autorewrite with tu.
  - destruct (nth_error _ _) as [d|]; [|reflexivity].
    destruct d; unfold run_delayed, resume_submit; now autorewrite with tu.
  - destruct (nth_error _ _) as [t|]; [|reflexivity].
    unfold mic_settled.
    destruct granted, listening, t; now autorewrite with tu.
  - destruct (nth_error _ _) as [r|]; [|reflexivity].
    unfold reader_loaded. now autorewrite with tu.
  - destruct (nth_error _ _) as [r|]; [|reflexivity].
    unfold submit_settled. destruct ok; now autorewrite with tu.
  - unfold onUserTranscript. destruct (_ && _); [|reflexivity].
    destruct (obj_get _ _); now autorewrite with tu.
  - unfold data_available. destruct (_ <? _)%Z; now autorewrite with tu.
Qed.

Lemma commit_keeps s :
  outputs (commit s) = outputs s /\ phase (commit s) = phase s /\
  timeLeft (commit s) = timeLeft s /\ unmounted (commit s) = unmounted s /\
  partRecordings (commit s) = partRecordings s.
Proof.
  unfold commit, clear_timer, timer_effect.
  destruct (unmounted s) eqn:U.
  - destruct (cleanupArmed s); [|now rewrite U].
    destruct (timerRef s) as [id|]; [destruct (id =? 0)%nat|]; simpl; now rewrite U.
  - destruct (deps_eqb _ _); [now rewrite U|].
    destruct (cleanupArmed s);
      [destruct (timerRef s) as [id|]; [destruct (id =? 0)%nat|]|];
      simpl; destruct (timeLeft s <=? 0)%Z; simpl; now rewrite U.
Qed.

Lemma timer_ok_same s s' : timer_part s' = timer_part s -> timer_ok s -> timer_ok s'.
Proof.
  unfold timer_part, timer_ok. intros H. inversion H as [[H1 H2 H3 H4 H5]].
  now rewrite H1, H2, H3, H4, H5.
Qed.

Lemma deps_eqb_eq a b : deps_eqb a b = true <-> a = b.
Proof.
  unfold deps_eqb, phase_eqb. destruct a as [t p], b as [t' p']. simpl.
  rewrite andb_true_iff, Z.eqb_eq. destruct (phase_eq_dec p p'); split.
  - intros [-> _]. now subst.
  - intros H. inversion H. tauto.
  - intros [_ H]. discriminate.
  - intros H. inversion H. contradiction.
Qed.

Lemma tp_fields s s' :
  timer_part s' = timer_part s ->
  timerRef s' = timerRef s /\ intervals s' = intervals s /\
  cleanupArmed s' = cleanupArmed s /\ effectDeps s' = effectDeps s /\
  nextTimerId s' = nextTimerId s.
Proof. unfold timer_part. intros H. inversion H. auto. Qed.

Lemma clear_timer_ok s :
  timer_ok s -> cleanupArmed s = true ->
  intervals (clear_timer s) = [] /\
  nextTimerId (clear_timer s) = nextTimerId s /\
  timeLeft (clear_timer s) = timeLeft s /\
  phase (clear_timer s) = phase s /\
  unmounted (clear_timer s) = unmounted s.
Proof.
  intros [Hn Hok] Ha. rewrite Ha in Hok.
  destruct Hok as [id [snap [Hi [Ht [Hid _]]]]].
  unfold clear_timer. rewrite Ht.
  destruct (Nat.eqb_spec id 0) as [E|E]; [lia|].
  simpl. rewrite Hi. simpl. rewrite Nat.eqb_refl. simpl. repeat split.
Qed.

(** After a handler React leaves the timer fields in order again: it has
    cleared the interval of the last effect run before a new one is set. *)
Lemma commit_settled s : timer_ok s -> settled (commit s).
Proof.
  intros Hok. pose proof Hok as [Hn Harm]. unfold commit.
  destruct (unmounted s) eqn:U.
  - destruct (cleanupArmed s) eqn:A.
    + destruct (clear_timer_ok s Hok A) as [C1 [C2 [C3 [C4 C5]]]].
      split; [split|]; simpl; [rewrite C2; exact Hn | exact C1 | rewrite C5, U; reflexivity].
    + split; [exact Hok | rewrite U; exact A].
  - destruct (deps_eqb _ _) eqn:D.
    + split; [exact Hok | rewrite U; now apply deps_eqb_eq].
    + assert (Hc : exists c, c = (if cleanupArmed s then clear_timer s else s) /\
                intervals c = [] /\ nextTimerId c = nextTimerId s /\
                unmounted c = false).
      { eexists. split; [reflexivity|]. destruct (cleanupArmed s) eqn:A.
        - destruct (clear_timer_ok s Hok A) as [C1 [C2 [C3 [C4 C5]]]].
          rewrite C1, C2, C5. auto.
        - auto. }
      destruct Hc as [c [<- [Hci [Hcn Hcu]]]].
      unfold timer_effect. destruct (timeLeft c <=? 0)%Z eqn:T.
      * split; [split|]; simpl; [lia | exact Hci | rewrite Hcu; reflexivity].
      * apply Z.leb_gt in T. split; [split|]; simpl.
        -- lia.
        -- exists (nextTimerId c), (partRecordings c). rewrite Hci. simpl.
           repeat split; lia.
        -- rewrite Hcu. reflexivity.
Qed.

Lemma settled_init : settled init.
Proof. split; [split; [simpl; lia | reflexivity] | reflexivity]. Qed.

Lemma settled_step s e : settled s -> settled (step s e).
Proof.
  intros Hs. unfold step. destruct (unmounted s) eqn:U; [exact Hs|].
  apply commit_settled. apply (timer_ok_same s); [apply tp_handle | apply Hs].
Qed.

Lemma settled_run evs : forall s, settled s -> settled (run evs s).
Proof.
  induction evs as [|e evs IH]; intros s Hs; simpl; auto using settled_step.
Qed.

Lemma settled_one_interval s : settled s -> (List.length (intervals s) <= 1)%nat.
Proof.
  intros [[_ Hok] _]. destruct (cleanupArmed s).
  - destruct Hok as [id [snap [-> _]]]. simpl. lia.
  - rewrite Hok. simpl. lia.
Qed.

(** The interval that runs closes over the current phase, and there is time
    left while it runs. *)
Lemma settled_running s id iv :
  settled s -> running id s = Some iv ->
  iv_id iv = id /\ iv_phase iv = phase s /\ (0 < timeLeft s)%Z /\
  unmounted s = false /\ intervals s = [iv] /\ (id < nextTimerId s)%nat.
Proof.
  intros [[_ Hok] Hdeps] Hr. unfold running in Hr.
  destruct (cleanupArmed s) eqn:A.
  - destruct Hok as [i [snap [Hi [Ht [Hid Hpos]]]]].
    rewrite Hi in Hr. simpl in Hr.
    destruct (Nat.eqb_spec i id) as [E|E]; [|discriminate].
    inversion Hr; subst. destruct (unmounted s); [congruence|].
    rewrite Hdeps in *. simpl in *. repeat split; auto; lia.
  - rewrite Hok in Hr. discriminate.
Qed.

(** One event either leaves the timer, the phase and the time left as they
    are, or clears the timer; a timer that runs afterwards is a new one. *)
Lemma step_timer s e :
  settled s ->
  (intervals (step s e) = intervals s /\ phase (step s e) = phase s /\
   timeLeft (step s e) = timeLeft s) \/
  (forall iv iv', In iv (intervals s) -> In iv' (intervals (step s e)) ->
                  (iv_id iv < iv_id iv')%nat).
Proof.
  intros Hs. unfold step. destruct (unmounted s) eqn:U; [left; auto|].
  pose proof (tp_handle e s) as Htp.
  set (t := handle e s) in *.
  assert (Hok : timer_ok t) by (apply (timer_ok_same s); [exact Htp | apply Hs]).
  destruct (tp_fields s t Htp) as [H1 [H2 [H3 [H4 H5]]]].
  destruct Hs as [[Hn Harm] Hdeps]. rewrite U in Hdeps.
  unfold commit.
  destruct (unmounted t) eqn:Ut.
  - right. destruct (cleanupArmed t) eqn:A.
    + destruct (clear_timer_ok t Hok A) as [C1 _]. simpl. rewrite C1.
      intros iv iv' _ [].
    + destruct Hok as [_ Hok]. rewrite A in Hok. rewrite Hok. intros iv iv' _ [].
  - destruct (deps_eqb _ _) eqn:D.
    + left. apply deps_eqb_eq in D. rewrite H4, Hdeps in D. inversion D.
      repeat split; auto.
    + right.
      assert (Hc : exists c, c = (if cleanupArmed t then clear_timer t else t) /\
                intervals c = [] /\ nextTimerId c = nextTimerId s).
      { eexists. split; [reflexivity|]. destruct (cleanupArmed t) eqn:A.
        - destruct (clear_timer_ok t Hok A) as [C1 [C2 _]]. rewrite C1, C2. auto.
        - destruct Hok as [_ Hok]. rewrite A in Hok. auto. }
      destruct Hc as [c [<- [Hci Hcn]]].
      intros iv iv' Hiv Hiv'. unfold timer_effect in Hiv'.
      destruct (timeLeft c <=? 0)%Z; simpl in Hiv'; rewrite Hci in Hiv'.
      * destruct Hiv'.
      * destruct Hiv' as [<-|[]]. simpl. rewrite Hcn.
        destruct (cleanupArmed s).
        -- destruct Harm as [i [snap [Hi [_ [Hid _]]]]]. rewrite Hi in Hiv.
           destruct Hiv as [<-|[]]. simpl. lia.
        -- rewrite Harm in Hiv. destruct Hiv.
Qed.

Lemma timeLeft_handleTimeUp ph snap now s :
  timeLeft (handleTimeUp ph snap now s) = timeLeft s \/
  timeLeft (handleTimeUp ph snap now s) = PART2_SPEAK_TIME.
Proof.
  unfold handleTimeUp, stop_capture.
  destruct ph; simpl; auto; destruct (mediaRecorder s) as [[|]|]; simpl; auto.
Qed.

(** A running interval that fires changes the time left. *)
Lemma tick_changes_time s id iv eager now :
  settled s -> running id s = Some iv ->
  timeLeft (step s (Tick id eager now)) <> timeLeft s.
Proof.
  intros Hs Hr. destruct (settled_running s id iv Hs Hr) as [_ [_ [Hpos [U _]]]].
  unfold step. rewrite U.
  destruct (commit_keeps (handle (Tick id eager now) s)) as [_ [_ [-> _]]].
  unfold handle. rewrite Hr. unfold interval_tick. simpl.
  destruct (Z.leb_spec (timeLeft s) 1) as [H1|H1].
  - destruct eager; simpl; [lia|].
    destruct (timeLeft_handleTimeUp (iv_phase iv) (iv_recordings iv) now
                (set_timeLeft 0%Z s)) as [E|E]; rewrite E; simpl;
      unfold PART2_SPEAK_TIME; lia.
  - simpl. lia.
Qed.

(** ** The claims about the page *)

(** C9. After every sequence of events at most one interval is running.
    For every further event: if it changes the phase, every interval that
    ran before is cleared, and an interval running afterwards was set after
    that (it has a later id); the time-up handler is called by that event
    exactly when the event is a running interval firing with at most one
    second left, then once and for the current phase, and by no other
    event; and an interval that fired is no longer running afterwards. *)
Theorem one_countdown_timer :
  forall evs e,
    let s := run evs init in
    let s' := step s e in
    (List.length (intervals s) <= 1)%nat /\
    (phase s' <> phase s ->
     forall iv iv', In iv (intervals s) -> In iv' (intervals s') ->
                    (iv_id iv < iv_id iv')%nat) /\
    time_ups s'
    = time_ups s ++
      match e with
      | Tick id _ _ =>
          match running id s with
          | Some _ => if (timeLeft s <=? 1)%Z then [TimeUp (phase s)] else []
          | None => []
          end
      | _ => []
      end /\
    (forall id eager now,
       e = Tick id eager now -> running id s <> None -> running id s' = None).
Proof.
  intros evs e s s'.
  assert (Hs : settled s) by (apply settled_run, settled_init).
  split; [now apply settled_one_interval|]. split; [|split].
  - intros Hph. destruct (step_timer s e Hs) as [[_ [H _]]|H]; [|exact H].
    contradiction.
  - unfold s', step. destruct (unmounted s) eqn:U.
    + destruct e; rewrite ?app_nil_r; try reflexivity.
      destruct (running id s) as [iv|] eqn:R; [|now rewrite app_nil_r].
      destruct (settled_running s id iv Hs R) as [_ [_ [_ [U' _]]]]. congruence.
    + unfold time_ups at 1.
      destruct (commit_keeps (handle e s)) as [-> _].
      fold (time_ups (handle e s)). rewrite tu_handle.
      destruct e; try reflexivity.
      destruct (running id s) as [iv|] eqn:R; [|reflexivity].
      destruct (settled_running s id iv Hs R) as [_ [-> _]]. reflexivity.
  - intros id eager now -> Hr.
    destruct (running id s) as [iv|] eqn:R; [clear Hr | congruence].
    pose proof (tick_changes_time s id iv eager now Hs R) as Hne.
    destruct (step_timer s (Tick id eager now) Hs) as [[_ [_ H]]|H];
      [contradiction|].
    destruct (settled_running s id iv Hs R) as [Hid [_ [_ [_ [Hiv _]]]]].
    unfold running.
    destruct (find _ (intervals s')) as [iv'|] eqn:F; [|reflexivity].
    apply find_some in F. destruct F as [Hin Heq]. apply Nat.eqb_eq in Heq.
    assert (In iv (intervals s)) by (rewrite Hiv; now left).
    specialize (H iv iv' H0 Hin). lia.
Qed.

Lemma one_countdown_timer_check :
  let s := run [ClickStart; Connected; ClickContinue 1000; Fire 0 3000;
                ClickNextPart 9000; Fire 0 13000; ClickReady 20000] init in
  map iv_id (intervals s) = [2] /\ phase s = part2_speaking /\
  timeLeft s = 120%Z.
Proof. repeat split. Qed.

Lemma Qltb_lt a b : Qltb a b = true <-> (a < b)%Q.
Proof. unfold Qltb, Qlt. apply Z.ltb_lt. Qed.

Lemma duration_or_zero_lt d :
  (duration_or_zero (Some d) < 80)%Q <-> (d < 80)%Q.
Proof.
  unfold duration_or_zero. destruct (Qeq_bool d 0) eqn:E; [|tauto].
  apply Qeq_bool_iff in E. rewrite E. tauto.
Qed.

(** C7. When part 2 has a measured speaking duration [d], in seconds, the
    fluency flag of the evaluation request is true if and only if
    [d < 80]; a duration equal to 80 gives a false flag. *)
Theorem fluency_flag_iff_below_80_seconds :
  forall recordings r d,
    obj_get 2 recordings = Some r ->
    speakingDuration r = Some d ->
    (req_fluencyFlag (build_request recordings) = true <-> (d < 80)%Q) /\
    ((d == 80)%Q -> req_fluencyFlag (build_request recordings) = false).
Proof.
  intros recordings r d Hr Hd.
  assert (H : req_fluencyFlag (build_request recordings) = true <-> (d < 80)%Q).
  { simpl. unfold fluencyFlag. rewrite Hr, Hd, Qltb_lt.
    apply duration_or_zero_lt. }
  split; [exact H|].
  intros E. destruct (req_fluencyFlag (build_request recordings)); [|reflexivity].
  exfalso. assert (d < 80)%Q by (now apply H). rewrite E in H0.
  now apply (Qlt_irrefl 80).
Qed.

Lemma fluency_flag_iff_below_80_seconds_witness :
  (req_fluencyFlag
     (build_request [(2, with_speakingDuration 80 (new_recording 2 0))]) = true
   <-> (80 < 80)%Q) /\
  ((80 == 80)%Q ->
   req_fluencyFlag
     (build_request [(2, with_speakingDuration 80 (new_recording 2 0))]) = false).
Proof.
  apply (fluency_flag_iff_below_80_seconds
           [(2, with_speakingDuration 80 (new_recording 2 0))]
           (with_speakingDuration 80 (new_recording 2 0)) 80%Q);
    reflexivity.
Defined.

Lemma obj_get_set_same k v o : obj_get k (obj_set k v o) = Some v.
Proof.
  induction o as [|[k' v'] o IH]; simpl.
  - now rewrite Nat.eqb_refl.
  - destruct (Nat.eqb_spec k k') as [E|E]; simpl.
    + now rewrite Nat.eqb_refl.
    + destruct (k <? k')%nat; simpl.
      * now rewrite Nat.eqb_refl.
      * destruct (Nat.eqb_spec k' k); [congruence | exact IH].
Qed.

Lemma obj_get_set_other k k' v o :
  k <> k' -> obj_get k' (obj_set k v o) = obj_get k' o.
Proof.
  intros Hne. induction o as [|[j w] o IH]; simpl.
  - destruct (Nat.eqb_spec k k'); [congruence | reflexivity].
  - destruct (Nat.eqb_spec k j) as [E|E]; simpl.
    + subst j. destruct (Nat.eqb_spec k k'); [congruence | reflexivity].
    + destruct (k <? j)%nat; simpl.
      * destruct (Nat.eqb_spec k k'); [congruence | reflexivity].
      * destruct (j =? k')%nat; [reflexivity | exact IH].
Qed.

Lemma stop_capture_keeps s :
  partRecordings (stop_capture s) = partRecordings s /\
  part2SpeakingStart (stop_capture s) = part2SpeakingStart s /\
  audioChunks (stop_capture s) = audioChunks s /\
  currentPart (stop_capture s) = currentPart s.
Proof. unfold stop_capture. destruct (mediaRecorder s) as [[|]|]; simpl; auto. Qed.

(** X18. The duration is the one measured when the two minutes are up:
    the flag of a request built from the recordings the time-up handler
    leaves is true exactly when less than 80000 ms have passed since part 2
    speaking began. *)
Lemma flag_of_measured_duration snapshot now s :
  req_fluencyFlag
    (build_request (partRecordings (handleTimeUp part2_speaking snapshot now s)))
  = true
  <-> (now - part2SpeakingStart s < 80000)%Z.
Proof.
  assert (E : partRecordings (handleTimeUp part2_speaking snapshot now s)
              = obj_set 2
                  (with_speakingDuration
                     (measured_duration now (part2SpeakingStart s))
                     (spread (obj_get 2 (partRecordings s))))
                  (partRecordings s)).
  { unfold handleTimeUp, stop_capture. simpl.
    destruct (mediaRecorder s) as [[|]|]; reflexivity. }
  rewrite E. simpl. unfold fluencyFlag.
  rewrite obj_get_set_same. simpl speakingDuration.
  rewrite Qltb_lt, duration_or_zero_lt.
  unfold measured_duration, Qlt. simpl. lia.
Qed.

Lemma commit_keeps_more s :
  audioChunks (commit s) = audioChunks s /\ readers (commit s) = readers s /\
  timeouts (commit s) = timeouts s /\
  showStartOverlay (commit s) = showStartOverlay s /\
  requests (commit s) = requests s.
Proof.
  unfold commit, clear_timer, timer_effect.
  destruct (unmounted s) eqn:U.
  - destruct (cleanupArmed s); [|auto].
    destruct (timerRef s) as [id|]; [destruct (id =? 0)%nat|]; simpl; auto.
  - destruct (deps_eqb _ _); [auto|].
    destruct (cleanupArmed s);
      [destruct (timerRef s) as [id|]; [destruct (id =? 0)%nat|]|];
      simpl; destruct (timeLeft s <=? 0)%Z; simpl; auto.
Qed.

(** C8. When an evaluation request fails, the page shows the toast
    "Submission Failed / Please try again", sets the phase to
    [part3_questions], whatever it was, so that the test can be ended
    again, and touches neither the recordings of the parts nor the
    fragments still buffered, nor what is still pending. *)
Theorem submission_failure_rolls_back :
  forall s k r,
    unmounted s = false ->
    nth_error (requests s) k = Some r ->
    let s' := step s (RequestSettled k false) in
    phase s' = part3_questions /\
    outputs s' = outputs s ++ [Toast "Submission Failed" "Please try again" true] /\
    partRecordings s' = partRecordings s /\
    audioChunks s' = audioChunks s /\
    readers s' = readers s /\
    timeouts s' = timeouts s /\
    unmounted s' = false /\
    can_end_test s' = negb (showStartOverlay s).
Proof.
  intros s k r U Hr s'. unfold s', step. rewrite U.
  assert (Hh : handle (RequestSettled k false) s
               = submit_settled false (set_requests (remove_nth k (requests s)) s))
    by (unfold handle; now rewrite Hr).
  rewrite Hh. clear Hh.
  set (t := submit_settled false _).
  destruct (commit_keeps_more t) as [C1 [C2 [C3 [C4 _]]]].
  destruct (commit_keeps t) as [K1 [K2 [K3 [K4 K5]]]].
  unfold can_end_test. rewrite K1, K2, K4, K5, C1, C2, C3, C4.
  subst t. simpl. rewrite U. repeat split. apply andb_true_r.
Qed.

Lemma submission_failure_rolls_back_witness :
  let s := run [ClickStart; Connected; ClickContinue 1000; Fire 0 3000;
                ClickEndTest; Fire 0 9000] init in
  let s' := step s (RequestSettled 0 false) in
  phase s' = part3_questions /\
  outputs s' = outputs s ++ [Toast "Submission Failed" "Please try again" true] /\
  partRecordings s' = partRecordings s /\
  audioChunks s' = audioChunks s /\
  readers s' = readers s /\
  timeouts s' = timeouts s /\
  unmounted s' = false /\
  can_end_test s' = negb (showStartOverlay s).
Proof.
  apply (submission_failure_rolls_back
           (run [ClickStart; Connected; ClickContinue 1000; Fire 0 3000;
                 ClickEndTest; Fire 0 9000] init)
           0
           ([(1, new_recording 1 1000)],
            build_request [(1, new_recording 1 1000)]));
    reflexivity.
Defined.

(** X19. Ending the test keeps what was captured: every recording there
    was before [handleCompleteTest] is still there afterwards and is the
    same record, except that the recording of the current part has the
    fragments of the buffer, all of them and in their order, after its own.
    The buffer itself is left as it is. *)
Lemma handleCompleteTest_keeps_recordings s p r :
  obj_get p (partRecordings s) = Some r ->
  obj_get p (partRecordings (handleCompleteTest s))
  = Some (if (p =? currentPart s)%nat
          then match chunks r with
               | Some c => with_chunks (c ++ audioChunks s) r
               | None => r
               end
          else r) /\
  audioChunks (handleCompleteTest s) = audioChunks s.
Proof.
  intros Hr.
  destruct (stop_capture_keeps s) as [Kr [_ [Ka Kc]]].
  assert (E : partRecordings (handleCompleteTest s)
              = partRecordings (save_chunks (currentPart s) (stop_capture s)) /\
              audioChunks (handleCompleteTest s)
              = audioChunks (save_chunks (currentPart s) (stop_capture s))).
  { unfold handleCompleteTest, uploadPartAudio, stopRecording.
    rewrite Kc.
    destruct (start_reader _ _ _) eqn:E; simpl; [|auto].
    unfold start_reader in E.
    destruct (obj_get 3 (partRecordings s)) as [rec|]; [|now inversion E].
    destruct (chunks rec); [|discriminate].
    destruct (0 <? _)%nat; now inversion E. }
  destruct E as [-> ->]. unfold save_chunks. rewrite Kr, Ka.
  remember (stop_capture s) as s1 eqn:E1. clear E1.
  destruct (Nat.eqb_spec p (currentPart s)) as [<-|Hne].
  - rewrite Hr. destruct (chunks r) as [c|]; cbn.
    + rewrite obj_get_set_same. now split.
    + now rewrite Kr, Ka.
  - destruct (obj_get (currentPart s) (partRecordings s)) as [cur|].
    + destruct (chunks cur) as [c|]; cbn.
      * rewrite obj_get_set_other by congruence. now split.
      * now rewrite Kr, Ka.
    + now rewrite Kr, Ka.
Qed.

Lemma handleCompleteTest_keeps_recordings_witness :
  let s := run session_part3 init in
  let r := with_transcript " hello" (new_recording 3 187000) in
  currentPart s = 3 /\ audioChunks s = [256%Z] /\
  obj_get 3 (partRecordings (handleCompleteTest s))
  = Some (with_chunks [256%Z] r) /\
  audioChunks (handleCompleteTest s) = [256%Z].
Proof.
  pose proof (handleCompleteTest_keeps_recordings
                (run session_part3 init) 3
                (with_transcript " hello" (new_recording 3 187000))) as W.
  vm_compute in W |- *. specialize (W eq_refl). tauto.
Defined.

(** ** What the page shows *)

Lemma two_digits_below_100 n :
  (0 <= n < 100)%Z ->
  JsText.padStart2 (JsText.toString n) = two_digits n.
Proof.
  intros Hn.
  assert (H : forallb (fun k =>
                String.eqb (JsText.padStart2 (JsText.toString (Z.of_nat k)))
                           (two_digits (Z.of_nat k)))
                (seq 0 100) = true) by (vm_compute; reflexivity).
  rewrite forallb_forall in H.
  specialize (H (Z.to_nat n)). rewrite Z2Nat.id in H by lia.
  apply String.eqb_eq, H, in_seq. lia.
Qed.

(** X8. For a time below 100 minutes, not negative, [formatTime] gives
    five characters: the minutes in two digits, a colon, the seconds of the
    minute in two digits. *)
Theorem formatTime_shows_minutes_and_seconds :
  forall seconds,
    (0 <= seconds < 6000)%Z ->
    formatTime seconds
    = Some (two_digits (seconds / 60) ++ ":" ++ two_digits (seconds mod 60))%string.
Proof.
  intros s Hs. unfold formatTime.
  replace (JsText.exact_integer s) with true
    by (symmetry; unfold JsText.exact_integer; apply Z.leb_le; lia).
  rewrite Z.rem_mod_nonneg by lia.
  rewrite !two_digits_below_100; [reflexivity| |].
  - pose proof (Z.mod_pos_bound s 60). lia.
  - split; [apply Z.div_pos; lia | apply Z.div_lt_upper_bound; lia].
Qed.

Lemma formatTime_shows_minutes_and_seconds_witness :
  formatTime 75 = Some "01:15".
Proof. apply (formatTime_shows_minutes_and_seconds 75). lia. Defined.

Lemma all_digits_app a b :
  JsText.all_digits (a ++ b)%string
  = JsText.all_digits a && JsText.all_digits b.
Proof.
  induction a as [|c a IH]; [reflexivity|].
  cbn. now rewrite IH, andb_assoc.
Qed.

Lemma toString_digits n :
  (0 <= n)%Z -> JsText.toString n = JsText.digits_of (Z.to_N n).
Proof. destruct n; [reflexivity|reflexivity|lia]. Qed.

Lemma all_digits_toString n :
  (0 <= n)%Z -> JsText.all_digits (JsText.toString n) = true.
Proof.
  intros Hn. rewrite toString_digits by assumption.
  unfold JsText.digits_of.
  induction (N.to_uint (Z.to_N n)); cbn; auto.
Qed.

Lemma all_digits_padStart2 t :
  JsText.all_digits t = true -> JsText.all_digits (JsText.padStart2 t) = true.
Proof.
  intros Ht. unfold JsText.padStart2.
  destruct (String.length t) as [|[|k]]; [reflexivity| |assumption].
  cbn. exact Ht.
Qed.

(** The number a string of digits stands for. *)
Lemma read_padStart2 n :
  (0 <= n)%Z ->
  option_map N.of_uint
    (DecimalString.NilEmpty.uint_of_string (JsText.padStart2 (JsText.toString n)))
  = Some (Z.to_N n).
Proof.
  intros Hn. rewrite toString_digits by assumption.
  generalize (Z.to_N n). intros m.
  assert (E : DecimalString.NilEmpty.uint_of_string (JsText.digits_of m)
              = Some (N.to_uint m)) by apply DecimalString.NilEmpty.usu.
  unfold JsText.padStart2.
  destruct (String.length (JsText.digits_of m)) as [|[|k]] eqn:L.
  - destruct (JsText.digits_of m); [|discriminate].
    cbn in E. inversion E as [E'].
    pose proof (DecimalN.Unsigned.of_to m) as O. rewrite <- E' in O.
    cbn in O. subst m. discriminate E'.
  - cbn. rewrite E. cbn. now rewrite DecimalN.Unsigned.of_to.
  - rewrite E. cbn. now rewrite DecimalN.Unsigned.of_to.
Qed.

Lemma split_at_colon a :
  forall a' b b',
    JsText.all_digits a = true -> JsText.all_digits a' = true ->
    (a ++ ":" ++ b = a' ++ ":" ++ b')%string -> a = a' /\ b = b'.
Proof.
  induction a as [|c a IH]; intros [|c' a'] b b' Ha Ha' E; cbn in *.
  - inversion E. auto.
  - inversion E; subst c'. discriminate.
  - inversion E; subst c. discriminate.
  - inversion E; subst c'.
    apply andb_true_iff in Ha, Ha'.
    destruct (IH a' b b') as [-> ->]; tauto.
Qed.

(** X9. Two different numbers of seconds, not negative and exact, are never
    shown as the same text: [formatTime] is injective there. *)
Theorem formatTime_tells_times_apart :
  forall s1 s2,
    (0 <= s1 <= 2 ^ 53)%Z -> (0 <= s2 <= 2 ^ 53)%Z ->
    (formatTime s1 = formatTime s2 <-> s1 = s2).
Proof.
  intros s1 s2 H1 H2. split; [|now intros ->]. unfold formatTime.
  replace (JsText.exact_integer s1) with true
    by (symmetry; unfold JsText.exact_integer; apply Z.leb_le; lia).
  replace (JsText.exact_integer s2) with true
    by (symmetry; unfold JsText.exact_integer; apply Z.leb_le; lia).
  rewrite !Z.rem_mod_nonneg by lia.
  intros E. inversion E as [E']. clear E.
  assert (M1 : (0 <= s1 / 60)%Z) by (apply Z.div_pos; lia).
  assert (M2 : (0 <= s2 / 60)%Z) by (apply Z.div_pos; lia).
  pose proof (Z.mod_pos_bound s1 60) as R1.
  pose proof (Z.mod_pos_bound s2 60) as R2.
  apply split_at_colon in E';
    try (apply all_digits_padStart2, all_digits_toString; assumption).
  destruct E' as [Em Es].
  apply (f_equal (fun t => option_map N.of_uint
                             (DecimalString.NilEmpty.uint_of_string t))) in Em, Es.
  rewrite !read_padStart2 in Em, Es by lia.
  inversion Em. inversion Es.
  rewrite (Z.div_mod s1 60), (Z.div_mod s2 60) by lia.
  lia.
Qed.

Lemma formatTime_tells_times_apart_witness :
  formatTime 75 = formatTime 135 <-> 75%Z = 135%Z.
Proof. apply (formatTime_tells_times_apart 75 135); lia. Defined.

Lemma or_else_truthy a b :
  JsText.truthy b = true -> JsText.truthy (or_else a b) = true.
Proof.
  intros Hb. unfold or_else. destruct a as [s|]; [|assumption].
  destruct (JsText.truthy s) eqn:E; assumption.
Qed.

(** X10. The cue card is never blank: whatever test is loaded, or none,
    [getCueCard] gives a non-empty topic and a non-empty content, the
    defaults standing in for a missing test, a missing part 2 and missing
    or empty fields. *)
Theorem cue_card_is_never_blank :
  forall test,
    let card := getCueCard test in
    JsText.truthy (cue_topic card) = true /\
    JsText.truthy (cue_content card) = true /\
    (test = None ->
     card = mkCueCard DEFAULT_CUE_TOPIC DEFAULT_CUE_CONTENT).
Proof.
  intros test. cbn. repeat split.
  - now apply or_else_truthy.
  - now apply or_else_truthy.
  - now intros ->.
Qed.

(** X12. The word beside the part badge: [Preparation] exactly in
    [part2_prep], [Speaking] exactly in [part1_questions], [part2_speaking]
    and [part3_questions], and [Transition] in every other phase, the two
    per-question recording phases included (their names contain
    [question_], not [questions]). *)
Theorem header_label_by_phase :
  forall p,
    (header_label p = "Preparation" <-> p = part2_prep) /\
    (header_label p = "Speaking" <->
       p = part1_questions \/ p = part2_speaking \/ p = part3_questions) /\
    (header_label p = "Preparation" \/ header_label p = "Speaking"
     \/ header_label p = "Transition").
Proof.
  intros p. destruct p; vm_compute; (repeat split); intros;
    try discriminate; auto;
    repeat match goal with H : _ \/ _ |- _ => destruct H end;
    discriminate.
Qed.

Lemma practice_click_keeps p c :
  practiceModelAnswers (practice_click p c) = practiceModelAnswers p /\
  ((0 <= currentPracticeIndex p < Z.of_nat (List.length (practiceModelAnswers p)))%Z ->
   (0 <= currentPracticeIndex (practice_click p c)
       < Z.of_nat (List.length (practiceModelAnswers p)))%Z).
Proof.
  unfold practice_click.
  destruct (exited p || _); [auto|].
  destruct c; cbn.
  - destruct (Z.eqb_spec (currentPracticeIndex p) 0); cbn; [auto|]. split; [auto|lia].
  - destruct (Z.ltb_spec (currentPracticeIndex p)
                (Z.of_nat (List.length (practiceModelAnswers p)) - 1)); cbn;
      split; auto; lia.
  - destruct (showModelAnswer p); cbn; auto.
  - destruct (showModelAnswer p); cbn; auto.
  - auto.
Qed.

(** X11. On the practice screen, with at least one answer loaded, every
    sequence of clicks leaves [currentPracticeIndex] within the list, so
    [practiceModelAnswers[currentPracticeIndex]], whose fields the screen
    reads, is always defined. *)
Theorem practice_question_is_always_defined :
  forall answers clicks,
    answers <> [] ->
    let p := practice_run clicks (practice_start answers) in
    practiceModelAnswers p = answers /\
    (0 <= currentPracticeIndex p < Z.of_nat (List.length answers))%Z /\
    exists q, currentQuestion p = Some q.
Proof.
  intros answers clicks Hne.
  assert (H : forall p,
            practiceModelAnswers p = answers ->
            (0 <= currentPracticeIndex p < Z.of_nat (List.length answers))%Z ->
            practiceModelAnswers (practice_run clicks p) = answers /\
            (0 <= currentPracticeIndex (practice_run clicks p)
                < Z.of_nat (List.length answers))%Z).
  { induction clicks as [|c clicks IH]; intros p Ha Hi; [auto|].
    cbn. destruct (practice_click_keeps p c) as [K1 K2].
    apply IH; [congruence|]. rewrite <- Ha. apply K2. now rewrite Ha. }
  cbv zeta.
  destruct (H (practice_start answers)) as [Ha Hi]; [reflexivity| |].
  - cbn. destruct answers; [congruence|]. cbn [List.length]. lia.
  - split; [exact Ha|]. split; [exact Hi|].
    unfold currentQuestion.
    replace (_ <? 0)%Z with false by (symmetry; apply Z.ltb_ge; lia).
    rewrite Ha.
    destruct (nth_error answers (Z.to_nat (currentPracticeIndex
                (practice_run clicks (practice_start answers))))) as [q|] eqn:E.
    + now exists q.
    + apply nth_error_None in E. lia.
Qed.

Lemma practice_question_is_always_defined_witness :
  let a := mkAnswer 1 "Where do you live?" "I live in a small town." [] in
  let p := practice_run [ClickForward; ClickPrevious; ClickPrevious]
             (practice_start [a; a]) in
  practiceModelAnswers p = [a; a] /\
  (0 <= currentPracticeIndex p < 2)%Z /\
  exists q, currentQuestion p = Some q.
Proof.
  apply (practice_question_is_always_defined
           [mkAnswer 1 "Where do you live?" "I live in a small town." [];
            mkAnswer 1 "Where do you live?" "I live in a small town." []]
           [ClickForward; ClickPrevious; ClickPrevious]).
  discriminate.
Defined.

(** ** Invariants of the page *)

Lemma all_complete_set k v o :
  all_complete o = true -> complete v = true ->
  all_complete (obj_set k v o) = true.
Proof.
  unfold all_complete. intros Ho Hv.
  induction o as [|[k' v'] o IH]; cbn [obj_set forallb snd].
  - now rewrite Hv.
  - cbn [forallb snd] in Ho. apply andb_true_iff in Ho. destruct Ho as [H1 H2].
    destruct (k =? k')%nat; cbn [forallb snd]; [now rewrite Hv|].
    destruct (k <? k')%nat; cbn [forallb snd]; [now rewrite Hv, H1|].
    now rewrite H1, IH.
Qed.

Lemma all_complete_get k o r :
  all_complete o = true -> obj_get k o = Some r -> complete r = true.
Proof.
  unfold all_complete.
  induction o as [|[k' v'] o IH]; cbn [obj_get forallb snd]; [discriminate|].
  intros Ho. apply andb_true_iff in Ho. destruct Ho as [H1 H2].
  destruct (k' =? k)%nat; [intros E; inversion E; now subst|now apply IH].
Qed.

Lemma has_part_set_same k v o : has_part k (obj_set k v o) = true.
Proof. unfold has_part. now rewrite obj_get_set_same. Qed.

Lemma has_part_set k k' v o :
  has_part k' o = true -> has_part k' (obj_set k v o) = true.
Proof.
  destruct (Nat.eq_dec k k') as [->|Hne]; [intros _; apply has_part_set_same|].
  unfold has_part. now rewrite obj_get_set_other.
Qed.

Lemma has_part_get k o :
  has_part k o = true -> exists r, obj_get k o = Some r.
Proof. unfold has_part. destruct (obj_get k o) as [r|]; [eauto|discriminate]. Qed.

Lemma delayed_ok_mono recs recs' d :
  (forall k, has_part k recs = true -> has_part k recs' = true) ->
  delayed_ok recs d -> delayed_ok recs' d.
Proof. intros H. destruct d; cbn; intuition. Qed.

Lemma sound_same s s' :
  partRecordings s' = partRecordings s -> phase s' = phase s ->
  currentPart s' = currentPart s -> timeLeft s' = timeLeft s ->
  totalTestTime s' = totalTestTime s -> intervals s' = intervals s ->
  timeouts s' = timeouts s -> readers s' = readers s ->
  outputs s' = outputs s -> unmounted s' = unmounted s ->
  Sound s -> Sound s'.
Proof.
  intros E1 E2 E3 E4 E5 E6 E7 E8 E9 E10 [].
  constructor; unfold invoked in *;
    rewrite ?E1, ?E2, ?E3, ?E4, ?E5, ?E6, ?E7, ?E8, ?E9, ?E10; assumption.
Qed.

Lemma sound_set_showStartOverlay v s : Sound s -> Sound (set_showStartOverlay v s).
Proof. now apply sound_same. Qed.
Lemma sound_set_isRecording v s : Sound s -> Sound (set_isRecording v s).
Proof. now apply sound_same. Qed.
Lemma sound_set_mediaRecorder v s : Sound s -> Sound (set_mediaRecorder v s).
Proof. now apply sound_same. Qed.
Lemma sound_set_audioChunks v s : Sound s -> Sound (set_audioChunks v s).
Proof. now apply sound_same. Qed.
Lemma sound_set_part2SpeakingStart v s : Sound s -> Sound (set_part2SpeakingStart v s).
Proof. now apply sound_same. Qed.
Lemma sound_set_micRequests v s : Sound s -> Sound (set_micRequests v s).
Proof. now apply sound_same. Qed.
Lemma sound_set_requests v s : Sound s -> Sound (set_requests v s).
Proof. now apply sound_same. Qed.
Lemma sound_set_timerRef v s : Sound s -> Sound (set_timerRef v s).
Proof. now apply sound_same. Qed.
Lemma sound_set_cleanupArmed v s : Sound s -> Sound (set_cleanupArmed v s).
Proof. now apply sound_same. Qed.
Lemma sound_set_effectDeps v s : Sound s -> Sound (set_effectDeps v s).
Proof. now apply sound_same. Qed.
Lemma sound_set_nextTimerId v s : Sound s -> Sound (set_nextTimerId v s).
Proof. now apply sound_same. Qed.
Lemma sound_request_mic t s : Sound s -> Sound (request_mic t s).
Proof. now apply sound_same. Qed.

Lemma sound_set_phase p s :
  Sound s -> live_phase p = true ->
  (in_part2 p = true -> has_part 2 (partRecordings s) = true) ->
  Sound (set_phase p s).
Proof. intros [] H1 H2. constructor; assumption. Qed.

Lemma sound_set_currentPart v s :
  Sound s -> 1 <= v <= 3 -> Sound (set_currentPart v s).
Proof. intros [] H. constructor; assumption. Qed.

Lemma sound_set_timeLeft v s :
  Sound s -> (0 <= v <= 120)%Z -> Sound (set_timeLeft v s).
Proof. intros [] H. constructor; assumption. Qed.

Lemma sound_set_totalTestTime v s :
  Sound s -> (0 <= v)%Z -> Sound (set_totalTestTime v s).
Proof. intros [] H. constructor; assumption. Qed.

Lemma sound_set_recordings recs s :
  Sound s -> all_complete recs = true ->
  (forall k, has_part k (partRecordings s) = true -> has_part k recs = true) ->
  Sound (set_partRecordings recs s).
Proof.
  intros [] H1 H2. constructor; cbn; auto.
  - intros iv Hiv. destruct (snd_ivs0 iv Hiv). auto.
  - intros d Hd. eapply delayed_ok_mono; eauto.
Qed.

Lemma sound_set_recording k v s :
  Sound s -> complete v = true ->
  Sound (set_partRecordings (obj_set k v (partRecordings s)) s).
Proof.
  intros HS Hv. apply sound_set_recordings; [assumption| |].
  - apply all_complete_set; [apply HS|assumption].
  - intros k'. apply has_part_set.
Qed.

Lemma invoked_say o s :
  invoked (say o s)
  = invoked s ++ match o with Invoke body => [body] | _ => [] end.
Proof.
  unfold invoked, say. cbn. rewrite flat_map_app. cbn. now rewrite app_nil_r.
Qed.

Lemma sound_say o s :
  Sound s -> is_threw o = false ->
  (forall body, o = Invoke body -> exists snapshot, body = build_request snapshot) ->
  Sound (say o s).
Proof.
  intros [] H1 H2. constructor; auto.
  - cbn. rewrite existsb_app. cbn. now rewrite snd_threw0, H1.
  - intros body. rewrite invoked_say. intros Hb. apply in_app_or in Hb.
    destruct Hb as [Hb|Hb]; [auto|].
    destruct o; try contradiction. destruct Hb as [<-|[]]. now apply H2.
  - intros U. cbn. apply in_or_app. left. now apply snd_gone0.
Qed.

Lemma sound_sendText p s : Sound s -> Sound (sendText p s).
Proof. intros H. apply sound_say; [assumption|reflexivity|discriminate]. Qed.

Lemma sound_toast a b c s : Sound s -> Sound (toast a b c s).
Proof. intros H. apply sound_say; [assumption|reflexivity|discriminate]. Qed.

Lemma sound_schedule d s :
  Sound s -> delayed_ok (partRecordings s) d -> Sound (schedule d s).
Proof.
  intros [] H. constructor; auto. cbn. intros d' Hd.
  apply in_app_or in Hd. destruct Hd as [Hd|[<-|[]]]; auto.
Qed.

Lemma remove_nth_In {A} (l : list A) : forall k x, In x (remove_nth k l) -> In x l.
Proof.
  induction l as [|y l IH]; intros [|k] x; cbn; auto.
  intros [->|H]; eauto.
Qed.

Lemma sound_drop_timeout k s : Sound s -> Sound (set_timeouts (remove_nth k (timeouts s)) s).
Proof.
  intros []. constructor; auto. cbn. intros d Hd.
  apply snd_timeouts0. eapply remove_nth_In; eauto.
Qed.

Lemma sound_drop_reader k s : Sound s -> Sound (set_readers (remove_nth k (readers s)) s).
Proof.
  intros []. constructor; auto. cbn. intros d Hd.
  apply snd_readers0. eapply remove_nth_In; eauto.
Qed.

Lemma sound_add_reader r s :
  Sound s -> has_part (rd_part r) (partRecordings s) = true ->
  Sound (set_readers (readers s ++ [r]) s).
Proof.
  intros [] H. constructor; auto. cbn. intros r' Hr.
  apply in_app_or in Hr. destruct Hr as [Hr|[<-|[]]]; auto.
Qed.

Lemma sound_leave s :
  Sound s -> In Navigate (outputs s) -> Sound (set_unmounted true s).
Proof. intros [] H. constructor; auto. Qed.

(** *** The shared steps *)

Lemma same_stop_capture s :
  partRecordings (stop_capture s) = partRecordings s /\
  currentPart (stop_capture s) = currentPart s /\
  audioChunks (stop_capture s) = audioChunks s /\
  timeouts (stop_capture s) = timeouts s /\
  phase (stop_capture s) = phase s /\
  part2SpeakingStart (stop_capture s) = part2SpeakingStart s.
Proof. unfold stop_capture. destruct (mediaRecorder s) as [[|]|]; cbn; auto 10. Qed.

Lemma sound_stop_capture s : Sound s -> Sound (stop_capture s).
Proof.
  intros H. unfold stop_capture.
  apply sound_set_isRecording.
  apply sound_say; [|reflexivity|discriminate].
  destruct (mediaRecorder s) as [[|]|]; auto.
  apply sound_say; [|reflexivity|discriminate].
  now apply sound_set_mediaRecorder.
Qed.

Lemma complete_with_chunks c r : complete r = true -> complete (with_chunks c r) = true.
Proof. unfold complete. cbn. now destruct (partNumber r), (chunks r), (startTime r), (transcript r). Qed.

Lemma complete_with_transcript t r :
  complete r = true -> complete (with_transcript t r) = true.
Proof. unfold complete. cbn. now destruct (partNumber r), (chunks r), (startTime r), (transcript r). Qed.

Lemma complete_with_speakingDuration d r :
  complete r = true -> complete (with_speakingDuration d r) = true.
Proof. unfold complete. cbn. now destruct (partNumber r), (chunks r), (startTime r), (transcript r). Qed.

Lemma complete_with_audio b d r :
  complete r = true -> complete (with_audio b d r) = true.
Proof. unfold complete. cbn. now destruct (partNumber r), (chunks r), (startTime r), (transcript r). Qed.

Lemma complete_chunks r : complete r = true -> exists c, chunks r = Some c.
Proof.
  unfold complete. destruct (partNumber r), (chunks r) as [c|]; try discriminate.
  eauto.
Qed.

Lemma sound_save_chunks part s :
  Sound s ->
  Sound (save_chunks part s) /\
  (forall k, has_part k (partRecordings s) = true ->
             has_part k (partRecordings (save_chunks part s)) = true) /\
  timeouts (save_chunks part s) = timeouts s /\
  phase (save_chunks part s) = phase s.
Proof.
  intros H. unfold save_chunks.
  destruct (obj_get part (partRecordings s)) as [current|] eqn:E; [|auto].
  pose proof (all_complete_get _ _ _ (snd_recs s H) E) as Hc.
  destruct (complete_chunks current Hc) as [c ->].
  split; [|split; [|split]]; try reflexivity.
  - apply sound_set_recording; [assumption|now apply complete_with_chunks].
  - intros k. apply has_part_set.
Qed.

Lemma sound_start_reader part snapshot s :
  Sound s -> all_complete snapshot = true ->
  (has_part part snapshot = true -> has_part part (partRecordings s) = true) ->
  exists s',
    start_reader part snapshot s = Some s' /\ Sound s' /\
    partRecordings s' = partRecordings s /\ timeouts s' = timeouts s /\
    phase s' = phase s /\ audioChunks s' = audioChunks s.
Proof.
  intros H Hsnap Hhas. unfold start_reader, has_part in *.
  destruct (obj_get part snapshot) as [recording|] eqn:E; [|eauto 10].
  pose proof (all_complete_get _ _ _ Hsnap E) as Hc.
  destruct (complete_chunks recording Hc) as [c ->].
  destruct (0 <? List.length c)%nat; [|eauto 10].
  eexists. split; [reflexivity|]. split; [|auto].
  apply sound_add_reader; auto.
Qed.

(** *** The handlers *)

Lemma complete_new part now : complete (new_recording part now) = true.
Proof. reflexivity. Qed.

Lemma sound_startPart1 now s : Sound s -> Sound (startPart1 now s).
Proof.
  intros H. unfold startPart1.
  apply sound_schedule; [|exact I]. apply sound_sendText, sound_set_audioChunks.
  apply sound_set_recording; [|reflexivity].
  apply sound_set_currentPart; [|lia].
  apply sound_set_phase; [assumption|reflexivity|discriminate].
Qed.

Lemma sound_transitionToPart2 now s :
  Sound s -> Sound (transitionToPart2 (partRecordings s) now s).
Proof.
  intros H. unfold transitionToPart2.
  pose proof (sound_stop_capture s H) as H1.
  destruct (same_stop_capture s) as [Er _].
  destruct (sound_start_reader 1 (partRecordings s) (stop_capture s) H1)
    as [s' [-> [H2 _]]]; [apply H|now rewrite Er|].
  apply sound_schedule; [|apply has_part_set_same].
  apply sound_sendText, sound_set_audioChunks.
  apply sound_set_recording; [|reflexivity].
  apply sound_set_currentPart; [|lia].
  apply sound_set_phase; [assumption|reflexivity|discriminate].
Qed.

Lemma sound_transitionToPart3 eager snapshot now s :
  Sound s -> all_complete snapshot = true ->
  has_part 2 (partRecordings s) = true ->
  Sound (transitionToPart3 eager snapshot now s).
Proof.
  intros H Hsnap H2. unfold transitionToPart3.
  pose proof (sound_stop_capture s H) as H1.
  destruct (same_stop_capture s) as [Er _].
  set (s1 := if eager then save_chunks 2 (stop_capture s)
             else save_chunks 2 (set_audioChunks [] (stop_capture s))).
  assert (H3 : Sound s1 /\ has_part 2 (partRecordings s1) = true).
  { unfold s1. destruct eager.
    - destruct (sound_save_chunks 2 (stop_capture s) H1) as [H3 [Hm _]].
      split; [assumption|]. apply Hm. now rewrite Er.
    - destruct (sound_save_chunks 2 (set_audioChunks [] (stop_capture s))
                  (sound_set_audioChunks _ _ H1)) as [H3 [Hm _]].
      split; [assumption|]. apply Hm.
      cbn [partRecordings set_audioChunks]. now rewrite Er. }
  destruct H3 as [H3 Hm].
  destruct (sound_start_reader 2 snapshot s1 H3)
    as [s' [-> [H4 _]]]; [assumption|intros _; exact Hm|].
  apply sound_schedule; [|exact I].
  apply sound_sendText, sound_set_audioChunks.
  apply sound_set_recording; [|reflexivity].
  apply sound_set_currentPart; [|lia].
  apply sound_set_phase; [assumption|reflexivity|discriminate].
Qed.

Lemma sound_handleTimeUp ph snapshot now s :
  Sound s -> all_complete snapshot = true ->
  (in_part2 ph = true -> has_part 2 (partRecordings s) = true) ->
  Sound (handleTimeUp ph snapshot now s) /\
  (0 <= timeLeft (handleTimeUp ph snapshot now s) <= 120)%Z.
Proof.
  intros H Hsnap H2.
  assert (H0 : Sound (say (TimeUp ph) s))
    by (apply sound_say; [assumption|reflexivity|discriminate]).
  assert (T : (0 <= timeLeft s <= 120)%Z) by apply H.
  unfold handleTimeUp.
  destruct (same_stop_capture (say (TimeUp ph) s)) as [Er _].
  destruct ph; try (split; [exact H0 | exact T]).
  - split; [|cbn; unfold stop_capture;
             destruct (mediaRecorder _) as [[|]|]; exact T].
    apply sound_sendText, sound_set_phase;
      [now apply sound_stop_capture|reflexivity|discriminate].
  - split; [|cbn; unfold PART2_SPEAK_TIME; lia].
    apply sound_schedule; [|exact I].
    apply sound_sendText, sound_set_part2SpeakingStart.
    apply sound_set_timeLeft; [|unfold PART2_SPEAK_TIME; lia].
    apply sound_set_phase; [assumption|reflexivity|intros _; now apply H2].
  - specialize (H2 eq_refl).
    split; [|cbn; unfold stop_capture;
             destruct (mediaRecorder _) as [[|]|]; exact T].
    cbv zeta.
    apply sound_schedule.
    + apply sound_sendText, sound_set_recording;
        [now apply sound_stop_capture|].
      rewrite Er. cbn [partRecordings say set_outputs].
      destruct (has_part_get _ _ H2) as [r Hr]. rewrite Hr. cbn [spread].
      apply complete_with_speakingDuration.
      exact (all_complete_get _ _ _ (snd_recs s H) Hr).
    + split; [assumption|]. cbn. apply has_part_set_same.
  - split; [|cbn; unfold stop_capture;
             destruct (mediaRecorder _) as [[|]|]; exact T].
    apply sound_sendText, sound_set_phase;
      [now apply sound_stop_capture|reflexivity|discriminate].
Qed.

Lemma sound_stopRecording s :
  Sound s ->
  Sound (stopRecording s) /\
  (forall k, has_part k (partRecordings s) = true ->
             has_part k (partRecordings (stopRecording s)) = true).
Proof.
  intros H. unfold stopRecording.
  destruct (same_stop_capture s) as [Er _].
  destruct (sound_save_chunks (currentPart (stop_capture s)) (stop_capture s)
              (sound_stop_capture s H)) as [H1 [Hm _]].
  split; [assumption|]. intros k Hk. apply Hm. now rewrite Er.
Qed.

Lemma sound_handleCompleteTest s : Sound s -> Sound (handleCompleteTest s).
Proof.
  intros H. unfold handleCompleteTest, uploadPartAudio.
  destruct (sound_stopRecording s H) as [H1 Hm].
  destruct (sound_start_reader 3 (partRecordings s) (stopRecording s) H1)
    as [s' [-> [H2 _]]]; [apply H|apply Hm|].
  apply sound_schedule; [|exact I].
  apply sound_sendText, sound_set_phase; [assumption|reflexivity|discriminate].
Qed.

Lemma sound_run_delayed eager d now s :
  Sound s -> delayed_ok (partRecordings s) d ->
  Sound (run_delayed eager d now s).
Proof.
  intros H Hd. destruct d; cbn [run_delayed].
  - apply sound_request_mic, sound_set_phase; [assumption|reflexivity|discriminate].
  - apply sound_set_timeLeft; [|unfold PART2_PREP_TIME; lia].
    apply sound_set_phase; [assumption|reflexivity|intros _; exact Hd].
  - now apply sound_request_mic.
  - destruct Hd. now apply sound_transitionToPart3.
  - apply sound_request_mic, sound_set_phase; [assumption|reflexivity|discriminate].
  - unfold resume_submit. apply sound_set_requests.
    apply sound_say; [|reflexivity|].
    + apply sound_say; [assumption|reflexivity|discriminate].
    + intros body E. inversion E. eauto.
Qed.

Lemma sound_interval_tick iv eager now s :
  Sound s -> In iv (intervals s) -> Sound (interval_tick iv eager now s).
Proof.
  intros H Hiv. destruct (snd_ivs s H iv Hiv) as [Hsnap H2].
  pose proof (snd_time s H) as T. pose proof (snd_total s H) as Tot.
  unfold interval_tick.
  assert (Tot' : forall ph snap t,
            totalTestTime (handleTimeUp ph snap t s) = totalTestTime s).
  { intros ph snap t. unfold handleTimeUp, stop_capture.
    destruct ph; cbn; try reflexivity;
      destruct (mediaRecorder s) as [[|]|]; reflexivity. }
  destruct (timeLeft s <=? 1)%Z eqn:E.
  - destruct eager.
    + apply sound_set_totalTestTime.
      * apply sound_set_timeLeft; [|lia].
        now apply sound_handleTimeUp.
      * cbn. rewrite Tot'. lia.
    + apply sound_set_totalTestTime.
      * apply sound_handleTimeUp; auto.
        apply sound_set_timeLeft; [assumption|lia].
      * assert (X : totalTestTime
                      (handleTimeUp (iv_phase iv) (iv_recordings iv) now
                         (set_timeLeft 0 s)) = totalTestTime s).
        { unfold handleTimeUp, stop_capture.
          destruct (iv_phase iv); cbn; try reflexivity;
            destruct (mediaRecorder s) as [[|]|]; reflexivity. }
        rewrite X. lia.
  - apply Z.leb_gt in E.
    apply sound_set_totalTestTime; [|cbn; lia].
    apply sound_set_timeLeft; [assumption|lia].
Qed.

Lemma complete_spread o k :
  all_complete o = true -> has_part k o = true ->
  complete (spread (obj_get k o)) = true.
Proof.
  intros Ho Hk. destruct (has_part_get _ _ Hk) as [r Hr]. rewrite Hr.
  exact (all_complete_get _ _ _ Ho Hr).
Qed.

Lemma sound_handle e s : Sound s -> Sound (handle e s).
Proof.
  intros H. destruct e; unfold handle, when.
  - destruct (showStartOverlay s); [|assumption].
    unfold handleStartTest.
    apply sound_say; [|reflexivity|discriminate].
    apply sound_set_phase; [|reflexivity|discriminate].
    now apply sound_set_showStartOverlay.
  - now apply sound_toast.
  - destruct (phase_eqb _ _); [|assumption].
    apply sound_sendText, sound_set_phase; [assumption|reflexivity|discriminate].
  - now apply sound_toast.
  - destruct (_ && _); [|assumption]. now apply sound_startPart1.
  - destruct (_ && _); [|assumption]. now apply sound_transitionToPart2.
  - destruct (_ && _); [|assumption].
    destruct (isRecording s); [now apply sound_stopRecording|].
    now apply sound_request_mic.
  - destruct (negb _ && phase_eqb (phase s) part2_prep) eqn:E; [|assumption].
    apply andb_true_iff in E. destruct E as [_ E]. unfold phase_eqb in E.
    destruct (phase_eq_dec (phase s) part2_prep) as [Ep|]; [|discriminate].
    unfold startPart2Speaking.
    apply sound_schedule; [|exact I].
    apply sound_sendText, sound_set_part2SpeakingStart.
    apply sound_set_timeLeft; [|unfold PART2_SPEAK_TIME; lia].
    apply sound_set_phase; [assumption|reflexivity|].
    intros _. apply (snd_part2 s H). now rewrite Ep.
  - destruct (_ && _); [|assumption]. now apply sound_handleCompleteTest.
  - destruct (running id s) as [iv|] eqn:E; [|assumption].
    apply find_some in E. now apply sound_interval_tick.
  - destruct (nth_error _ _) as [d|] eqn:E; [|assumption].
    apply nth_error_In in E.
    apply sound_run_delayed; [now apply sound_drop_timeout|].
    exact (snd_timeouts s H d E).
  - destruct (nth_error _ _) as [d|] eqn:E; [|assumption].
    apply nth_error_In in E.
    apply sound_run_delayed; [now apply sound_drop_timeout|].
    exact (snd_timeouts s H d E).
  - destruct (nth_error _ _) as [t|]; [|assumption].
    unfold mic_settled.
    assert (H1 : Sound (set_micRequests (remove_nth k (micRequests s)) s))
      by now apply sound_set_micRequests.
    assert (Hf : forall s0, Sound s0 ->
              Sound (if t then toast "Microphone Error"
                                   "Could not access microphone" true s0
                     else s0))
      by (intros s0 H0; destruct t; [now apply sound_toast|assumption]).
    destruct granted; [|now apply Hf].
    assert (H2 : Sound (set_isRecording true
                   (say RecorderStarted
                      (set_mediaRecorder (Some true)
                         (set_micRequests (remove_nth k (micRequests s)) s))))).
    { apply sound_set_isRecording.
      apply sound_say; [|reflexivity|discriminate].
      now apply sound_set_mediaRecorder. }
    destruct listening; [|now apply Hf].
    apply sound_say; [assumption|reflexivity|discriminate].
  - destruct (nth_error _ _) as [r|] eqn:E; [|assumption].
    apply nth_error_In in E. unfold reader_loaded.
    apply sound_set_recording; [now apply sound_drop_reader|].
    apply complete_with_audio. cbn [partRecordings set_readers].
    apply complete_spread; [apply H|now apply (snd_readers s H)].
  - destruct (nth_error _ _) as [r|]; [|assumption].
    unfold submit_settled. destruct ok.
    + apply sound_leave.
      * apply sound_say; [|reflexivity|discriminate].
        now apply sound_toast, sound_set_requests.
      * cbn. apply in_or_app. right. now left.
    + apply sound_set_phase; [|reflexivity|discriminate].
      now apply sound_toast, sound_set_requests.
  - unfold onUserTranscript. destruct (_ && _); [|assumption].
    destruct (obj_get _ _) as [current|] eqn:E; [|assumption].
    apply sound_set_recording; [assumption|].
    apply complete_with_transcript.
    exact (all_complete_get _ _ _ (snd_recs s H) E).
  - unfold data_available. destruct (_ <? _)%Z; [|assumption].
    now apply sound_set_audioChunks.
Qed.

Lemma sound_set_intervals l s :
  Sound s ->
  (forall iv, In iv l ->
     In iv (intervals s) \/
     (iv_phase iv = phase s /\ iv_recordings iv = partRecordings s)) ->
  Sound (set_intervals l s).
Proof.
  intros [] Hl. constructor; auto. cbn. intros iv Hiv.
  destruct (Hl iv Hiv) as [Hin|[Ep Er]]; [auto|].
  rewrite Ep, Er. auto.
Qed.

Lemma sound_clear_timer s : Sound s -> Sound (clear_timer s).
Proof.
  intros H. unfold clear_timer.
  destruct (timerRef s) as [id|]; [|assumption].
  destruct (id =? 0)%nat; [assumption|].
  apply sound_set_intervals; [assumption|].
  intros iv Hiv. apply filter_In in Hiv. tauto.
Qed.

Lemma sound_timer_effect s : Sound s -> Sound (timer_effect s).
Proof.
  intros H. unfold timer_effect.
  destruct (timeLeft s <=? 0)%Z; [now apply sound_set_cleanupArmed|].
  apply sound_set_cleanupArmed, sound_set_nextTimerId, sound_set_timerRef.
  apply sound_set_intervals; [assumption|].
  intros iv Hiv. apply in_app_or in Hiv. destruct Hiv as [Hiv|[<-|[]]]; auto.
Qed.

Lemma sound_commit s : Sound s -> Sound (commit s).
Proof.
  intros H. unfold commit.
  destruct (unmounted s).
  - destruct (cleanupArmed s); [|assumption].
    now apply sound_set_cleanupArmed, sound_clear_timer.
  - destruct (deps_eqb _ _); [assumption|].
    apply sound_set_effectDeps, sound_timer_effect.
    destruct (cleanupArmed s); [now apply sound_clear_timer|assumption].
Qed.

Lemma sound_init : Sound init.
Proof.
  constructor; cbn; try reflexivity; try lia; try contradiction; discriminate.
Qed.

Lemma sound_step s e : Sound s -> Sound (step s e).
Proof.
  intros H. unfold step. destruct (unmounted s); [assumption|].
  now apply sound_commit, sound_handle.
Qed.

Lemma sound_run evs : forall s, Sound s -> Sound (run evs s).
Proof.
  induction evs as [|e evs IH]; intros s H; [assumption|].
  cbn. apply IH. now apply sound_step.
Qed.

Lemma sound_reachable evs : Sound (run evs init).
Proof. apply sound_run, sound_init. Qed.

(** X13. In every sequence of events the page never throws on a recording
    with missing fields: every record in [partRecordings] keeps its part
    number, fragment list, start time and transcript, the updaters that
    spread [prev[part]] always find the record there, and the component is
    torn down by nothing but the navigation after a submitted test. *)
Theorem recordings_stay_complete :
  forall evs,
    let s := run evs init in
    existsb is_threw (outputs s) = false /\
    all_complete (partRecordings s) = true /\
    (forall r, In r (readers s) ->
       has_part (rd_part r) (partRecordings s) = true) /\
    (unmounted s = true -> In Navigate (outputs s)).
Proof.
  intros evs s. destruct (sound_reachable evs).
  repeat split; assumption.
Qed.

(** X14. The phases [part1_question_recording], [part3_question_recording]
    and [done] are never entered, whatever the events, and [currentPart] is
    always 1, 2 or 3. *)
Theorem unused_phases_are_never_entered :
  forall evs,
    let s := run evs init in
    phase s <> part1_question_recording /\
    phase s <> part3_question_recording /\
    phase s <> done /\
    (currentPart s = 1 \/ currentPart s = 2 \/ currentPart s = 3).
Proof.
  intros evs s. destruct (sound_reachable evs) as [_ Hp _ Hc _ _ _ _ _ _ _ _].
  fold s in Hp, Hc.
  repeat split; try (intros E; rewrite E in Hp; discriminate). lia.
Qed.

(** X15. The countdown never leaves the range from 0 to 120 seconds, and
    the total test time never becomes negative. *)
Theorem countdown_stays_within_two_minutes :
  forall evs,
    let s := run evs init in
    (0 <= timeLeft s <= 120)%Z /\ (0 <= totalTestTime s)%Z.
Proof.
  intros evs s. destruct (sound_reachable evs). split; assumption.
Qed.

(** *** Where a request comes from *)

Lemma submits_in s snap :
  In snap (submits s) <-> In (ResumeSubmit snap) (timeouts s).
Proof.
  unfold submits. rewrite in_flat_map. split.
  - intros [d [Hd Hs]]. destruct d; try contradiction.
    destruct Hs as [<-|[]]. exact Hd.
  - intros H. exists (ResumeSubmit snap). split; [exact H|now left].
Qed.

Ltac flat :=
  unfold submits, invoked in *; cbn;
  rewrite ?flat_map_app; cbn; rewrite ?app_nil_r.

Lemma sub_stop_capture s :
  submits (stop_capture s) = submits s /\ invoked (stop_capture s) = invoked s.
Proof. unfold stop_capture. destruct (mediaRecorder s) as [[|]|]; flat; auto. Qed.

Lemma sub_save_chunks p s :
  submits (save_chunks p s) = submits s /\ invoked (save_chunks p s) = invoked s.
Proof.
  unfold save_chunks. destruct (obj_get _ _) as [c|]; [|auto].
  destruct (chunks c); flat; auto.
Qed.

Lemma sub_start_reader p snap s s' :
  start_reader p snap s = Some s' ->
  submits s' = submits s /\ invoked s' = invoked s.
Proof.
  unfold start_reader. destruct (obj_get _ _) as [c|]; [|intros E; now inversion E].
  destruct (chunks c); [|discriminate].
  destruct (_ <? _)%nat; intros E; now inversion E.
Qed.

Lemma sub_transitionToPart2 snap now s :
  submits (transitionToPart2 snap now s) = submits s /\
  invoked (transitionToPart2 snap now s) = invoked s.
Proof.
  unfold transitionToPart2. destruct (sub_stop_capture s) as [A B].
  remember (stop_capture s) as s1 eqn:E1. clear E1.
  destruct (start_reader _ _ _) as [s'|] eqn:E.
  - destruct (sub_start_reader _ _ _ _ E) as [C D]. flat.
    rewrite C, D. auto.
  - flat. auto.
Qed.

Lemma sub_transitionToPart3 eager snap now s :
  submits (transitionToPart3 eager snap now s) = submits s /\
  invoked (transitionToPart3 eager snap now s) = invoked s.
Proof.
  unfold transitionToPart3. destruct (sub_stop_capture s) as [A B].
  remember (stop_capture s) as s1 eqn:E1. clear E1.
  set (s2 := if eager then save_chunks 2 s1
             else save_chunks 2 (set_audioChunks [] s1)).
  assert (F : submits s2 = submits s /\ invoked s2 = invoked s).
  { unfold s2. destruct eager.
    - destruct (sub_save_chunks 2 s1) as [-> ->]. auto.
    - destruct (sub_save_chunks 2 (set_audioChunks [] s1)) as [-> ->]. auto. }
  destruct F as [F G]. clearbody s2.
  destruct (start_reader _ _ _) as [s'|] eqn:E.
  - destruct (sub_start_reader _ _ _ _ E) as [C D]. flat.
    rewrite C, D. auto.
  - flat. auto.
Qed.

Lemma sub_handleTimeUp ph snap now s :
  submits (handleTimeUp ph snap now s) = submits s /\
  invoked (handleTimeUp ph snap now s) = invoked s.
Proof.
  unfold handleTimeUp, stop_capture.
  destruct ph; flat; auto; destruct (mediaRecorder s) as [[|]|]; flat; auto.
Qed.

Lemma sub_handleCompleteTest s :
  submits (handleCompleteTest s) = submits s ++ [partRecordings s] /\
  invoked (handleCompleteTest s) = invoked s.
Proof.
  unfold handleCompleteTest, uploadPartAudio, stopRecording.
  destruct (sub_stop_capture s) as [A B].
  destruct (sub_save_chunks (currentPart (stop_capture s)) (stop_capture s))
    as [A' B'].
  remember (save_chunks (currentPart (stop_capture s)) (stop_capture s))
    as s1 eqn:E1. clear E1.
  destruct (start_reader _ _ _) as [s'|] eqn:E.
  - destruct (sub_start_reader _ _ _ _ E) as [C D]. flat.
    rewrite C, D, A', B', A, B. auto.
  - flat. rewrite A', B', A, B. auto.
Qed.

Lemma sub_interval_tick iv eager now s :
  submits (interval_tick iv eager now s) = submits s /\
  invoked (interval_tick iv eager now s) = invoked s.
Proof.
  unfold interval_tick.
  destruct (_ <=? _)%Z; [destruct eager|]; [| |auto].
  - apply (sub_handleTimeUp (iv_phase iv) (iv_recordings iv) now s).
  - apply (sub_handleTimeUp (iv_phase iv) (iv_recordings iv) now
             (set_timeLeft 0 s)).
Qed.

Lemma sub_run_delayed eager d now s :
  submits (run_delayed eager d now s) = submits s /\
  invoked (run_delayed eager d now s)
  = invoked s ++ match d with
                 | ResumeSubmit snap => [build_request snap]
                 | _ => []
                 end.
Proof.
  destruct d; cbn [run_delayed]; rewrite ?app_nil_r; try (flat; now auto).
  apply sub_transitionToPart3.
Qed.

Lemma in_remove_nth {A} (x : A) k l : In x (remove_nth k l) -> In x l.
Proof.
  revert l. induction k as [|k IH]; intros [|y l]; cbn; auto.
  intros [H|H]; auto.
Qed.

Lemma sub_fire eager k now s d snap body :
  nth_error (timeouts s) k = Some d ->
  let s' := run_delayed eager d now
              (set_timeouts (remove_nth k (timeouts s)) s) in
  (In snap (submits s') -> In snap (submits s)) /\
  (In body (invoked s') ->
   In body (invoked s) \/
   exists snap, In snap (submits s) /\ body = build_request snap).
Proof.
  intros E s'. unfold s'.
  destruct (sub_run_delayed eager d now
              (set_timeouts (remove_nth k (timeouts s)) s)) as [-> ->].
  split.
  - rewrite !submits_in. cbn. apply in_remove_nth.
  - intros H. apply in_app_or in H. destruct H as [H|H]; [now left|].
    right. destruct d; try contradiction. destruct H as [<-|[]].
    exists snapshot. split; [|reflexivity].
    apply submits_in. exact (nth_error_In _ _ E).
Qed.

(** What one handler does about requests: only [handleCompleteTest] leaves
    a snapshot waiting, the [partRecordings] of the render its click
    belongs to, and a request goes out only for a snapshot that waited. *)
Lemma sub_handle e s :
  (forall snap, In snap (submits (handle e s)) ->
     In snap (submits s) \/
     (e = ClickEndTest /\ can_end_test s = true /\
      snap = partRecordings s)) /\
  (forall body, In body (invoked (handle e s)) ->
     In body (invoked s) \/
     exists snap, In snap (submits s) /\ body = build_request snap).
Proof.
  assert (Q : forall s', submits s' = submits s /\ invoked s' = invoked s ->
            (forall snap, In snap (submits s') ->
               In snap (submits s) \/
               (e = ClickEndTest /\ can_end_test s = true /\
                snap = partRecordings s)) /\
            (forall body, In body (invoked s') ->
               In body (invoked s) \/
               exists snap, In snap (submits s) /\ body = build_request snap))
    by (intros s' [-> ->]; auto).
  destruct e; unfold handle, when; try (apply Q; flat; now auto).
  - destruct (showStartOverlay s); apply Q; flat; auto.
  - destruct (phase_eqb _ _); apply Q; flat; auto.
  - destruct (_ && _); apply Q; flat; auto.
  - destruct (_ && _); apply Q; [apply sub_transitionToPart2|auto].
  - destruct (_ && _); [|now apply Q].
    destruct (isRecording s); apply Q; [|flat; auto].
    unfold stopRecording.
    destruct (sub_save_chunks (currentPart (stop_capture s)) (stop_capture s))
      as [-> ->]. apply sub_stop_capture.
  - destruct (_ && _); apply Q; flat; auto.
  - destruct (_ && _) eqn:C; [|now apply Q].
    destruct (sub_handleCompleteTest s) as [-> ->]. split; [|auto].
    intros snap H. apply in_app_or in H. destruct H as [H|[<-|[]]]; auto.
  - destruct (running id s) as [iv|]; apply Q; [apply sub_interval_tick|auto].
  - destruct (nth_error _ _) as [d|] eqn:E; [|now apply Q].
    split; [intros snap H; left|intros body H].
    + exact (proj1 (sub_fire true k now s d snap (build_request []) E) H).
    + exact (proj2 (sub_fire true k now s d [] body E) H).
  - destruct (nth_error _ _) as [d|] eqn:E; [|now apply Q].
    split; [intros snap H; left|intros body H].
    + exact (proj1 (sub_fire false k now s d snap (build_request []) E) H).
    + exact (proj2 (sub_fire false k now s d [] body E) H).
  - destruct (nth_error _ _) as [t|]; [|now apply Q].
    apply Q. unfold mic_settled. destruct granted, listening, t; flat; auto.
  - destruct (nth_error _ _) as [r|]; apply Q; flat; auto.
  - destruct (nth_error _ _) as [r|]; [|now apply Q].
    apply Q. unfold submit_settled. destruct ok; flat; auto.
  - apply Q. unfold onUserTranscript.
    destruct (_ && _); [|auto]. destruct (obj_get _ _); flat; auto.
  - apply Q. unfold data_available. destruct (_ <? _)%Z; flat; auto.
Qed.

Lemma sub_step e s :
  (forall snap, In snap (submits (step s e)) ->
     In snap (submits s) \/
     (e = ClickEndTest /\ unmounted s = false /\ can_end_test s = true /\
      snap = partRecordings s)) /\
  (forall body, In body (invoked (step s e)) ->
     In body (invoked s) \/
     exists snap, In snap (submits s) /\ body = build_request snap).
Proof.
  unfold step. destruct (unmounted s); [auto|].
  assert (E : submits (commit (handle e s)) = submits (handle e s) /\
              invoked (commit (handle e s)) = invoked (handle e s)).
  { unfold submits, invoked.
    rewrite (proj1 (commit_keeps _)).
    now rewrite (proj1 (proj2 (proj2 (commit_keeps_more _)))). }
  destruct E as [-> ->]. destruct (sub_handle e s) as [H1 H2].
  split; [|exact H2].
  intros snap H. destruct (H1 snap H) as [H'|[-> [C ->]]]; auto.
Qed.

(** [snap] is what [partRecordings] was at a click on End Test among
    [evs], made while the button was enabled. *)
Lemma clicked_grows evs e snap :
  (exists pre post, evs = pre ++ ClickEndTest :: post /\
     unmounted (run pre init) = false /\
     can_end_test (run pre init) = true /\
     snap = partRecordings (run pre init)) ->
  exists pre post, evs ++ [e] = pre ++ ClickEndTest :: post /\
    unmounted (run pre init) = false /\
    can_end_test (run pre init) = true /\
    snap = partRecordings (run pre init).
Proof.
  intros [pre [post [-> H]]]. exists pre, (post ++ [e]).
  now rewrite <- app_assoc.
Qed.

Lemma requests_come_from_clicks evs :
  (forall snap, In snap (submits (run evs init)) ->
     exists pre post, evs = pre ++ ClickEndTest :: post /\
       unmounted (run pre init) = false /\
       can_end_test (run pre init) = true /\
       snap = partRecordings (run pre init)) /\
  (forall body, In body (invoked (run evs init)) ->
     exists snap, body = build_request snap /\
       exists pre post, evs = pre ++ ClickEndTest :: post /\
         unmounted (run pre init) = false /\
         can_end_test (run pre init) = true /\
         snap = partRecordings (run pre init)).
Proof.
  induction evs as [|e evs [IH1 IH2]] using rev_ind.
  - split; intros x []. 
  - unfold run in *. rewrite fold_left_app. cbn [fold_left].
    destruct (sub_step e (fold_left step evs init)) as [S1 S2]. split.
    + intros snap H. destruct (S1 snap H) as [H'|[-> [U [C ->]]]].
      * apply clicked_grows. now apply IH1.
      * exists evs, []. auto.
    + intros body H. destruct (S2 body H) as [H'|[snap [H' ->]]].
      * destruct (IH2 body H') as [snap [-> P]].
        exists snap. split; [reflexivity|]. now apply clicked_grows.
      * exists snap. split; [reflexivity|]. apply clicked_grows. now apply IH1.
Qed.

(** X16. Every evaluation request the page sends is built by
    [build_request] from the [partRecordings] of the render in which End
    Test was clicked (with the button enabled), not from the recordings at
    the time the request goes out.  Its fluency flag is the comparison of
    the duration it carries with 80 seconds; its audio entries are those of
    the recordings of that render with a non-empty payload, and no others;
    and it carries one transcript entry for every recording of that render,
    in order. *)
Theorem requests_are_well_formed :
  forall evs body,
    In body (invoked (run evs init)) ->
    exists pre post,
      evs = pre ++ ClickEndTest :: post /\
      unmounted (run pre init) = false /\
      can_end_test (run pre init) = true /\
      let recordings := partRecordings (run pre init) in
      body = build_request recordings /\
      req_fluencyFlag body
      = Qltb (req_part2SpeakingDuration body) PART2_MIN_SPEAKING_SECONDS /\
      (forall pa, In pa (req_partAudios body) ->
         nonempty (pa_audioBase64 pa) = true /\
         exists k r, In (k, r) recordings /\
           pa = mkPartAudio (partNumber r) (or_empty (audioBase64 r))
                  (or_zero (duration r))) /\
      (forall k r, In (k, r) recordings ->
         nonempty (or_empty (audioBase64 r)) = true ->
         In (mkPartAudio (partNumber r) (or_empty (audioBase64 r))
               (or_zero (duration r)))
            (req_partAudios body)) /\
      req_transcripts body
      = map (fun kr => (fst kr, transcript (snd kr))) recordings.
Proof.
  intros evs body Hb.
  destruct (proj2 (requests_come_from_clicks evs) body Hb)
    as [snap [-> [pre [post [-> [U [C ->]]]]]]].
  exists pre, post. split; [reflexivity|]. split; [exact U|].
  split; [exact C|]. cbv zeta.
  split; [reflexivity|]. split; [reflexivity|]. split; [|split].
  - intros pa Hpa. cbn in Hpa. apply filter_In in Hpa.
    destruct Hpa as [Hpa Hne]. split; [exact Hne|].
    apply in_map_iff in Hpa. destruct Hpa as [[k r] [<- Hin]].
    exists k, r. auto.
  - intros k r Hin Hne. cbn. apply filter_In. split; [|exact Hne].
    apply in_map_iff. exists (k, r). auto.
  - reflexivity.
Qed.

Lemma requests_are_well_formed_witness :
  let body :=
    mkRequest [mkPartAudio (Some 1%nat) "QUJD" 60%Z]
      [(1%nat, Some ""); (2%nat, Some ""); (3%nat, Some " hello")]
      (120000 # 1000) false in
  invoked (run session init) = [body] /\
  exists pre post,
    session = pre ++ ClickEndTest :: post /\
    unmounted (run pre init) = false /\
    can_end_test (run pre init) = true /\
    let recordings := partRecordings (run pre init) in
    body = build_request recordings /\
    req_fluencyFlag body
    = Qltb (req_part2SpeakingDuration body) PART2_MIN_SPEAKING_SECONDS /\
    (forall pa, In pa (req_partAudios body) ->
       nonempty (pa_audioBase64 pa) = true /\
       exists k r, In (k, r) recordings /\
         pa = mkPartAudio (partNumber r) (or_empty (audioBase64 r))
                (or_zero (duration r))) /\
    (forall k r, In (k, r) recordings ->
       nonempty (or_empty (audioBase64 r)) = true ->
       In (mkPartAudio (partNumber r) (or_empty (audioBase64 r))
             (or_zero (duration r)))
          (req_partAudios body)) /\
    req_transcripts body
    = map (fun kr => (fst kr, transcript (snd kr))) recordings.
Proof.
  intros body. split; [vm_compute; reflexivity|].
  apply (requests_are_well_formed session body).
  vm_compute. auto.
Defined.

(** *** Delays *)

Lemma appends_refl s : appends s s.
Proof. exists []. now rewrite app_nil_r. Qed.

Lemma appends_same s s' : timeouts s' = timeouts s -> appends s s'.
Proof. intros E. exists []. now rewrite app_nil_r. Qed.

Lemma appends_trans s1 s2 s3 : appends s1 s2 -> appends s2 s3 -> appends s1 s3.
Proof.
  intros [l1 E1] [l2 E2]. exists (l1 ++ l2). now rewrite E2, E1, app_assoc.
Qed.

Lemma appends_schedule d s s' : appends s s' -> appends s (schedule d s').
Proof.
  intros H. eapply appends_trans; [exact H|]. now exists [d].
Qed.

Lemma timeouts_save_chunks p s : timeouts (save_chunks p s) = timeouts s.
Proof.
  unfold save_chunks. destruct (obj_get _ _) as [c|]; [|reflexivity].
  now destruct (chunks c).
Qed.

Lemma timeouts_start_reader p snap s s' :
  start_reader p snap s = Some s' -> timeouts s' = timeouts s.
Proof.
  unfold start_reader. destruct (obj_get _ _) as [c|]; [|congruence].
  destruct (chunks c); [|discriminate].
  destruct (_ <? _)%nat; intros E; now inversion E.
Qed.

Lemma timeouts_stop_capture s : timeouts (stop_capture s) = timeouts s.
Proof. apply same_stop_capture. Qed.

Lemma appends_transitionToPart2 snap now s :
  appends s (transitionToPart2 snap now s).
Proof.
  unfold transitionToPart2. destruct (start_reader _ _ _) as [s'|] eqn:E.
  - apply appends_schedule, appends_same. cbn.
    now rewrite (timeouts_start_reader _ _ _ _ E), timeouts_stop_capture.
  - apply appends_same. cbn. apply timeouts_stop_capture.
Qed.

Lemma appends_transitionToPart3 eager snap now s :
  appends s (transitionToPart3 eager snap now s).
Proof.
  unfold transitionToPart3. destruct (start_reader _ _ _) as [s'|] eqn:E.
  - apply appends_schedule, appends_same. cbn.
    rewrite (timeouts_start_reader _ _ _ _ E).
    destruct eager; rewrite timeouts_save_chunks; cbn;
      apply timeouts_stop_capture.
  - apply appends_same. cbn.
    destruct eager; rewrite timeouts_save_chunks; cbn;
      apply timeouts_stop_capture.
Qed.

Lemma appends_handleTimeUp ph snap now s :
  appends s (handleTimeUp ph snap now s).
Proof.
  unfold appends, handleTimeUp, stop_capture.
  destruct ph; cbn; destruct (mediaRecorder s) as [[|]|]; cbn;
    first [ eexists; reflexivity | exists []; now rewrite app_nil_r ].
Qed.

Lemma appends_handleCompleteTest s : appends s (handleCompleteTest s).
Proof.
  unfold handleCompleteTest, uploadPartAudio, stopRecording.
  apply appends_schedule, appends_same. cbn.
  destruct (start_reader _ _ _) as [s'|] eqn:E;
    rewrite ?(timeouts_start_reader _ _ _ _ E);
    now rewrite timeouts_save_chunks, timeouts_stop_capture.
Qed.

Lemma appends_run_delayed eager d now s :
  appends s (run_delayed eager d now s).
Proof.
  destruct d; cbn [run_delayed]; try (now apply appends_same).
  apply appends_transitionToPart3.
Qed.

(** X17. No delay is ever cancelled: while the component is mounted, an
    event other than the firing of a delay leaves every pending
    [setTimeout] callback pending, in order, and the firing of one removes
    that one alone; a handler only ever adds delays at the end.  A delay
    scheduled in one phase therefore still fires after the phase has
    changed. *)
Theorem delays_are_never_cancelled :
  forall s e,
    exists added,
      timeouts (step s e)
      = match e with
        | Fire k _ | FireBatched k _ =>
            if unmounted s then timeouts s else remove_nth k (timeouts s)
        | _ => timeouts s
        end ++ added.
Proof.
  intros s e.
  assert (Hrm : forall k, nth_error (timeouts s) k = None ->
            remove_nth k (timeouts s) = timeouts s).
  { intros k. generalize (timeouts s). induction k as [|k IH]; intros [|d l];
      cbn; try reflexivity; try discriminate.
    intros E. now rewrite IH. }
  unfold step. destruct (unmounted s) eqn:U.
  { exists []. rewrite app_nil_r. now destruct e. }
  rewrite (proj1 (proj2 (proj2 (commit_keeps_more (handle e s))))).
  destruct e; unfold handle, when;
    try (exists []; rewrite app_nil_r; reflexivity).
  - destruct (showStartOverlay s); exists []; now rewrite app_nil_r.
  - destruct (phase_eqb _ _); exists []; now rewrite app_nil_r.
  - destruct (_ && _); [|apply appends_refl]. now exists [AfterPart1Intro].
  - destruct (_ && _); [|apply appends_refl]. apply appends_transitionToPart2.
  - destruct (_ && _); [|apply appends_refl].
    destruct (isRecording s); apply appends_same; [|reflexivity].
    unfold stopRecording.
    now rewrite timeouts_save_chunks, timeouts_stop_capture.
  - destruct (_ && _); [|apply appends_refl]. now exists [StartCapture].
  - destruct (_ && _); [|apply appends_refl]. apply appends_handleCompleteTest.
  - destruct (running id s) as [iv|]; [|apply appends_refl].
    unfold interval_tick.
    destruct (_ <=? _)%Z; [destruct eager|];
      cbn [timeouts set_totalTestTime set_timeLeft]; try apply appends_refl.
    + apply (appends_handleTimeUp (iv_phase iv) (iv_recordings iv) now s).
    + apply (appends_handleTimeUp (iv_phase iv) (iv_recordings iv) now
               (set_timeLeft 0 s)).
  - destruct (nth_error (timeouts s) k) as [d|] eqn:E.
    + apply (appends_run_delayed true d now
               (set_timeouts (remove_nth k (timeouts s)) s)).
    + exists []. now rewrite app_nil_r, Hrm.
  - destruct (nth_error (timeouts s) k) as [d|] eqn:E.
    + apply (appends_run_delayed false d now
               (set_timeouts (remove_nth k (timeouts s)) s)).
    + exists []. now rewrite app_nil_r, Hrm.
  - destruct (nth_error _ _) as [t|]; [|apply appends_refl].
    apply appends_same. unfold mic_settled.
    destruct granted, listening, t; reflexivity.
  - destruct (nth_error _ _) as [r|]; [|apply appends_refl].
    now apply appends_same.
  - destruct (nth_error _ _) as [r|]; [|apply appends_refl].
    apply appends_same. unfold submit_settled. now destruct ok.
  - apply appends_same. unfold onUserTranscript.
    destruct (_ && _); [|reflexivity]. now destruct (obj_get _ _).
  - apply appends_same. unfold data_available. now destruct (_ <? _)%Z.
Qed.


Lemma readers_stop_capture s : readers (stop_capture s) = readers s.
Proof. unfold stop_capture. now destruct (mediaRecorder s) as [[|]|]. Qed.

(** X20. [transitionToPart2] encodes the audio of part 1 only when the
    stored recording of part 1 already holds fragments (it does after a
    pause): a [FileReader] is started exactly then.  The fragments still in
    the buffer do not count for the test, and the buffer is cleared either
    way; the stored recording of part 1 stays as it is. *)
Theorem part1_audio_is_encoded_only_from_stored_fragments :
  forall s now r c,
    obj_get 1 (partRecordings s) = Some r -> chunks r = Some c ->
    let s' := transitionToPart2 (partRecordings s) now s in
    readers s'
    = readers s ++ (if (0 <? List.length c)%nat
                    then [mkReader 1 (startTime r)] else []) /\
    audioChunks s' = [] /\
    obj_get 1 (partRecordings s') = Some r /\
    obj_get 2 (partRecordings s') = Some (new_recording 2 now) /\
    phase s' = part2_intro.
Proof.
  intros s now r c Hr Hc s'. unfold s', transitionToPart2, start_reader.
  rewrite Hr, Hc.
  destruct (same_stop_capture s) as [Er _].
  pose proof (readers_stop_capture s) as Ed.
  remember (stop_capture s) as s1 eqn:E1. clear E1.
  destruct (0 <? List.length c)%nat; cbn;
    rewrite Er, Ed, obj_get_set_same, obj_get_set_other, Hr, ?app_nil_r
      by discriminate;
    repeat split.
Qed.

Lemma part1_audio_is_encoded_only_from_stored_fragments_witness :
  let s := run [ClickStart; Connected; ClickContinue 1000; Fire 0 3000;
                MicSettled 0 true true; DataAvailable 4096%Z] init in
  let s' := transitionToPart2 (partRecordings s) 9000 s in
  audioChunks s = [4096%Z] /\
  readers s' = readers s ++ [] /\
  audioChunks s' = [] /\
  obj_get 1 (partRecordings s') = Some (new_recording 1 1000) /\
  obj_get 2 (partRecordings s') = Some (new_recording 2 9000) /\
  phase s' = part2_intro.
Proof.
  split; [reflexivity|].
  apply (part1_audio_is_encoded_only_from_stored_fragments
           (run [ClickStart; Connected; ClickContinue 1000; Fire 0 3000;
                 MicSettled 0 true true; DataAvailable 4096%Z] init)
           9000 (new_recording 1 1000) []); reflexivity.
Defined.

(** X21. A final, non-empty transcript is appended, after a space, to the
    transcript of the recording of the current part, and no other recording
    changes; an interim transcript changes no recording. *)
Theorem final_transcript_is_appended_to_current_part :
  forall s text r t,
    unmounted s = false -> nonempty text = true ->
    obj_get (currentPart s) (partRecordings s) = Some r ->
    transcript r = Some t ->
    let s' := step s (UserTranscript text true) in
    obj_get (currentPart s) (partRecordings s')
    = Some (with_transcript (t ++ " " ++ text) r) /\
    (forall k, k <> currentPart s ->
       obj_get k (partRecordings s') = obj_get k (partRecordings s)) /\
    partRecordings (step s (UserTranscript text false)) = partRecordings s.
Proof.
  intros s text r t U Ht Hr Htr s'. unfold s', step. rewrite U.
  rewrite !(proj2 (proj2 (proj2 (proj2 (commit_keeps _))))).
  unfold handle, onUserTranscript. rewrite Ht, Hr, Htr. cbn.
  split; [apply obj_get_set_same|]. split; [|reflexivity].
  intros k Hk. apply obj_get_set_other. congruence.
Qed.

Lemma final_transcript_is_appended_to_current_part_witness :
  let s := run [ClickStart; Connected; ClickContinue 1000] init in
  let s' := step s (UserTranscript "hello" true) in
  obj_get 1 (partRecordings s')
  = Some (with_transcript " hello" (new_recording 1 1000)) /\
  (forall k, k <> 1 ->
     obj_get k (partRecordings s') = obj_get k (partRecordings s)) /\
  partRecordings (step s (UserTranscript "hello" false)) = partRecordings s.
Proof.
  apply (final_transcript_is_appended_to_current_part
           (run [ClickStart; Connected; ClickContinue 1000] init)
           "hello" (new_recording 1 1000) ""); reflexivity.
Defined.


Lemma commit_keeps_part s : currentPart (commit s) = currentPart s.
Proof.
  unfold commit, clear_timer, timer_effect.
  destruct (unmounted s).
  - destruct (cleanupArmed s); [|reflexivity].
    destruct (timerRef s) as [id|]; [destruct (id =? 0)%nat|]; reflexivity.
  - destruct (deps_eqb _ _); [reflexivity|].
    destruct (cleanupArmed s);
      [destruct (timerRef s) as [id|]; [destruct (id =? 0)%nat|]|];
      cbn; destruct (timeLeft s <=? 0)%Z; reflexivity.
Qed.

(** What the scenario below needs of a state. *)
Lemma step_facts s e :
  unmounted s = false ->
  phase (step s e) = phase (handle e s) /\
  currentPart (step s e) = currentPart (handle e s) /\
  timeouts (step s e) = timeouts (handle e s) /\
  showStartOverlay (step s e) = showStartOverlay (handle e s) /\
  unmounted (step s e) = unmounted (handle e s) /\
  partRecordings (step s e) = partRecordings (handle e s).
Proof.
  intros U. unfold step. rewrite U.
  destruct (commit_keeps (handle e s)) as [_ [K2 [_ [K4 K5]]]].
  destruct (commit_keeps_more (handle e s)) as [_ [_ [C3 [C4 _]]]].
  rewrite commit_keeps_part. auto 10.
Qed.

Lemma nth_error_middle {A} (l : list A) x r :
  nth_error (l ++ x :: r) (List.length l) = Some x /\
  remove_nth (List.length l) (l ++ x :: r) = l ++ r.
Proof. induction l as [|y l [IH1 IH2]]; cbn; [auto|]. now rewrite IH1, IH2. Qed.

(** X22. A click on [Next: Part 2] made before the two seconds of the
    part 1 introduction are over is undone in part by the delay that
    [startPart1] scheduled: the delay is still pending after the click and,
    when it fires, sets the phase back to [part1_questions], although
    [currentPart] is 2 by then and the delay that leads on to the
    preparation time is pending as well. *)
Theorem early_next_click_is_overtaken_by_the_intro_delay :
  forall s t1 t2 t3,
    unmounted s = false -> showStartOverlay s = false ->
    phase s = identity_check ->
    let s2 := run [ClickContinue t1; ClickNextPart t2] s in
    let s3 := step s2 (Fire (List.length (timeouts s)) t3) in
    phase s2 = part2_intro /\
    timeouts s2 = timeouts s ++ [AfterPart1Intro; AfterPart2Intro] /\
    phase s3 = part1_questions /\
    currentPart s3 = 2 /\
    timeouts s3 = timeouts s ++ [AfterPart2Intro] /\
    unmounted s3 = false.
Proof.
  intros s t1 t2 t3 U O P s2 s3.
  (* Continue to Part 1 *)
  set (s1 := step s (ClickContinue t1)).
  destruct (step_facts s (ClickContinue t1) U) as [P1 [C1 [T1 [O1 [U1 R1]]]]].
  fold s1 in P1, C1, T1, O1, U1, R1.
  unfold handle, when in P1, C1, T1, O1, U1, R1.
  rewrite O, P in P1, C1, T1, O1, U1, R1.
  cbn in P1, C1, T1, O1, U1, R1. rewrite O in O1. rewrite U in U1.
  (* Next: Part 2 *)
  assert (G1 : obj_get 1 (partRecordings s1) = Some (new_recording 1 t1))
    by (rewrite R1; apply obj_get_set_same).
  assert (H2 : handle (ClickNextPart t2) s1
               = transitionToPart2 (partRecordings s1) t2 s1)
    by (unfold handle, when, in_part1; now rewrite O1, P1).
  assert (F2 : phase (handle (ClickNextPart t2) s1) = part2_intro /\
               currentPart (handle (ClickNextPart t2) s1) = 2 /\
               timeouts (handle (ClickNextPart t2) s1)
               = timeouts s1 ++ [AfterPart2Intro] /\
               unmounted (handle (ClickNextPart t2) s1) = false).
  { rewrite H2. unfold transitionToPart2, start_reader. rewrite G1.
    pose proof (timeouts_stop_capture s1) as Et.
    assert (Eu : unmounted (stop_capture s1) = false)
      by (unfold stop_capture; destruct (mediaRecorder s1) as [[|]|]; exact U1).
    remember (stop_capture s1) as s1' eqn:E1. clear E1.
    cbn. rewrite Et, Eu. repeat split. }
  destruct F2 as [P2' [C2' [T2' U2']]].
  destruct (step_facts s1 (ClickNextPart t2) U1) as [P2 [C2 [T2 [_ [U2 _]]]]].
  change (step s1 (ClickNextPart t2)) with s2 in P2, C2, T2, U2.
  rewrite P2' in P2. rewrite C2' in C2. rewrite T2', T1 in T2.
  rewrite U2' in U2. rewrite <- app_assoc in T2. cbn [app] in T2.
  (* the delay of the introduction fires *)
  destruct (nth_error_middle (timeouts s) AfterPart1Intro [AfterPart2Intro])
    as [N R].
  destruct (step_facts s2 (Fire (List.length (timeouts s)) t3) U2)
    as [P3 [C3 [T3 [_ [U3 _]]]]].
  fold s3 in P3, C3, T3, U3.
  unfold handle in P3, C3, T3, U3. rewrite T2, N, R in P3, C3, T3, U3.
  cbn in P3, C3, T3, U3.
  change (step (step s (ClickContinue t1)) (ClickNextPart t2)) with s2 in C3, U3.
  repeat split; congruence.
Qed.

Lemma early_next_click_is_overtaken_by_the_intro_delay_witness :
  let s := run [ClickStart; Connected] init in
  let s2 := run [ClickContinue 1000; ClickNextPart 1500] s in
  let s3 := step s2 (Fire 0 3000) in
  phase s2 = part2_intro /\
  timeouts s2 = timeouts s ++ [AfterPart1Intro; AfterPart2Intro] /\
  phase s3 = part1_questions /\
  currentPart s3 = 2 /\
  timeouts s3 = timeouts s ++ [AfterPart2Intro] /\
  unmounted s3 = false.
Proof.
  apply (early_next_click_is_overtaken_by_the_intro_delay
           (run [ClickStart; Connected] init) 1000 1500 3000); reflexivity.
Defined.

(** X23. [transitionToPart3] decides about encoding the audio of part 2 on
    the [partRecordings] its closure saw, not on the recording its updater
    changes: a [FileReader] is started exactly when that earlier recording
    of part 2 already held fragments.  The buffered fragments reach the
    stored recording of part 2 only when React runs the updater at the
    call; when it runs it at the render, the buffer has been emptied by
    then and the fragments are lost.  Either way the buffer ends empty, a
    fresh recording of part 3 is created, the phase becomes [part3_intro]
    and [currentPart] 3. *)
Theorem part2_audio_is_encoded_from_the_closure :
  forall eager s snapshot now r c cur cc,
    obj_get 2 snapshot = Some r -> chunks r = Some c ->
    obj_get 2 (partRecordings s) = Some cur -> chunks cur = Some cc ->
    let s' := transitionToPart3 eager snapshot now s in
    readers s'
    = readers s ++ (if (0 <? List.length c)%nat
                    then [mkReader 2 (startTime r)] else []) /\
    obj_get 2 (partRecordings s')
    = Some (with_chunks (cc ++ (if eager then audioChunks s else [])) cur) /\
    obj_get 3 (partRecordings s') = Some (new_recording 3 now) /\
    audioChunks s' = [] /\
    phase s' = part3_intro /\ currentPart s' = 3.
Proof.
  intros eager s snapshot now r c cur cc Hr Hc Hcur Hcc s'.
  unfold s', transitionToPart3, start_reader, save_chunks.
  destruct (same_stop_capture s) as [Er [_ [Ea _]]].
  pose proof (readers_stop_capture s) as Ed.
  remember (stop_capture s) as s1 eqn:E1. clear E1.
  destruct eager; cbn [partRecordings audioChunks set_audioChunks];
    rewrite Er, Hcur, Hcc, Hr, Hc, ?Ea;
    destruct (0 <? List.length c)%nat; cbn;
    rewrite Ed, obj_get_set_same, obj_get_set_other, obj_get_set_same,
      ?app_nil_r by discriminate;
    repeat split.
Qed.

Lemma part2_audio_is_encoded_from_the_closure_witness :
  let s := run session_part2 init in
  let snapshot := partRecordings (run session_part1 init) in
  let cur := with_speakingDuration (120000 # 1000) (new_recording 2 60000) in
  timeouts s = [GoPart3 snapshot] /\ audioChunks s = [512%Z] /\
  obj_get 2 (partRecordings s) = Some cur /\
  (let s' := transitionToPart3 true snapshot 187000 s in
   readers s' = readers s /\
   obj_get 2 (partRecordings s') = Some (with_chunks [512%Z] cur) /\
   obj_get 3 (partRecordings s') = Some (new_recording 3 187000) /\
   audioChunks s' = [] /\
   phase s' = part3_intro /\ currentPart s' = 3) /\
  (let s' := transitionToPart3 false snapshot 187000 s in
   readers s' = readers s /\
   obj_get 2 (partRecordings s') = Some (with_chunks [] cur) /\
   obj_get 3 (partRecordings s') = Some (new_recording 3 187000) /\
   audioChunks s' = [] /\
   phase s' = part3_intro /\ currentPart s' = 3).
Proof.
  pose proof (fun eager =>
                part2_audio_is_encoded_from_the_closure eager
                  (run session_part2 init)
                  (partRecordings (run session_part1 init)) 187000
                  (new_recording 2 60000) []
                  (with_speakingDuration (120000 # 1000)
                     (new_recording 2 60000)) []) as W.
  pose proof (W true) as W1. pose proof (W false) as W2. clear W.
  vm_compute in W1, W2 |- *.
  specialize (W1 eq_refl eq_refl eq_refl eq_refl).
  specialize (W2 eq_refl eq_refl eq_refl eq_refl). tauto.
Defined.

End PageProofs.
